(** * The crossword constraint solver of [generate.py]

    A shallow embedding of [CrosswordCreator] (node consistency, [revise],
    [ac3], the consistency checker, the two ordering heuristics and the
    backtracking search) together with the properties of the solver.

    Conventions of the embedding.
    - A Python [set] is a duplicate-free list; the order of the list is the
      order in which Python iterates over the set.  Derived sets (a copy, a
      comprehension, a set difference) keep the order of their source.
    - A Python [dict] is an association list in insertion order.
    - [self.domains] and the [assignment] dictionary are mutable objects:
      every function that touches one takes its content and gives back the
      content it leaves behind, also when it raises.
    - A call either returns, raises, or (for the two functions that are
      defined with a step budget) runs out of budget; the last case is shown
      never to occur. *)

From Stdlib Require Import List String Ascii Arith ZArith Bool Lia.
From Stdlib Require Import Permutation Sorted.
Import ListNotations.
Open Scope nat_scope.
Open Scope list_scope.

(** ** Outcomes of a call *)

Inductive exn : Type := KeyError | IndexError | ValueError | TypeError.

Inductive outcome (A : Type) : Type :=
| Ret (a : A)
| Raise (e : exn)
| Timeout.

Arguments Ret {A} a.
Arguments Raise {A} e.
Arguments Timeout {A}.

Definition bind {A B : Type} (m : outcome A) (k : A -> outcome B) : outcome B :=
  match m with
  | Ret a => k a
  | Raise e => Raise e
  | Timeout => Timeout
  end.

Notation "'let?' x ':=' m 'in' k" := (bind m (fun x => k))
  (at level 10, x pattern, m at level 100, k at level 200).

Definition of_option {A : Type} (e : exn) (o : option A) : outcome A :=
  match o with
  | Some a => Ret a
  | None => Raise e
  end.

(** ** Dictionaries in insertion order *)

Module Dict.
Section Dict.
Context {K V : Type}.
Variable eq_dec : forall a b : K, {a = b} + {a <> b}.

Definition t : Type := list (K * V).

(** [d[k]], with [None] standing for the [KeyError]. *)
Fixpoint get (k : K) (d : t) : option V :=
  match d with
  | [] => None
  | (k', v) :: r => if eq_dec k k' then Some v else get k r
  end.

(** [k in d] *)
Definition mem (k : K) (d : t) : bool :=
  match get k d with
  | Some _ => true
  | None => false
  end.

(** [d[k] = v]: an existing key keeps its place, a new one goes last. *)
Fixpoint set (k : K) (v : V) (d : t) : t :=
  match d with
  | [] => [(k, v)]
  | (k', v') :: r =>
      if eq_dec k k' then (k', v) :: r else (k', v') :: set k v r
  end.

(** [del d[k]], with [None] standing for the [KeyError]. *)
Fixpoint del (k : K) (d : t) : option t :=
  match d with
  | [] => None
  | (k', v') :: r =>
      if eq_dec k k' then Some r
      else match del k r with
           | Some r' => Some ((k', v') :: r')
           | None => None
           end
  end.

Definition keys (d : t) : list K := map fst d.
Definition values (d : t) : list V := map snd d.
End Dict.
Arguments t : clear implicits.
End Dict.

(** ** The puzzle model *)

Inductive Direction : Type := ACROSS | DOWN.

(** The class [Variable] of the puzzle model: a slot of the grid. *)
Record Var : Type := mkVar {
  var_i : nat;
  var_j : nat;
  var_direction : Direction;
  var_length : nat
}.

Definition Direction_eq_dec (a b : Direction) : {a = b} + {a <> b}.
Proof. decide equality. Defined.

Definition Var_eq_dec (a b : Var) : {a = b} + {a <> b}.
Proof.
  decide equality; try apply Nat.eq_dec; apply Direction_eq_dec.
Defined.

Abbreviation word := string.

Definition Arc : Type := (Var * Var)%type.

Definition Arc_eq_dec (a b : Arc) : {a = b} + {a <> b}.
Proof. decide equality; apply Var_eq_dec. Defined.

(** What [CrosswordCreator] reads of its [crossword]: the attributes
    [variables] and [words] (sets), the table [overlaps] (a dictionary keyed
    by pairs of variables, whose entries are [None] or a pair of indices) and
    the method [neighbors].  The class itself belongs to the puzzle model,
    which the solver takes as it is given. *)
Record Crossword : Type := mkCrossword {
  variables : list Var;
  words : list word;
  overlaps : Dict.t Arc (option (nat * nat));
  neighbors : Var -> list Var
}.

(** [self.crossword.overlaps[x, y]]: [None] is the [KeyError], [Some None]
    the entry [None] (no shared cell) and [Some (Some (i, j))] the entry
    [(i, j)]. *)
Definition overlap_of (cw : Crossword) (x y : Var) : option (option (nat * nat)) :=
  Dict.get Arc_eq_dec (x, y) (overlaps cw).

(** Modelled from the spec: the method [neighbors] of the puzzle model, as the
    data model describes it (a slot [y] is a neighbor of [x] iff they are
    distinct and their overlap is not [None]). *)
Definition neighbors_of (vs : list Var)
    (ov : Dict.t Arc (option (nat * nat))) (x : Var) : list Var :=
  filter (fun v =>
            if Var_eq_dec v x then false
            else match Dict.get Arc_eq_dec (v, x) ov with
                 | Some (Some _) => true
                 | _ => false
                 end) vs.

Definition make_crossword (vs : list Var) (ws : list word)
    (ov : Dict.t Arc (option (nat * nat))) : Crossword :=
  mkCrossword vs ws ov (neighbors_of vs ov).

Definition Domains : Type := Dict.t Var (list word).
Definition Assignment : Type := Dict.t Var word.

Definition dget : Var -> Domains -> option (list word) := Dict.get Var_eq_dec.
Definition dset : Var -> list word -> Domains -> Domains := Dict.set Var_eq_dec.
Definition aget : Var -> Assignment -> option word := Dict.get Var_eq_dec.
Definition amem : Var -> Assignment -> bool := Dict.mem Var_eq_dec.
Definition aset : Var -> word -> Assignment -> Assignment := Dict.set Var_eq_dec.
Definition adel : Var -> Assignment -> option Assignment := Dict.del Var_eq_dec.

(** [word in s] for a set of words. *)
Definition word_in (w : word) (s : list word) : bool :=
  if in_dec string_dec w s then true else false.

(** [__init__]: every variable starts with a copy of the vocabulary. *)
Definition init_domains (cw : Crossword) : Domains :=
  map (fun var => (var, words cw)) (variables cw).

(** ** Node consistency *)

(** The loop runs over the keys of [self.domains] and gives each key the set
    of the words of its domain that have the length of the slot. *)
Definition enforce_node_consistency (domains : Domains) : Domains :=
  fold_left
    (fun d variable =>
       match dget variable d with
       | Some ws =>
           dset variable
             (filter (fun w => String.length w =? var_length variable) ws) d
       | None => d
       end)
    (Dict.keys domains) domains.

(** ** Arc consistency *)

(** [word_x[i] == word_y[j]] *)
Definition chars_agree (i j : nat) (word_x word_y : word) : outcome bool :=
  let? a := of_option IndexError (String.get i word_x) in
  let? b := of_option IndexError (String.get j word_y) in
  Ret (Ascii.eqb a b).

(** [any(word_x[i] == word_y[j] for word_y in ys)], which stops at the first
    agreeing word. *)
Fixpoint has_overlap (i j : nat) (word_x : word) (ys : list word)
  : outcome bool :=
  match ys with
  | [] => Ret false
  | word_y :: r =>
      let? b := chars_agree i j word_x word_y in
      if b then Ret true else has_overlap i j word_x r
  end.

(** [s.remove(w)] on a set, which raises [KeyError] when [w] is absent. *)
Definition set_remove (w : word) (s : list word) : option (list word) :=
  if in_dec string_dec w s then Some (remove string_dec w s) else None.

(** The loop of [revise] over the copy of [x]'s domain. *)
Fixpoint revise_loop (i j : nat) (x y : Var) (copy : list word)
    (domains : Domains) (revised : bool) : Domains * outcome bool :=
  match copy with
  | [] => (domains, Ret revised)
  | word_x :: rest =>
      match dget y domains with
      | None => (domains, Raise KeyError)
      | Some dy =>
          match has_overlap i j word_x dy with
          | Ret true => revise_loop i j x y rest domains revised
          | Ret false =>
              match dget x domains with
              | None => (domains, Raise KeyError)
              | Some dx =>
                  match set_remove word_x dx with
                  | None => (domains, Raise KeyError)
                  | Some dx' =>
                      revise_loop i j x y rest (dset x dx' domains) true
                  end
              end
          | Raise e => (domains, Raise e)
          | Timeout => (domains, Timeout)
          end
      end
  end.

Definition revise (cw : Crossword) (domains : Domains) (x y : Var)
  : Domains * outcome bool :=
  match overlap_of cw x y with
  | None => (domains, Raise KeyError)
  | Some None => (domains, Ret false)
  | Some (Some (i, j)) =>
      match dget x domains with
      | None => (domains, Raise KeyError)
      | Some dx => revise_loop i j x y dx domains false
      end
  end.

(** All arcs of the problem, in the order in which the generator of [ac3]
    yields them. *)
Definition all_arcs (cw : Crossword) : list Arc :=
  flat_map (fun var => map (fun neighbor => (var, neighbor)) (neighbors cw var))
           (variables cw).

(** [for z in neighbors(x) - {y}: arcs.append((z, x))].  The worklist keeps
    the right end of the deque at its head. *)
Definition enqueue_neighbors (cw : Crossword) (x y : Var) (arcs : list Arc)
  : list Arc :=
  fold_left (fun q z => (z, x) :: q) (remove Var_eq_dec y (neighbors cw x)) arcs.

(** The [while arcs] loop; [arcs.pop()] takes the head of the worklist. *)
Fixpoint ac3_loop (fuel : nat) (cw : Crossword) (domains : Domains)
    (arcs : list Arc) : Domains * outcome bool :=
  match fuel with
  | O => (domains, Timeout)
  | S fuel' =>
      match arcs with
      | [] => (domains, Ret true)
      | (x, y) :: rest =>
          match revise cw domains x y with
          | (domains1, Ret true) =>
              match dget x domains1 with
              | None => (domains1, Raise KeyError)
              | Some dx =>
                  if List.length dx =? 0 then (domains1, Ret false)
                  else ac3_loop fuel' cw domains1 (enqueue_neighbors cw x y rest)
              end
          | (domains1, Ret false) => ac3_loop fuel' cw domains1 rest
          | (domains1, o) => (domains1, o)
          end
      end
  end.

(** The number of words in the store. *)
Definition total_size (domains : Domains) : nat :=
  list_sum (map (fun e => List.length (snd e)) domains).

(** The largest number of neighbors of a variable of the store. *)
Definition max_degree (cw : Crossword) (domains : Domains) : nat :=
  list_max (map (fun e => List.length (neighbors cw (fst e))) domains).

(** A number of iterations that the loop cannot exceed: every iteration
    either shortens the worklist or shrinks a domain, and a shrink enqueues at
    most [max_degree] arcs. *)
Definition ac3_fuel (cw : Crossword) (domains : Domains) (arcs : list Arc) : nat :=
  S (List.length arcs + total_size domains * max_degree cw domains).

(** The [if not arcs] of [ac3]: a missing seed and an empty one both give all
    arcs of the problem. *)
Definition initial_arcs (cw : Crossword) (arcs : option (list Arc)) : list Arc :=
  match arcs with
  | None | Some [] => all_arcs cw
  | Some l => l
  end.

(** [ac3(arcs)]; [None] is the default argument.  [deque] is
    [collections.deque], which the star import of the puzzle model is taken to
    bind; [deque(arcs)] has the last arc at its right end, where [pop] takes
    it. *)
Definition ac3 (cw : Crossword) (domains : Domains) (arcs : option (list Arc))
  : Domains * outcome bool :=
  let arcs := initial_arcs cw arcs in
  ac3_loop (ac3_fuel cw domains arcs) cw domains (rev arcs).

(** ** The consistency checker *)

Definition assignment_complete (cw : Crossword) (assignment : Assignment) : bool :=
  forallb (fun var => amem var assignment) (variables cw).

(** The loop of [consistent] over the neighbors of [var]; [Ret true] means
    that the loop ran to its end. *)
Fixpoint consistent_neighbors (cw : Crossword) (assignment : Assignment)
    (var : Var) (w : word) (ns : list Var) : outcome bool :=
  match ns with
  | [] => Ret true
  | neighbor :: r =>
      if amem neighbor assignment then
        match overlap_of cw var neighbor with
        | None => Raise KeyError
        | Some None => Raise TypeError
        | Some (Some (i, j)) =>
            let? a := of_option IndexError (String.get i w) in
            let? w' := of_option KeyError (aget neighbor assignment) in
            let? b := of_option IndexError (String.get j w') in
            if Ascii.eqb a b then consistent_neighbors cw assignment var w r
            else Ret false
        end
      else consistent_neighbors cw assignment var w r
  end.

(** The loop of [consistent] over [assignment.items()]. *)
Fixpoint consistent_items (cw : Crossword) (assignment : Assignment)
    (items : list (Var * word)) : outcome bool :=
  match items with
  | [] => Ret true
  | (var, w) :: r =>
      if negb (String.length w =? var_length var) then Ret false
      else if 1 <? count_occ string_dec (Dict.values assignment) w then Ret false
      else
        let? ok := consistent_neighbors cw assignment var w (neighbors cw var) in
        if ok then consistent_items cw assignment r else Ret false
  end.

Definition consistent (cw : Crossword) (assignment : Assignment) : outcome bool :=
  consistent_items cw assignment assignment.

(** ** The ordering heuristics *)

(** The [sum(...)] of [order_domain_values] for one word. *)
Fixpoint lcv_sum (domains : Domains) (assignment : Assignment) (w : word)
    (ns : list Var) : outcome nat :=
  match ns with
  | [] => Ret 0
  | neighbor :: r =>
      if amem neighbor assignment then lcv_sum domains assignment w r
      else
        let? d := of_option KeyError (dget neighbor domains) in
        let? s := lcv_sum domains assignment w r in
        Ret ((if word_in w d then 1 else 0) + s)
  end.

(** The dictionary comprehension of [order_domain_values]. *)
Fixpoint build_heuristics (cw : Crossword) (domains : Domains)
    (assignment : Assignment) (var : Var) (ws : list word)
    (heuristics : Dict.t word nat) : outcome (Dict.t word nat) :=
  match ws with
  | [] => Ret heuristics
  | w :: r =>
      let? n := lcv_sum domains assignment w (neighbors cw var) in
      build_heuristics cw domains assignment var r
        (Dict.set string_dec w n heuristics)
  end.

(** [sorted(l, key=key)]: the stable sort. *)
Fixpoint insert_by {A : Type} (key : A -> nat) (x : A) (l : list A) : list A :=
  match l with
  | [] => [x]
  | y :: r => if key x <=? key y then x :: y :: r else y :: insert_by key x r
  end.

Definition sorted {A : Type} (key : A -> nat) (l : list A) : list A :=
  fold_right (insert_by key) [] l.

(** [heuristics.get]; every word that is looked up is a key. *)
Definition heuristics_get (heuristics : Dict.t word nat) (w : word) : nat :=
  match Dict.get string_dec w heuristics with
  | Some n => n
  | None => 0
  end.

Definition order_domain_values (cw : Crossword) (domains : Domains) (var : Var)
    (assignment : Assignment) : outcome (list word) :=
  let? ws := of_option KeyError (dget var domains) in
  let? heuristics := build_heuristics cw domains assignment var ws [] in
  Ret (sorted (heuristics_get heuristics) (Dict.keys heuristics)).

(** The key of [select_unassigned_variable]. *)
Definition select_key (cw : Crossword) (domains : Domains) (var : Var)
  : outcome (nat * Z) :=
  let? d := of_option KeyError (dget var domains) in
  Ret (List.length d, (- Z.of_nat (List.length (neighbors cw var)))%Z).

(** The order of Python on pairs. *)
Definition key_lt (a b : nat * Z) : bool :=
  (fst a <? fst b) || ((fst a =? fst b) && (snd a <? snd b)%Z).

(** [min(..., key=...)] after its first element: a later element replaces
    the best one only when its key is strictly smaller. *)
Fixpoint min_loop (cw : Crossword) (domains : Domains) (rest : list Var)
    (best : Var) (best_key : nat * Z) : outcome Var :=
  match rest with
  | [] => Ret best
  | v :: r =>
      let? k := select_key cw domains v in
      if key_lt k best_key then min_loop cw domains r v k
      else min_loop cw domains r best best_key
  end.

Definition unassigned (cw : Crossword) (assignment : Assignment) : list Var :=
  filter (fun var => negb (amem var assignment)) (variables cw).

Definition select_unassigned_variable (cw : Crossword) (domains : Domains)
    (assignment : Assignment) : outcome Var :=
  match unassigned cw assignment with
  | [] => Raise ValueError
  | v :: r =>
      let? k := select_key cw domains v in
      min_loop cw domains r v k
  end.

(** ** Backtracking search *)

(** [if result:] on what [backtrack] returns: [None] and the empty
    dictionary are false. *)
Definition truthy (result : option Assignment) : bool :=
  match result with
  | Some (_ :: _) => true
  | _ => false
  end.

(** The [for value in ...] loop of [backtrack]; [recurse] is the recursive
    call.  The dictionary that [backtrack] returns is the very object it was
    given, so the result [Some a] always comes with [a] as the content left
    behind. *)
Fixpoint try_values (cw : Crossword)
    (recurse : Assignment -> Assignment * outcome (option Assignment))
    (var : Var) (values : list word) (assignment : Assignment)
  : Assignment * outcome (option Assignment) :=
  match values with
  | [] => (assignment, Ret None)
  | value :: rest =>
      let a1 := aset var value assignment in
      let undo (a : Assignment) :=
        match adel var a with
        | Some a' => try_values cw recurse var rest a'
        | None => (a, Raise KeyError)
        end in
      match consistent cw a1 with
      | Ret true =>
          match recurse a1 with
          | (a2, Ret result) =>
              if truthy result then (a2, Ret result) else undo a2
          | (a2, o) => (a2, o)
          end
      | Ret false => undo a1
      | Raise e => (a1, Raise e)
      | Timeout => (a1, Timeout)
      end
  end.

Fixpoint backtrack_fuel (fuel : nat) (cw : Crossword) (domains : Domains)
    (assignment : Assignment) : Assignment * outcome (option Assignment) :=
  match fuel with
  | O => (assignment, Timeout)
  | S fuel' =>
      if assignment_complete cw assignment then (assignment, Ret (Some assignment))
      else
        match select_unassigned_variable cw domains assignment with
        | Ret var =>
            match order_domain_values cw domains var assignment with
            | Ret values =>
                try_values cw (backtrack_fuel fuel' cw domains) var values assignment
            | Raise e => (assignment, Raise e)
            | Timeout => (assignment, Timeout)
            end
        | Raise e => (assignment, Raise e)
        | Timeout => (assignment, Timeout)
        end
  end.

(** The depth of the recursion is at most the number of variables. *)
Definition backtrack (cw : Crossword) (domains : Domains)
    (assignment : Assignment) : Assignment * outcome (option Assignment) :=
  backtrack_fuel (S (List.length (variables cw))) cw domains assignment.

(** ** The entry point *)

(** What a run of [solve] does, step by step: the domains that node
    consistency leaves, the verdict of [ac3] with the domains it leaves, and,
    when the search is entered, what [backtrack] leaves and returns. *)
Record SolveRun : Type := mkSolveRun {
  after_node_consistency : Domains;
  after_ac3 : Domains;
  ac3_verdict : outcome bool;
  search : option (Assignment * outcome (option Assignment))
}.

Definition solve_run (cw : Crossword) : SolveRun :=
  let d1 := enforce_node_consistency (init_domains cw) in
  let '(d2, verdict) := ac3 cw d1 None in
  mkSolveRun d1 d2 verdict
    match verdict with
    | Ret _ => Some (backtrack cw d2 [])
    | _ => None
    end.

Definition solve (cw : Crossword) : outcome (option Assignment) :=
  let d1 := enforce_node_consistency (init_domains cw) in
  match ac3 cw d1 None with
  | (d2, Ret _) => snd (backtrack cw d2 [])
  | (_, Raise e) => Raise e
  | (_, Timeout) => Timeout
  end.

(** ** The grid of letters *)

(** The two-dimensional list that [letter_grid] builds: a cell is [None] or a
    character. *)
Definition Grid : Type := list (list (option ascii)).

(** [[[None for _ in range(width)] for _ in range(height)]] *)
Definition empty_grid (height width : nat) : Grid :=
  repeat (repeat None width) height.

(** The cell of the [k]-th letter of a variable: [k] rows down for [DOWN],
    [k] columns right for [ACROSS]. *)
Definition cell_of (variable : Var) (k : nat) : nat * nat :=
  (var_i variable + match var_direction variable with DOWN => k | ACROSS => 0 end,
   var_j variable + match var_direction variable with ACROSS => k | DOWN => 0 end).

(** [l[n] = x] on a list that has the index [n]. *)
Fixpoint list_update {A : Type} (n : nat) (x : A) (l : list A) : list A :=
  match l, n with
  | [], _ => []
  | _ :: r, O => x :: r
  | a :: r, S n' => a :: list_update n' x r
  end.

(** [letters[i][j]], with [None] standing for the [IndexError]. *)
Definition grid_get (letters : Grid) (i j : nat) : option (option ascii) :=
  match nth_error letters i with
  | Some row => nth_error row j
  | None => None
  end.

(** [letters[i][j] = c] *)
Definition grid_set (i j : nat) (c : ascii) (letters : Grid) : outcome Grid :=
  match nth_error letters i with
  | None => Raise IndexError
  | Some row =>
      if j <? List.length row
      then Ret (list_update i (list_update j (Some c) row) letters)
      else Raise IndexError
  end.

(** The loop [for k in range(len(word))] of [letter_grid]. *)
Fixpoint place_letters (variable : Var) (w : word) (ks : list nat)
    (letters : Grid) : outcome Grid :=
  match ks with
  | [] => Ret letters
  | k :: r =>
      let (i, j) := cell_of variable k in
      let? c := of_option IndexError (String.get k w) in
      let? letters' := grid_set i j c letters in
      place_letters variable w r letters'
  end.

(** The loop of [letter_grid] over [assignment.items()]. *)
Fixpoint letter_grid_items (items : list (Var * word)) (letters : Grid)
  : outcome Grid :=
  match items with
  | [] => Ret letters
  | (variable, w) :: r =>
      let? letters' :=
        place_letters variable w (seq 0 (String.length w)) letters in
      letter_grid_items r letters'
  end.

(** [letter_grid(assignment)]; [height] and [width] are the attributes of the
    puzzle model that give the size of the grid. *)
Definition letter_grid (height width : nat) (assignment : Assignment)
  : outcome Grid :=
  letter_grid_items assignment (empty_grid height width).

(** The letters that an assignment writes, cell by cell, in the order of
    [letter_grid]. *)
Definition word_writes (variable : Var) (w : word) (ks : list nat)
  : list (nat * nat * ascii) :=
  flat_map (fun k => match String.get k w with
                     | Some c => [(cell_of variable k, c)]
                     | None => []
                     end) ks.

Definition writes_of (assignment : Assignment) : list (nat * nat * ascii) :=
  flat_map (fun e => word_writes (fst e) (snd e) (seq 0 (String.length (snd e))))
           assignment.

Fixpoint apply_writes (ws : list (nat * nat * ascii)) (letters : Grid)
  : outcome Grid :=
  match ws with
  | [] => Ret letters
  | (i, j, c) :: r =>
      let? letters' := grid_set i j c letters in
      apply_writes r letters'
  end.

(** A grid of [height] rows of [width] cells. *)
Definition shaped (height width : nat) (g : Grid) : Prop :=
  List.length g = height /\ forall row, In row g -> List.length row = width.

Definition in_grid (height width : nat) (cell : nat * nat) : Prop :=
  fst cell < height /\ snd cell < width.

(** ** Well-formed puzzles *)

Definition var_in (v : Var) (l : list Var) : bool :=
  if in_dec Var_eq_dec v l then true else false.

Definition Var_eqb (a b : Var) : bool :=
  if Var_eq_dec a b then true else false.

Fixpoint nodupb {A : Type} (eq_dec : forall a b : A, {a = b} + {a <> b})
    (l : list A) : bool :=
  match l with
  | [] => true
  | a :: r => (if in_dec eq_dec a r then false else true) && nodupb eq_dec r
  end.

(** The entry of [y, x] mirrors the entry [(i, j)] of [x, y], and both
    indices are inside their slots. *)
Definition entry_ok (cw : Crossword) (k : Arc) (o : option (nat * nat)) : bool :=
  match o with
  | None => true
  | Some (i, j) =>
      (i <? var_length (fst k)) && (j <? var_length (snd k)) &&
      match overlap_of cw (snd k) (fst k) with
      | Some (Some (j', i')) => (i =? i') && (j =? j')
      | _ => false
      end
  end.

(** The invariants of the puzzle model that the solver relies on:
    [variables] and [words] are sets; [overlaps] is keyed by pairs of distinct
    variables, is symmetric and stays inside the slots; [neighbors(x)] is the
    set of the variables that overlap [x]. *)
Definition well_formed (cw : Crossword) : bool :=
  nodupb Var_eq_dec (variables cw) &&
  nodupb string_dec (words cw) &&
  forallb (fun e : Arc * option (nat * nat) =>
             var_in (fst (fst e)) (variables cw) &&
             var_in (snd (fst e)) (variables cw) &&
             negb (Var_eqb (fst (fst e)) (snd (fst e))) &&
             entry_ok cw (fst e) (snd e))
          (overlaps cw) &&
  forallb (fun x =>
             forallb (fun y => var_in y (neighbors_of (variables cw) (overlaps cw) x))
                     (neighbors cw x) &&
             forallb (fun y => var_in y (neighbors cw x))
                     (neighbors_of (variables cw) (overlaps cw) x))
          (variables cw).

(** The same invariants, as propositions. *)
Record WellFormed (cw : Crossword) : Prop := mkWellFormed {
  wf_variables : NoDup (variables cw);
  wf_words : NoDup (words cw);
  wf_keys : forall x y o, overlap_of cw x y = Some o ->
      In x (variables cw) /\ In y (variables cw) /\ x <> y;
  wf_entries : forall x y i j, overlap_of cw x y = Some (Some (i, j)) ->
      i < var_length x /\ j < var_length y /\
      overlap_of cw y x = Some (Some (j, i));
  wf_neighbors : forall x y, In x (variables cw) ->
      (In y (neighbors cw x) <->
       In y (variables cw) /\ y <> x /\ exists p, overlap_of cw y x = Some (Some p))
}.

Arguments wf_variables {cw}.
Arguments wf_words {cw}.
Arguments wf_keys {cw}.
Arguments wf_entries {cw}.
Arguments wf_neighbors {cw}.

(** ** Vocabulary of the properties *)

(** [w[i] == v[j]] evaluates to true. *)
Definition agree (i j : nat) (w v : word) : Prop :=
  exists c, String.get i w = Some c /\ String.get j v = Some c.

(** Some word of [dy] agrees with [w]. *)
Definition supported (i j : nat) (w : word) (dy : list word) : Prop :=
  exists v, In v dy /\ agree i j w v.

(** The value of [any(word_x[i] == word_y[j] ...)] when no index is out of
    range. *)
Definition supportedb (i j : nat) (w : word) (dy : list word) : bool :=
  existsb (fun v =>
             match String.get i w, String.get j v with
             | Some a, Some b => Ascii.eqb a b
             | _, _ => false
             end) dy.

(** The arc [(x, y)] with overlap [(i, j)] is consistent in [domains]. *)
Definition arc_ok (domains : Domains) (x y : Var) (i j : nat) : Prop :=
  forall dx dy, dget x domains = Some dx -> dget y domains = Some dy ->
  forall w, In w dx -> supported i j w dy.

(** Every arc of the puzzle is consistent in [domains]. *)
Definition arc_consistent (cw : Crossword) (domains : Domains) : Prop :=
  forall x y i j, overlap_of cw x y = Some (Some (i, j)) -> arc_ok domains x y i j.

(** Every arc of the puzzle is in the worklist or consistent. *)
Definition pending_or_ok (cw : Crossword) (domains : Domains) (arcs : list Arc)
  : Prop :=
  forall x y i j, overlap_of cw x y = Some (Some (i, j)) ->
    In (x, y) arcs \/ arc_ok domains x y i j.

(** The store of a run of [solve] after node consistency: one domain per
    variable, each a set of words of the vocabulary that have the length of
    the slot. *)
Definition node_consistent (cw : Crossword) (domains : Domains) : Prop :=
  Dict.keys domains = variables cw /\
  forall v ws, dget v domains = Some ws ->
    NoDup ws /\
    forall w, In w ws -> String.length w = var_length v /\ In w (words cw).

(** The dictionaries that the search builds: every key is a variable, held
    once, with a word of its domain. *)
Definition drawn_from (cw : Crossword) (domains : Domains) (a : Assignment) : Prop :=
  NoDup (Dict.keys a) /\
  forall v w, In (v, w) a ->
    In v (variables cw) /\ exists ws, dget v domains = Some ws /\ In w ws.

(** The arcs that [ac3] works on during [solve]. *)
Definition puzzle_arcs (cw : Crossword) (arcs : list Arc) : Prop :=
  forall x y, In (x, y) arcs -> In x (variables cw) /\ In y (neighbors cw x).

(** Every domain of [d'] is a subset of the domain of the same variable in
    [d], and the two stores have the same variables. *)
Definition domains_le (d' d : Domains) : Prop :=
  Dict.keys d' = Dict.keys d /\
  forall v ws', dget v d' = Some ws' ->
    exists ws, dget v d = Some ws /\ incl ws' ws.

(** The number that [order_domain_values] sorts by: the unassigned neighbors
    of [var] whose domain contains [w]. *)
Definition lcv_count (cw : Crossword) (domains : Domains)
    (assignment : Assignment) (var : Var) (w : word) : nat :=
  List.length
    (filter (fun n =>
               negb (amem n assignment) &&
               match dget n domains with
               | Some d => word_in w d
               | None => false
               end)
            (neighbors cw var)).

(** The declarative reading of the consistency checker. *)
Definition lengths_match (assignment : Assignment) : Prop :=
  forall v w, In (v, w) assignment -> String.length w = var_length v.

Definition words_distinct (assignment : Assignment) : Prop :=
  NoDup (Dict.values assignment).

Definition overlaps_agree (cw : Crossword) (assignment : Assignment) : Prop :=
  forall x y i j wx wy,
    overlap_of cw x y = Some (Some (i, j)) ->
    aget x assignment = Some wx -> aget y assignment = Some wy ->
    agree i j wx wy.

Definition complete (cw : Crossword) (assignment : Assignment) : Prop :=
  forall v, In v (variables cw) -> exists w, aget v assignment = Some w.

(** A solution of the puzzle: a dictionary that gives every variable a word
    of the vocabulary and passes the three checks. *)
Definition solution (cw : Crossword) (s : Assignment) : Prop :=
  NoDup (Dict.keys s) /\
  complete cw s /\
  (forall v w, In (v, w) s -> In v (variables cw) /\ In w (words cw)) /\
  lengths_match s /\ words_distinct s /\ overlaps_agree cw s.

(** What a call that returns leaves behind: on [None] the dictionary it was
    given, on a dictionary that very dictionary, which has not lost entries. *)
Definition restores
    (f : Assignment -> Assignment * outcome (option Assignment)) : Prop :=
  forall a a' r, f a = (a', Ret r) ->
    match r with
    | None => a' = a
    | Some s => s = a' /\ List.length a <= List.length a'
    end.

(** What a call that returns an assignment returns, when it was given one
    that the checker accepts. *)
Definition sound (cw : Crossword)
    (f : Assignment -> Assignment * outcome (option Assignment)) : Prop :=
  forall a a' s, f a = (a', Ret (Some s)) -> consistent cw a = Ret true ->
    s = a' /\ assignment_complete cw s = true /\ consistent cw s = Ret true.

(** Every word of [s] is still in the domain of its variable. *)
Definition within (domains : Domains) (s : Assignment) : Prop :=
  forall v w, In (v, w) s -> exists ws, dget v domains = Some ws /\ In w ws.

(** Two presentations of one puzzle and vocabulary: the same sets of variables
    and words and the same overlap table, whatever the order in which the sets
    are iterated. *)
Definition same_puzzle (cw1 cw2 : Crossword) : Prop :=
  (forall v, In v (variables cw1) <-> In v (variables cw2)) /\
  (forall w, In w (words cw1) <-> In w (words cw2)) /\
  (forall x y, overlap_of cw1 x y = overlap_of cw2 x y).

(** [m] raises no exception outside [P]. *)
Definition raises_only {A : Type} (P : exn -> Prop) (m : outcome A) : Prop :=
  forall e, m = Raise e -> P e.

(** [a'] is [a] followed by new entries: each a variable of the puzzle that
    [a] does not hold, held once, with a word of its domain. *)
Definition extends (cw : Crossword) (domains : Domains) (a a' : Assignment) : Prop :=
  exists added,
    a' = a ++ added /\
    NoDup (Dict.keys added) /\
    forall v w, In (v, w) added ->
      In v (variables cw) /\ ~ In v (Dict.keys a) /\
      exists ws, dget v domains = Some ws /\ In w ws.

(** [var] comes before [u] in the order of [select_unassigned_variable]:
    a smaller domain, or a domain of the same size and more neighbors
    ([strictly]) or at least as many. *)
Definition preferred (strictly : bool) (cw : Crossword) (domains : Domains)
    (var u : Var) : Prop :=
  exists ws wu,
    dget var domains = Some ws /\ dget u domains = Some wu /\
    (List.length ws < List.length wu \/
     (List.length ws = List.length wu /\
      if strictly
      then List.length (neighbors cw u) < List.length (neighbors cw var)
      else List.length (neighbors cw u) <= List.length (neighbors cw var))).

(** ** Puzzles used in the examples *)

Module Examples.
Open Scope string_scope.

(** Two crossing slots: [A] across in row 0, [B] down in column 1; the
    second letter of [A] is the first letter of [B]. *)
Definition A : Var := mkVar 0 0 ACROSS 3.
Definition B : Var := mkVar 0 1 DOWN 3.

Definition crossing : Dict.t Arc (option (nat * nat)) :=
  [((A, B), Some (1, 0)); ((B, A), Some (0, 1))].

Definition cw_cat : Crossword :=
  make_crossword [A; B] ["CAT"; "CAR"; "ARC"; "TEN"] crossing.

(** The same puzzle and vocabulary, the vocabulary iterated in another
    order. *)
Definition cw_cat' : Crossword :=
  make_crossword [A; B] ["ARC"; "CAR"; "CAT"; "TEN"] crossing.

Definition cw_dog : Crossword :=
  make_crossword [A; B] ["CAT"; "DOG"] crossing.

(** The store of [cw_cat] once [B] has lost the words that do not start
    with C. *)
Definition domains_cat_B : Domains :=
  dset B ["CAT"; "CAR"] (init_domains cw_cat).

(** A vocabulary with words of several lengths. *)
Definition cw_mixed : Crossword :=
  make_crossword [A; B] ["CAT"; "AT"; "HOUSE"; "DOG"] crossing.
End Examples.

(** * Properties *)

(** ** Tactics *)

(** A loop that stops where it stands: the store is unchanged and the
    outcome is the one just built. *)
Ltac stops_here :=
  let H := fresh in
  intros H; injection H as <- <-;
  split; [discriminate |
  split; [reflexivity |
  split; [lia | intros; try discriminate; try congruence]]].

(** [NoDup] of a list of distinct literals. *)
Ltac nodup_list :=
  repeat (apply NoDup_cons;
          [simpl; intros C; repeat destruct C as [C|C];
           try discriminate C; exact C|]);
  apply NoDup_nil.

(** A property of every element of a list of literals. *)
Ltac all_in_list :=
  let a := fresh in let H := fresh in
  intros a H; simpl in H; repeat destruct H as [H|H];
  subst; simpl; try lia; try contradiction.

(** ** The two scenarios of the specification *)

Example ac3_cat :
  ac3 Examples.cw_cat (enforce_node_consistency (init_domains Examples.cw_cat)) None
  = ([(Examples.A, ["CAT"; "CAR"]%string); (Examples.B, ["ARC"]%string)], Ret true).
Proof. vm_compute. reflexivity. Qed.

Example solve_cat :
  solve Examples.cw_cat
  = Ret (Some [(Examples.B, "ARC"%string); (Examples.A, "CAT"%string)]).
Proof. vm_compute. reflexivity. Qed.

Example solve_dog : solve Examples.cw_dog = Ret None.
Proof. vm_compute. reflexivity. Qed.

(** A puzzle without slots is solved by the empty dictionary, which [solve]
    returns although it is false as a condition. *)
Example solve_no_slot :
  solve (make_crossword [] ["A"%string] []) = Ret (Some []).
Proof. vm_compute. reflexivity. Qed.

(** ** Dictionaries *)

Section DictFacts.
Context {K V : Type}.
Variable eq_dec : forall a b : K, {a = b} + {a <> b}.

Lemma get_In (k : K) (v : V) (d : Dict.t K V) :
  Dict.get eq_dec k d = Some v -> In (k, v) d.
Proof.
  induction d as [|[k' v'] r IH]; simpl; [discriminate|].
  destruct (eq_dec k k') as [->|]; intros H.
  - injection H as ->. now left.
  - right. auto.
Qed.

Lemma get_In_keys (k : K) (v : V) (d : Dict.t K V) :
  Dict.get eq_dec k d = Some v -> In k (Dict.keys d).
Proof.
  intros H. apply get_In in H. unfold Dict.keys.
  change k with (fst (k, v)). now apply in_map.
Qed.

Lemma get_None_keys (k : K) (d : Dict.t K V) :
  Dict.get eq_dec k d = None <-> ~ In k (Dict.keys d).
Proof.
  induction d as [|[k' v'] r IH]; simpl.
  - tauto.
  - destruct (eq_dec k k') as [->|Hne].
    + split; [discriminate | intros H; exfalso; apply H; now left].
    + rewrite IH. split; intros H; [intros [E|E]; [congruence | tauto] | tauto].
Qed.

Lemma In_get_NoDup (k : K) (v : V) (d : Dict.t K V) :
  NoDup (Dict.keys d) -> In (k, v) d -> Dict.get eq_dec k d = Some v.
Proof.
  induction d as [|[k' v'] r IH]; simpl; [tauto|].
  intros Hnd [E|Hin].
  - injection E as -> ->. destruct (eq_dec k k); congruence.
  - inversion Hnd as [|? ? Hni Hnd']; subst.
    destruct (eq_dec k k') as [->|].
    + exfalso. apply Hni. change k' with (fst (k', v)). now apply in_map.
    + auto.
Qed.

Lemma get_set_same (k : K) (v : V) (d : Dict.t K V) :
  Dict.get eq_dec k (Dict.set eq_dec k v d) = Some v.
Proof.
  induction d as [|[k' v'] r IH]; simpl.
  - destruct (eq_dec k k); congruence.
  - destruct (eq_dec k k') as [->|Hne]; simpl.
    + destruct (eq_dec k' k'); congruence.
    + destruct (eq_dec k k'); congruence.
Qed.

Lemma get_set_other (k k0 : K) (v : V) (d : Dict.t K V) :
  k0 <> k -> Dict.get eq_dec k0 (Dict.set eq_dec k v d) = Dict.get eq_dec k0 d.
Proof.
  intros Hne. induction d as [|[k' v'] r IH]; simpl.
  - destruct (eq_dec k0 k); congruence.
  - destruct (eq_dec k k') as [->|Hne']; simpl.
    + destruct (eq_dec k0 k'); congruence.
    + destruct (eq_dec k0 k'); congruence.
Qed.

Lemma keys_set_present (k : K) (v : V) (d : Dict.t K V) :
  In k (Dict.keys d) -> Dict.keys (Dict.set eq_dec k v d) = Dict.keys d.
Proof.
  induction d as [|[k' v'] r IH]; simpl; [tauto|].
  intros H. destruct (eq_dec k k') as [->|Hne]; simpl; [reflexivity|].
  f_equal. apply IH. destruct H; congruence.
Qed.

Lemma set_fresh (k : K) (v : V) (d : Dict.t K V) :
  ~ In k (Dict.keys d) -> Dict.set eq_dec k v d = d ++ [(k, v)].
Proof.
  induction d as [|[k' v'] r IH]; simpl; [reflexivity|].
  intros H. destruct (eq_dec k k') as [->|Hne]; [tauto|].
  f_equal. apply IH. tauto.
Qed.

Lemma del_last_fresh (k : K) (v : V) (d : Dict.t K V) :
  ~ In k (Dict.keys d) -> Dict.del eq_dec k (d ++ [(k, v)]) = Some d.
Proof.
  induction d as [|[k' v'] r IH]; simpl.
  - intros _. destruct (eq_dec k k); [reflexivity | tauto].
  - intros H. destruct (eq_dec k k') as [->|Hne]; [tauto|].
    rewrite IH; tauto.
Qed.

Lemma mem_true_iff (k : K) (d : Dict.t K V) :
  Dict.mem eq_dec k d = true <-> In k (Dict.keys d).
Proof.
  unfold Dict.mem. destruct (Dict.get eq_dec k d) eqn:E.
  - split; [intros _; eapply get_In_keys; eauto | reflexivity].
  - apply get_None_keys in E. split; [discriminate | tauto].
Qed.

Lemma mem_false_iff (k : K) (d : Dict.t K V) :
  Dict.mem eq_dec k d = false <-> ~ In k (Dict.keys d).
Proof.
  rewrite <- mem_true_iff. destruct (Dict.mem eq_dec k d); split; congruence.
Qed.
End DictFacts.

(** ** Domains only shrink *)

Lemma domains_le_refl (d : Domains) : domains_le d d.
Proof.
  split; [reflexivity|]. intros v ws H. exists ws. split; [assumption | apply incl_refl].
Qed.

Lemma domains_le_trans (d1 d2 d3 : Domains) :
  domains_le d1 d2 -> domains_le d2 d3 -> domains_le d1 d3.
Proof.
  intros [K1 H1] [K2 H2]. split; [congruence|].
  intros v ws1 G1. destruct (H1 _ _ G1) as (ws2 & G2 & I12).
  destruct (H2 _ _ G2) as (ws3 & G3 & I23).
  exists ws3. split; [assumption | eapply incl_tran; eassumption].
Qed.

Lemma domains_le_dset (x : Var) (dx dx' : list word) (d : Domains) :
  dget x d = Some dx -> incl dx' dx -> domains_le (dset x dx' d) d.
Proof.
  intros G I. split.
  - apply keys_set_present. eapply get_In_keys; eassumption.
  - intros v ws' H. unfold dget, dset in *. destruct (Var_eq_dec v x) as [->|Hne].
    + rewrite get_set_same in H. injection H as <-. eauto.
    + rewrite get_set_other in H by assumption. exists ws'. split; [assumption | apply incl_refl].
Qed.

Lemma incl_filter_self {A : Type} (f : A -> bool) (l : list A) : incl (filter f l) l.
Proof. intros a H. apply filter_In in H. tauto. Qed.

Lemma incl_remove_self (w : word) (l : list word) : incl (remove string_dec w l) l.
Proof. intros a H. apply in_remove in H. tauto. Qed.

Lemma node_consistency_step_le (d : Domains) (variable : Var) :
  domains_le
    match dget variable d with
    | Some ws =>
        dset variable (filter (fun w => String.length w =? var_length variable) ws) d
    | None => d
    end d.
Proof.
  destruct (dget variable d) as [ws|] eqn:G.
  - eapply domains_le_dset; [eassumption | apply incl_filter_self].
  - apply domains_le_refl.
Qed.

Lemma enforce_node_consistency_le (d : Domains) :
  domains_le (enforce_node_consistency d) d.
Proof.
  unfold enforce_node_consistency. generalize (Dict.keys d) as l.
  intros l. revert d. induction l as [|k l IH]; intros d; simpl.
  - apply domains_le_refl.
  - eapply domains_le_trans; [apply IH | apply node_consistency_step_le].
Qed.

Lemma set_remove_Some (w : word) (s s' : list word) :
  set_remove w s = Some s' -> In w s /\ s' = remove string_dec w s.
Proof.
  unfold set_remove. destruct (in_dec string_dec w s); [|discriminate].
  intros H. injection H as <-. tauto.
Qed.

Lemma revise_loop_le (i j : nat) (x y : Var) (copy : list word) :
  forall (d : Domains) (revised : bool),
    domains_le (fst (revise_loop i j x y copy d revised)) d.
Proof.
  induction copy as [|w rest IH]; intros d revised; simpl.
  - apply domains_le_refl.
  - destruct (dget y d) as [dy|]; [|apply domains_le_refl].
    destruct (has_overlap i j w dy) as [[|]| |]; try apply domains_le_refl.
    + apply IH.
    + destruct (dget x d) as [dx|] eqn:Gx; [|apply domains_le_refl].
      destruct (set_remove w dx) as [dx'|] eqn:R; [|apply domains_le_refl].
      apply set_remove_Some in R. destruct R as [_ ->].
      eapply domains_le_trans; [apply IH|].
      eapply domains_le_dset; [eassumption | apply incl_remove_self].
Qed.

Lemma revise_le (cw : Crossword) (d : Domains) (x y : Var) :
  domains_le (fst (revise cw d x y)) d.
Proof.
  unfold revise. destruct (overlap_of cw x y) as [[[i j]|]|]; try apply domains_le_refl.
  destruct (dget x d); [apply revise_loop_le | apply domains_le_refl].
Qed.

Lemma ac3_loop_le (cw : Crossword) (fuel : nat) :
  forall (d : Domains) (arcs : list Arc),
    domains_le (fst (ac3_loop fuel cw d arcs)) d.
Proof.
  induction fuel as [|fuel IH]; intros d arcs; simpl.
  - apply domains_le_refl.
  - destruct arcs as [|[x y] rest]; [apply domains_le_refl|].
    pose proof (revise_le cw d x y) as R.
    destruct (revise cw d x y) as [d1 o]. simpl in R.
    destruct o as [[|]| |]; simpl; try assumption.
    + destruct (dget x d1) as [dx|]; [|assumption].
      destruct (List.length dx =? 0); [assumption|].
      eapply domains_le_trans; [apply IH | assumption].
    + eapply domains_le_trans; [apply IH | assumption].
Qed.

(** C5. Node consistency and [ac3], with any seed of arcs and whatever way the
    call ends, leave every variable with a subset of the domain it had: for
    each variable the store has afterwards, the store had it before, with a
    domain that contains the new one. *)
Theorem domains_only_shrink (cw : Crossword) (domains : Domains) :
  domains_le (enforce_node_consistency domains) domains /\
  forall arcs : option (list Arc),
    domains_le (fst (ac3 cw domains arcs)) domains.
Proof.
  split.
  - apply enforce_node_consistency_le.
  - intros arcs. unfold ac3. apply ac3_loop_le.
Qed.

(** ** [ac3] terminates *)

Lemma has_overlap_no_timeout (i j : nat) (w : word) (ys : list word) :
  has_overlap i j w ys <> Timeout.
Proof.
  induction ys as [|v r IH]; simpl; [discriminate|].
  unfold chars_agree.
  destruct (String.get i w); simpl; [|discriminate].
  destruct (String.get j v); simpl; [|discriminate].
  destruct (Ascii.eqb a a0); [discriminate | assumption].
Qed.

Lemma total_size_dset (x : Var) (dx dx' : list word) (d : Domains) :
  dget x d = Some dx ->
  total_size (dset x dx' d) + List.length dx = total_size d + List.length dx'.
Proof.
  unfold total_size, dget, dset.
  induction d as [|[k v] r IH]; simpl; [discriminate|].
  destruct (Var_eq_dec x k) as [->|Hne]; simpl.
  - intros H. injection H as ->. lia.
  - intros H. specialize (IH H). lia.
Qed.

Lemma max_degree_keys (cw : Crossword) (d d' : Domains) :
  Dict.keys d' = Dict.keys d -> max_degree cw d' = max_degree cw d.
Proof.
  unfold max_degree, Dict.keys. intros H.
  rewrite <- (map_map fst (fun k => List.length (neighbors cw k)) d').
  rewrite <- (map_map fst (fun k => List.length (neighbors cw k)) d).
  now rewrite H.
Qed.

Lemma degree_le_max (cw : Crossword) (d : Domains) (x : Var) :
  In x (Dict.keys d) -> List.length (neighbors cw x) <= max_degree cw d.
Proof.
  unfold max_degree, Dict.keys. intros H.
  apply in_map_iff in H. destruct H as (e & <- & He).
  pose proof (proj1 (list_max_le (map (fun e => List.length (neighbors cw (fst e))) d) _)
                (Nat.le_refl _)) as F.
  rewrite Forall_forall in F. apply F.
  apply in_map_iff. now exists e.
Qed.

Lemma revise_loop_measure (i j : nat) (x y : Var) (copy : list word) :
  forall (d d' : Domains) (revised : bool) (o : outcome bool),
    revise_loop i j x y copy d revised = (d', o) ->
    o <> Timeout /\
    Dict.keys d' = Dict.keys d /\
    total_size d' <= total_size d /\
    (o = Ret true -> revised = false ->
     total_size d' < total_size d /\ In x (Dict.keys d)).
Proof.
  induction copy as [|w rest IH]; intros d d' revised o; simpl.
  - stops_here.
  - destruct (dget y d) as [dy|]; [|stops_here].
    pose proof (has_overlap_no_timeout i j w dy) as NT.
    destruct (has_overlap i j w dy) as [[|]|e|]; [| |stops_here|congruence].
    + apply IH.
    + destruct (dget x d) as [dx|] eqn:Gx; [|stops_here].
      destruct (set_remove w dx) as [dx'|] eqn:R; [|stops_here].
      apply set_remove_Some in R. destruct R as [Hin ->].
      intros H. apply IH in H. destruct H as (H1 & H2 & H3 & _).
      pose proof (total_size_dset x dx (remove string_dec w dx) d Gx) as TS.
      pose proof (remove_length_lt string_dec dx w Hin) as RL.
      assert (K : Dict.keys (dset x (remove string_dec w dx) d) = Dict.keys d).
      { apply keys_set_present. eapply get_In_keys; eassumption. }
      split; [assumption|]. split; [congruence|]. split; [lia|].
      intros _ _. split; [lia | eapply get_In_keys; eassumption].
Qed.

Lemma revise_measure (cw : Crossword) (d d' : Domains) (x y : Var) (o : outcome bool) :
  revise cw d x y = (d', o) ->
  o <> Timeout /\
  Dict.keys d' = Dict.keys d /\
  total_size d' <= total_size d /\
  (o = Ret true -> total_size d' < total_size d /\ In x (Dict.keys d)).
Proof.
  unfold revise.
  destruct (overlap_of cw x y) as [[[i j]|]|]; [| stops_here | stops_here].
  destruct (dget x d) as [dx|]; [|stops_here].
  intros H. apply revise_loop_measure in H.
  destruct H as (H1 & H2 & H3 & H4).
  split; [assumption|]. split; [assumption|]. split; [assumption|].
  intros E. now apply H4.
Qed.

Lemma push_arcs_length (x : Var) (l : list Var) :
  forall arcs : list Arc,
    List.length (fold_left (fun q z => (z, x) :: q) l arcs)
    = List.length l + List.length arcs.
Proof.
  induction l as [|z l IH]; intros arcs; simpl; [reflexivity|].
  rewrite IH. simpl. lia.
Qed.

Lemma enqueue_neighbors_length (cw : Crossword) (x y : Var) (arcs : list Arc) :
  List.length (enqueue_neighbors cw x y arcs)
  <= List.length arcs + List.length (neighbors cw x).
Proof.
  unfold enqueue_neighbors. rewrite push_arcs_length.
  pose proof (remove_length_le Var_eq_dec (neighbors cw x) y). lia.
Qed.

Lemma ac3_loop_terminates (cw : Crossword) (fuel : nat) :
  forall (d : Domains) (arcs : list Arc),
    List.length arcs + total_size d * max_degree cw d < fuel ->
    snd (ac3_loop fuel cw d arcs) <> Timeout.
Proof.
  induction fuel as [|fuel IH]; intros d arcs Hf; [lia|]. simpl.
  destruct arcs as [|[x y] rest]; [discriminate|]. simpl in Hf.
  destruct (revise cw d x y) as [d1 o] eqn:R.
  apply revise_measure in R. destruct R as (NT & K & LE & LT).
  pose proof (max_degree_keys cw d d1 K) as MD.
  destruct o as [[|]|e|]; simpl; try discriminate; try congruence.
  - destruct (LT eq_refl) as [LT' Hx].
    destruct (dget x d1) as [dx|]; [|discriminate].
    destruct (List.length dx =? 0); [discriminate|].
    apply IH. rewrite MD.
    pose proof (enqueue_neighbors_length cw x y rest) as EL.
    pose proof (degree_le_max cw d x Hx) as DL.
    nia.
  - apply IH. rewrite MD. nia.
Qed.

Lemma ac3_loop_fuel_mono (cw : Crossword) (fuel : nat) :
  forall (d : Domains) (arcs : list Arc),
    snd (ac3_loop fuel cw d arcs) <> Timeout ->
    forall fuel', fuel <= fuel' ->
      ac3_loop fuel' cw d arcs = ac3_loop fuel cw d arcs.
Proof.
  induction fuel as [|fuel IH]; intros d arcs NT fuel' Hle; simpl in *; [congruence|].
  destruct fuel' as [|fuel']; [lia|]. simpl.
  destruct arcs as [|[x y] rest]; [reflexivity|].
  destruct (revise cw d x y) as [d1 o].
  destruct o as [[|]|e|]; try reflexivity.
  - destruct (dget x d1) as [dx|]; [|reflexivity].
    destruct (List.length dx =? 0); [reflexivity|].
    apply IH; [assumption | lia].
  - apply IH; [assumption | lia].
Qed.

(** C6. [ac3] terminates: for every puzzle, every store of domains and every
    seed of arcs the worklist loop ends, returning or raising, within
    1 + (number of arcs) + (total size of the domains) * (largest number of
    neighbors) iterations, and a larger budget of iterations gives the same
    result. *)
Theorem ac3_terminates (cw : Crossword) (domains : Domains)
    (arcs : option (list Arc)) :
  snd (ac3 cw domains arcs) <> Timeout /\
  forall fuel,
    ac3_fuel cw domains (initial_arcs cw arcs) <= fuel ->
    ac3_loop fuel cw domains (rev (initial_arcs cw arcs)) = ac3 cw domains arcs.
Proof.
  assert (T : snd (ac3 cw domains arcs) <> Timeout).
  { unfold ac3. apply ac3_loop_terminates.
    unfold ac3_fuel. rewrite length_rev. lia. }
  split; [exact T|].
  intros fuel Hle. unfold ac3 in *. now apply ac3_loop_fuel_mono.
Qed.

Lemma ac3_terminates_witness :
  let d := enforce_node_consistency (init_domains Examples.cw_cat) in
  snd (ac3 Examples.cw_cat d None) <> Timeout /\
  ac3_loop 100 Examples.cw_cat d (rev (initial_arcs Examples.cw_cat None))
  = ac3 Examples.cw_cat d None.
Proof.
  intros d. destruct (ac3_terminates Examples.cw_cat d None) as [T M].
  split; [exact T|]. apply M. vm_compute. lia.
Defined.

(** C9. An empty seed is treated like a missing one: [ac3] then starts from
    all arcs of the puzzle, and this can change the domains. *)
Theorem ac3_empty_seed_is_default :
  (forall (cw : Crossword) (domains : Domains),
      ac3 cw domains (Some []) = ac3 cw domains None /\
      ac3 cw domains (Some []) =
        ac3_loop (ac3_fuel cw domains (all_arcs cw)) cw domains (rev (all_arcs cw))) /\
  (let d := enforce_node_consistency (init_domains Examples.cw_cat) in
   all_arcs Examples.cw_cat <> [] /\
   fst (ac3 Examples.cw_cat d (Some [])) <> d).
Proof.
  split.
  - intros cw domains. split; reflexivity.
  - split; vm_compute; discriminate.
Qed.

(** ** What [revise] removes *)

Lemma supportedb_iff (i j : nat) (w : word) (dy : list word) :
  supportedb i j w dy = true <-> supported i j w dy.
Proof.
  unfold supportedb, supported, agree. rewrite existsb_exists.
  split.
  - intros (v & Hin & H). exists v. split; [assumption|].
    destruct (String.get i w) as [a|]; [|discriminate].
    destruct (String.get j v) as [b|]; [|discriminate].
    apply Ascii.eqb_eq in H. subst b. now exists a.
  - intros (v & Hin & c & H1 & H2). exists v. split; [assumption|].
    rewrite H1, H2. apply Ascii.eqb_refl.
Qed.

Lemma has_overlap_Ret (i j : nat) (w : word) (dy : list word) (b : bool) :
  has_overlap i j w dy = Ret b -> supportedb i j w dy = b.
Proof.
  induction dy as [|v r IH]; simpl.
  - intros H. now injection H.
  - unfold chars_agree.
    destruct (String.get i w) as [a|]; simpl; [|discriminate].
    destruct (String.get j v) as [c|]; simpl; [|discriminate].
    destruct (Ascii.eqb a c); simpl.
    + intros H. now injection H.
    + exact IH.
Qed.

Lemma get_in_range (i : nat) (s : string) :
  i < String.length s -> exists c, String.get i s = Some c.
Proof.
  revert i. induction s as [|a s IH]; intros i; simpl; [lia|].
  destruct i as [|i]; [eauto|]. intros H. apply IH. lia.
Qed.

Lemma has_overlap_in_range (i j : nat) (w : word) (dy : list word) :
  i < String.length w ->
  (forall v, In v dy -> j < String.length v) ->
  has_overlap i j w dy = Ret (supportedb i j w dy).
Proof.
  intros Hi Hj. destruct (get_in_range i w Hi) as [a Ha].
  induction dy as [|v r IH]; simpl; [reflexivity|].
  destruct (get_in_range j v (Hj v (or_introl eq_refl))) as [c Hc].
  unfold chars_agree. rewrite Ha, Hc. simpl.
  destruct (Ascii.eqb a c); simpl; [reflexivity|].
  apply IH. intros v' Hv'. apply Hj. now right.
Qed.

Lemma remove_as_filter (w : word) (l : list word) :
  remove string_dec w l = filter (fun w' => negb (String.eqb w' w)) l.
Proof.
  induction l as [|a l IH]; simpl; [reflexivity|].
  destruct (string_dec w a) as [->|Hne].
  - rewrite String.eqb_refl. simpl. exact IH.
  - destruct (String.eqb_spec a w) as [->|_]; [congruence|]. simpl. now rewrite IH.
Qed.

Lemma filter_filter {A : Type} (f g : A -> bool) (l : list A) :
  filter f (filter g l) = filter (fun a => g a && f a) l.
Proof.
  induction l as [|a l IH]; simpl; [reflexivity|].
  destruct (g a); simpl; [destruct (f a)|]; now rewrite IH.
Qed.

Lemma word_in_iff (w : word) (s : list word) : word_in w s = true <-> In w s.
Proof.
  unfold word_in. destruct (in_dec string_dec w s); split; auto; discriminate.
Qed.

Lemma word_in_false_iff (w : word) (s : list word) : word_in w s = false <-> ~ In w s.
Proof.
  unfold word_in. destruct (in_dec string_dec w s); split; auto; try discriminate; tauto.
Qed.

(** The loop of [revise] when it does not raise: the words of the copy that
    have no support leave [x]'s domain, nothing else changes. *)
Lemma revise_loop_spec (i j : nat) (x y : Var) (dy : list word) :
  x <> y ->
  forall (copy : list word) (d d' : Domains) (revised b : bool) (dx : list word),
    dget x d = Some dx -> dget y d = Some dy ->
    revise_loop i j x y copy d revised = (d', Ret b) ->
    dget x d' =
      Some (filter (fun w => negb (word_in w copy) || supportedb i j w dy) dx) /\
    (forall v, v <> x -> dget v d' = dget v d) /\
    b = revised || existsb (fun w => negb (supportedb i j w dy)) copy.
Proof.
  intros Hxy. induction copy as [|w rest IH]; intros d d' revised b dx Gx Gy; simpl.
  - intros H. injection H as <- <-. split; [|split].
    + rewrite Gx. f_equal. symmetry. rewrite <- (filter_true dx) at 2.
      apply filter_ext. reflexivity.
    + reflexivity.
    + now rewrite orb_false_r.
  - rewrite Gy. destruct (has_overlap i j w dy) as [[|]|e|] eqn:HO; try discriminate.
    + apply has_overlap_Ret in HO. intros H.
      destruct (IH _ _ _ _ _ Gx Gy H) as (H1 & H2 & H3).
      split; [|split]; [|assumption|].
      * rewrite H1. f_equal. apply filter_ext. intros a.
        unfold word_in at 2. destruct (in_dec string_dec a (w :: rest)) as [Hin|Hni].
        -- destruct Hin as [->|Hin]; [rewrite HO; now rewrite orb_true_r|].
           apply word_in_iff in Hin. now rewrite Hin.
        -- assert (Hr : word_in a rest = false).
           { apply word_in_false_iff. intros C. apply Hni. now right. }
           now rewrite Hr.
      * rewrite HO. simpl. exact H3.
    + apply has_overlap_Ret in HO. rewrite Gx.
      destruct (set_remove w dx) as [dx'|] eqn:R; [|discriminate].
      apply set_remove_Some in R. destruct R as [Hin ->].
      intros H.
      assert (Gx' : dget x (dset x (remove string_dec w dx) d)
                    = Some (remove string_dec w dx)) by apply get_set_same.
      assert (Gy' : dget y (dset x (remove string_dec w dx) d) = Some dy).
      { unfold dget, dset. rewrite get_set_other by congruence. exact Gy. }
      destruct (IH _ _ _ _ _ Gx' Gy' H) as (H1 & H2 & H3).
      split; [|split].
      * rewrite H1. f_equal. rewrite remove_as_filter, filter_filter.
        apply filter_ext. intros a.
        unfold word_in at 2. destruct (in_dec string_dec a (w :: rest)) as [Hi|Hni].
        -- destruct Hi as [->|Hi].
           ++ rewrite String.eqb_refl, HO. reflexivity.
           ++ apply word_in_iff in Hi. rewrite Hi. simpl.
              destruct (String.eqb_spec a w) as [->|_]; simpl; [|reflexivity].
              now rewrite HO.
        -- assert (Hr : word_in a rest = false).
           { apply word_in_false_iff. intros C. apply Hni. now right. }
           rewrite Hr. simpl.
           destruct (String.eqb_spec a w) as [->|_]; simpl; [|reflexivity].
           exfalso. apply Hni. now left.
      * intros v Hv. rewrite H2 by assumption.
        unfold dget, dset. now rewrite get_set_other.
      * rewrite HO. simpl. rewrite H3. now rewrite orb_true_r.
Qed.

(** The loop of [revise] does not raise on a set of words that are long
    enough. *)
Lemma revise_loop_returns (i j : nat) (x y : Var) (dy : list word) :
  x <> y ->
  (forall v, In v dy -> j < String.length v) ->
  forall (copy : list word) (d : Domains) (revised : bool) (dx : list word),
    dget x d = Some dx -> dget y d = Some dy ->
    NoDup copy -> incl copy dx ->
    (forall w, In w copy -> i < String.length w) ->
    exists d' b, revise_loop i j x y copy d revised = (d', Ret b).
Proof.
  intros Hxy Hj. induction copy as [|w rest IH]; intros d revised dx Gx Gy ND I Hi; simpl.
  - eauto.
  - rewrite Gy.
    rewrite (has_overlap_in_range i j w dy (Hi w (or_introl eq_refl)) Hj).
    inversion ND as [|? ? Hni ND']; subst.
    assert (I' : incl rest dx) by (intros a Ha; apply I; now right).
    assert (Hi' : forall w0, In w0 rest -> i < String.length w0)
      by (intros a Ha; apply Hi; now right).
    destruct (supportedb i j w dy).
    + eapply IH; eassumption.
    + rewrite Gx. unfold set_remove.
      destruct (in_dec string_dec w dx) as [_|C]; [|exfalso; apply C, I; now left].
      eapply (IH _ _ (remove string_dec w dx)).
      * apply get_set_same.
      * unfold dget, dset. rewrite get_set_other by congruence. exact Gy.
      * assumption.
      * intros a Ha. apply in_in_remove; [|now apply I'].
        intros ->. contradiction.
      * assumption.
Qed.

(** C4. [revise(x, y)] on two slots with an entry in the overlap table, whose
    domains are sets of words long enough for the indices of the entry.  With
    the entry [(i, j)] it returns, leaves in [x]'s domain exactly the words
    that agree with some word of [y]'s domain, returns true exactly when a
    word went away, and changes no other domain, [y]'s included.  With the
    entry [None] it returns false and changes nothing. *)
Theorem revise_removes_unsupported (cw : Crossword) (domains : Domains)
    (x y : Var) (o : option (nat * nat)) (dx dy : list word) :
  overlap_of cw x y = Some o ->
  x <> y ->
  dget x domains = Some dx ->
  dget y domains = Some dy ->
  NoDup dx ->
  (forall i j, o = Some (i, j) ->
     (forall w, In w dx -> i < String.length w) /\
     (forall v, In v dy -> j < String.length v)) ->
  match o with
  | None => revise cw domains x y = (domains, Ret false)
  | Some (i, j) =>
      exists (domains' : Domains) (b : bool) (dx' : list word),
        revise cw domains x y = (domains', Ret b) /\
        dget x domains' = Some dx' /\
        (forall w, In w dx' <-> In w dx /\ supported i j w dy) /\
        (b = true <-> exists w, In w dx /\ ~ In w dx') /\
        dget y domains' = Some dy /\
        (forall v, v <> x -> dget v domains' = dget v domains)
  end.
Proof.
  intros Ho Hxy Gx Gy ND Hlen. unfold revise. rewrite Ho.
  destruct o as [[i j]|]; [|reflexivity].
  destruct (Hlen i j eq_refl) as [Hi Hj]. rewrite Gx.
  destruct (revise_loop_returns i j x y dy Hxy Hj dx domains false dx
              Gx Gy ND (incl_refl dx) Hi) as (d' & b & R).
  destruct (revise_loop_spec i j x y dy Hxy dx domains d' false b dx Gx Gy R)
    as (H1 & H2 & H3).
  exists d', b, (filter (fun w => negb (word_in w dx) || supportedb i j w dy) dx).
  assert (F : forall w, In w (filter (fun w => negb (word_in w dx) || supportedb i j w dy) dx)
                        <-> In w dx /\ supported i j w dy).
  { intros w. rewrite filter_In, <- supportedb_iff. split.
    - intros [Hin H]. split; [assumption|].
      apply word_in_iff in Hin. rewrite Hin in H. exact H.
    - intros [Hin H]. split; [assumption|]. rewrite H. apply orb_true_r. }
  split; [exact R|]. split; [exact H1|]. split; [exact F|].
  split; [|split].
  - rewrite H3. simpl. rewrite existsb_exists. split.
    + intros (w & Hin & H). exists w. split; [assumption|].
      rewrite F, <- supportedb_iff. intros [_ C]. rewrite C in H. discriminate.
    + intros (w & Hin & H). exists w. split; [assumption|].
      destruct (supportedb i j w dy) eqn:E; [|reflexivity].
      exfalso. apply H. apply F. split; [assumption|]. now apply supportedb_iff.
  - rewrite H2 by congruence. exact Gy.
  - exact H2.
Qed.

Lemma revise_removes_unsupported_witness :
  let d := enforce_node_consistency (init_domains Examples.cw_cat) in
  exists (domains' : Domains) (b : bool) (dx' : list word),
    revise Examples.cw_cat d Examples.A Examples.B = (domains', Ret b) /\
    dget Examples.A domains' = Some dx' /\
    (forall w, In w dx' <->
               In w (words Examples.cw_cat) /\ supported 1 0 w (words Examples.cw_cat)) /\
    (b = true <-> exists w, In w (words Examples.cw_cat) /\ ~ In w dx') /\
    dget Examples.B domains' = Some (words Examples.cw_cat) /\
    (forall v, v <> Examples.A -> dget v domains' = dget v d).
Proof.
  intros d.
  apply (revise_removes_unsupported Examples.cw_cat d Examples.A Examples.B
           (Some (1, 0)) (words Examples.cw_cat) (words Examples.cw_cat)).
  - reflexivity.
  - discriminate.
  - reflexivity.
  - reflexivity.
  - simpl. nodup_list.
  - intros i j E. injection E as <- <-. split; all_in_list.
Defined.

(** ** The order of the candidate words *)

Section StableSort.
Context {A : Type}.
Variable key : A -> nat.

Lemma insert_by_perm (x : A) (l : list A) : Permutation (insert_by key x l) (x :: l).
Proof.
  induction l as [|y r IH]; simpl; [reflexivity|].
  destruct (key x <=? key y); [reflexivity|].
  rewrite IH. apply perm_swap.
Qed.

Lemma sorted_perm (l : list A) : Permutation (sorted key l) l.
Proof.
  induction l as [|x l IH]; simpl; [reflexivity|].
  rewrite insert_by_perm. now constructor.
Qed.

Lemma insert_by_sorted (x : A) (l : list A) :
  StronglySorted (fun a b => key a <= key b) l ->
  StronglySorted (fun a b => key a <= key b) (insert_by key x l).
Proof.
  induction l as [|y r IH]; simpl; intros S.
  - constructor; constructor.
  - destruct (Nat.leb_spec (key x) (key y)) as [L|L].
    + constructor; [assumption|].
      inversion S as [|? ? S' F]; subst. constructor; [assumption|].
      eapply Forall_impl; [|exact F]. simpl. intros; lia.
    + inversion S as [|? ? S' F]; subst. constructor; [auto|].
      eapply Permutation_Forall; [symmetry; apply insert_by_perm|].
      constructor; [lia | assumption].
Qed.

Lemma sorted_sorted (l : list A) :
  StronglySorted (fun a b => key a <= key b) (sorted key l).
Proof.
  induction l as [|x l IH]; simpl; [constructor|].
  now apply insert_by_sorted.
Qed.

(** The sort is stable: elements with the same key keep their order. *)
Lemma insert_by_stable (k : nat) (x : A) (l : list A) :
  StronglySorted (fun a b => key a <= key b) l ->
  filter (fun a => key a =? k) (insert_by key x l)
  = filter (fun a => key a =? k) (x :: l).
Proof.
  induction l as [|y r IH]; intros S; [reflexivity|].
  simpl insert_by. destruct (Nat.leb_spec (key x) (key y)) as [L|L]; [reflexivity|].
  inversion S as [|? ? S' F]; subst.
  cbn [filter]. rewrite (IH S'). cbn [filter].
  destruct (Nat.eqb_spec (key y) k) as [E1|E1];
    destruct (Nat.eqb_spec (key x) k) as [E2|E2]; simpl; try reflexivity.
  lia.
Qed.

Lemma sorted_stable (k : nat) (l : list A) :
  filter (fun a => key a =? k) (sorted key l) = filter (fun a => key a =? k) l.
Proof.
  induction l as [|x l IH]; [reflexivity|]. simpl sorted.
  rewrite insert_by_stable by apply sorted_sorted.
  simpl. now rewrite IH.
Qed.
End StableSort.

Lemma sorted_key_ext {A : Type} (key key' : A -> nat) (l : list A) :
  (forall a, In a l -> key a = key' a) -> sorted key l = sorted key' l.
Proof.
  induction l as [|x l IH]; intros E; [reflexivity|]. simpl.
  rewrite IH by (intros a Ha; apply E; now right).
  assert (Ex : key x = key' x) by (apply E; now left).
  assert (El : forall a, In a (sorted key' l) -> key a = key' a).
  { intros a Ha. apply E. right.
    eapply Permutation_in; [apply sorted_perm | exact Ha]. }
  revert El. generalize (sorted key' l) as s.
  induction s as [|y s IHs]; intros El; simpl; [reflexivity|].
  rewrite Ex, (El y (or_introl eq_refl)).
  destruct (key' x <=? key' y); [reflexivity|].
  f_equal. apply IHs. intros a Ha. apply El. now right.
Qed.

Lemma lcv_sum_count (cw : Crossword) (domains : Domains) (assignment : Assignment)
    (var : Var) (w : word) :
  (forall n, In n (neighbors cw var) -> amem n assignment = false ->
             dget n domains <> None) ->
  lcv_sum domains assignment w (neighbors cw var)
  = Ret (lcv_count cw domains assignment var w).
Proof.
  unfold lcv_count. generalize (neighbors cw var) as ns.
  induction ns as [|n r IH]; intros H; simpl; [reflexivity|].
  assert (H' : forall n, In n r -> amem n assignment = false -> dget n domains <> None)
    by (intros m Hm; apply H; now right).
  destruct (amem n assignment) eqn:M; simpl; [now apply IH|].
  destruct (dget n domains) as [d|] eqn:G.
  - simpl. rewrite (IH H'). simpl. destruct (word_in w d); reflexivity.
  - exfalso. exact (H n (or_introl eq_refl) M G).
Qed.

Lemma build_heuristics_set (cw : Crossword) (domains : Domains)
    (assignment : Assignment) (var : Var) :
  (forall n, In n (neighbors cw var) -> amem n assignment = false ->
             dget n domains <> None) ->
  forall (ws : list word) (h : Dict.t word nat),
    NoDup ws -> (forall w, In w ws -> ~ In w (Dict.keys h)) ->
    build_heuristics cw domains assignment var ws h
    = Ret (h ++ map (fun w => (w, lcv_count cw domains assignment var w)) ws).
Proof.
  intros Hn. induction ws as [|w r IH]; intros h ND F; simpl.
  - now rewrite app_nil_r.
  - rewrite (lcv_sum_count cw domains assignment var w Hn). simpl.
    inversion ND as [|? ? Hni ND']; subst.
    rewrite set_fresh by (apply F; now left).
    rewrite IH.
    + now rewrite <- app_assoc.
    + assumption.
    + intros a Ha. unfold Dict.keys. rewrite map_app, in_app_iff. simpl.
      intros [C|[C|[]]].
      * apply (F a); [now right | exact C].
      * subst a. contradiction.
Qed.

Lemma heuristics_get_table (f : word -> nat) (ws : list word) (w : word) :
  In w ws -> heuristics_get (map (fun w => (w, f w)) ws) w = f w.
Proof.
  unfold heuristics_get. induction ws as [|a r IH]; simpl; [tauto|].
  destruct (string_dec w a) as [->|Hne]; [reflexivity|].
  intros [E|Hin]; [congruence | auto].
Qed.

Lemma order_domain_values_eq (cw : Crossword) (domains : Domains)
    (var : Var) (assignment : Assignment) (ws : list word) :
  dget var domains = Some ws ->
  NoDup ws ->
  (forall n, In n (neighbors cw var) -> amem n assignment = false ->
             dget n domains <> None) ->
  order_domain_values cw domains var assignment
  = Ret (sorted (lcv_count cw domains assignment var) ws).
Proof.
  intros G ND Hn. unfold order_domain_values. rewrite G. simpl.
  rewrite (build_heuristics_set cw domains assignment var Hn ws [] ND)
    by (intros w _ C; exact C).
  simpl.
  set (f := lcv_count cw domains assignment var).
  assert (K : Dict.keys (map (fun w => (w, f w)) ws) = ws).
  { unfold Dict.keys. rewrite map_map. simpl. apply map_id. }
  rewrite K. f_equal.
  apply sorted_key_ext. intros a Ha. now apply heuristics_get_table.
Qed.

(** C7. [order_domain_values] returns the words of the slot's domain, each
    once, in ascending order of the number of unassigned neighbors whose
    domain contains the word; words with the same number keep the order of the
    domain. *)
Theorem order_domain_values_ascending (cw : Crossword) (domains : Domains)
    (var : Var) (assignment : Assignment) (ws : list word) :
  dget var domains = Some ws ->
  NoDup ws ->
  (forall n, In n (neighbors cw var) -> amem n assignment = false ->
             dget n domains <> None) ->
  exists l,
    order_domain_values cw domains var assignment = Ret l /\
    Permutation l ws /\
    StronglySorted
      (fun w1 w2 => lcv_count cw domains assignment var w1
                    <= lcv_count cw domains assignment var w2) l /\
    (forall k,
        filter (fun w => lcv_count cw domains assignment var w =? k) l
        = filter (fun w => lcv_count cw domains assignment var w =? k) ws).
Proof.
  intros G ND Hn.
  exists (sorted (lcv_count cw domains assignment var) ws).
  split; [now apply order_domain_values_eq|].
  split; [apply sorted_perm|].
  split; [apply sorted_sorted | intros k; apply sorted_stable].
Qed.

Lemma order_domain_values_ascending_witness :
  (exists l,
      order_domain_values Examples.cw_cat Examples.domains_cat_B
        Examples.A [] = Ret l /\
      l = ["ARC"; "TEN"; "CAT"; "CAR"]%string /\
      Permutation l (words Examples.cw_cat) /\
      StronglySorted
        (fun w1 w2 =>
           lcv_count Examples.cw_cat Examples.domains_cat_B [] Examples.A w1
           <= lcv_count Examples.cw_cat Examples.domains_cat_B [] Examples.A w2)
        l /\
      map (lcv_count Examples.cw_cat Examples.domains_cat_B [] Examples.A) l
      = [0; 0; 1; 1]) /\
  (exists l,
      order_domain_values Examples.cw_cat Examples.domains_cat_B
        Examples.A [(Examples.B, "CAR"%string)] = Ret l /\
      l = words Examples.cw_cat /\
      (forall k,
          filter (fun w => lcv_count Examples.cw_cat Examples.domains_cat_B
                             [(Examples.B, "CAR"%string)] Examples.A w =? k) l
          = filter (fun w => lcv_count Examples.cw_cat Examples.domains_cat_B
                               [(Examples.B, "CAR"%string)] Examples.A w =? k)
              (words Examples.cw_cat)) /\
      map (lcv_count Examples.cw_cat Examples.domains_cat_B
             [(Examples.B, "CAR"%string)] Examples.A) l
      = [0; 0; 0; 0]).
Proof.
  assert (ND : NoDup (words Examples.cw_cat)) by (simpl; nodup_list).
  split.
  - destruct (order_domain_values_ascending Examples.cw_cat
                Examples.domains_cat_B Examples.A [] (words Examples.cw_cat))
      as (l & E & P & S & _).
    + reflexivity.
    + exact ND.
    + intros n Hn _. simpl in Hn. destruct Hn as [<-|[]]. discriminate.
    + assert (L : @Ret (list word) l = Ret ["ARC"; "TEN"; "CAT"; "CAR"]%string)
        by (rewrite <- E; reflexivity).
      injection L as L.
      exists l. split; [exact E|]. split; [exact L|].
      split; [exact P|]. split; [exact S|].
      rewrite L. reflexivity.
  - destruct (order_domain_values_ascending Examples.cw_cat
                Examples.domains_cat_B Examples.A
                [(Examples.B, "CAR"%string)] (words Examples.cw_cat))
      as (l & E & _ & _ & F).
    + reflexivity.
    + exact ND.
    + intros n Hn _. simpl in Hn. destruct Hn as [<-|[]]. discriminate.
    + assert (L : @Ret (list word) l = Ret (words Examples.cw_cat))
        by (rewrite <- E; reflexivity).
      injection L as L.
      exists l. split; [exact E|]. split; [exact L|].
      split; [exact F|].
      rewrite L. reflexivity.
Defined.

(** ** Well-formed puzzles *)

Lemma nodupb_NoDup {A : Type} (eq_dec : forall a b : A, {a = b} + {a <> b})
    (l : list A) :
  nodupb eq_dec l = true -> NoDup l.
Proof.
  induction l as [|a r IH]; simpl; [constructor|].
  destruct (in_dec eq_dec a r); simpl; [discriminate|].
  intros H. constructor; auto.
Qed.

Lemma var_in_iff (v : Var) (l : list Var) : var_in v l = true <-> In v l.
Proof.
  unfold var_in. destruct (in_dec Var_eq_dec v l); split; auto; discriminate.
Qed.

Lemma neighbors_of_iff (vs : list Var) (ov : Dict.t Arc (option (nat * nat)))
    (x y : Var) :
  In y (neighbors_of vs ov x) <->
  In y vs /\ y <> x /\ exists p, Dict.get Arc_eq_dec (y, x) ov = Some (Some p).
Proof.
  unfold neighbors_of. rewrite filter_In.
  destruct (Var_eq_dec y x) as [->|Hne].
  - split; [intros [_ C]; discriminate | intros (_ & C & _); congruence].
  - destruct (Dict.get Arc_eq_dec (y, x) ov) as [[p|]|].
    + split; [intros [H _]; eauto | tauto].
    + split; [intros [_ C]; discriminate | intros (_ & _ & p & C); discriminate].
    + split; [intros [_ C]; discriminate | intros (_ & _ & p & C); discriminate].
Qed.

Lemma well_formed_spec (cw : Crossword) : well_formed cw = true -> WellFormed cw.
Proof.
  unfold well_formed. rewrite !andb_true_iff.
  intros [[[Hv Hw] He] Hn].
  rewrite forallb_forall in He, Hn.
  assert (E : forall x y o, overlap_of cw x y = Some o ->
            In x (variables cw) /\ In y (variables cw) /\ x <> y /\
            entry_ok cw (x, y) o = true).
  { intros x y o G. apply get_In in G. apply He in G. simpl in G.
    rewrite !andb_true_iff, !var_in_iff, negb_true_iff in G.
    destruct G as [[[H1 H2] H3] H4]. repeat split; try assumption.
    unfold Var_eqb in H3. destruct (Var_eq_dec x y); congruence. }
  constructor.
  - now apply nodupb_NoDup in Hv.
  - now apply nodupb_NoDup in Hw.
  - intros x y o G. apply E in G. tauto.
  - intros x y i j G. apply E in G. destruct G as (_ & _ & _ & G).
    unfold entry_ok in G. simpl in G. rewrite !andb_true_iff in G.
    destruct G as [[G1 G2] G3].
    apply Nat.ltb_lt in G1, G2.
    destruct (overlap_of cw y x) as [[[j' i']|]|]; try discriminate.
    rewrite andb_true_iff in G3. destruct G3 as [G3 G4].
    apply Nat.eqb_eq in G3, G4. subst. auto.
  - intros x y Hx. specialize (Hn x Hx). rewrite andb_true_iff in Hn.
    destruct Hn as [N1 N2]. rewrite forallb_forall in N1, N2.
    rewrite <- (neighbors_of_iff (variables cw) (overlaps cw) x y).
    split; intros H.
    + apply var_in_iff. now apply N1.
    + apply var_in_iff. now apply N2.
Qed.

Lemma wf_neighbor_overlap (cw : Crossword) (x y : Var) :
  WellFormed cw -> In x (variables cw) -> In y (neighbors cw x) ->
  exists i j, overlap_of cw x y = Some (Some (i, j)) /\
              i < var_length x /\ j < var_length y /\
              In y (variables cw) /\ x <> y.
Proof.
  intros W Hx Hy. apply (wf_neighbors W x y Hx) in Hy.
  destruct Hy as (Hy & Hne & [j i] & G).
  destruct (wf_entries W _ _ _ _ G) as (Hj & Hi & G').
  exists i, j. repeat split; auto.
Qed.

Lemma wf_overlap_neighbor (cw : Crossword) (x y : Var) (i j : nat) :
  WellFormed cw -> overlap_of cw x y = Some (Some (i, j)) ->
  In x (variables cw) /\ In y (variables cw) /\ x <> y /\
  In y (neighbors cw x) /\ In x (neighbors cw y).
Proof.
  intros W G. destruct (wf_keys W _ _ _ G) as (Hx & Hy & Hne).
  destruct (wf_entries W _ _ _ _ G) as (_ & _ & G').
  repeat split; try assumption.
  - apply (wf_neighbors W x y Hx). repeat split; eauto.
  - apply (wf_neighbors W y x Hy). repeat split; eauto.
Qed.

(** ** The search undoes what it tried *)

Lemma min_loop_In (cw : Crossword) (domains : Domains) (rest : list Var) :
  forall (best : Var) (k : nat * Z) (var : Var),
    min_loop cw domains rest best k = Ret var -> var = best \/ In var rest.
Proof.
  induction rest as [|v r IH]; intros best k var; simpl.
  - intros H. injection H as <-. now left.
  - destruct (select_key cw domains v) as [kv| |]; simpl; try discriminate.
    destruct (key_lt kv k); intros H; apply IH in H;
      destruct H as [->|H]; auto.
Qed.

Lemma select_unassigned (cw : Crossword) (domains : Domains)
    (assignment : Assignment) (var : Var) :
  select_unassigned_variable cw domains assignment = Ret var ->
  In var (variables cw) /\ ~ In var (Dict.keys assignment).
Proof.
  unfold select_unassigned_variable.
  destruct (unassigned cw assignment) as [|v r] eqn:U; [discriminate|].
  destruct (select_key cw domains v) as [kv| |]; simpl; try discriminate.
  intros H. apply min_loop_In in H.
  assert (Hin : In var (unassigned cw assignment)).
  { rewrite U. destruct H as [->|H]; [now left | now right]. }
  unfold unassigned in Hin. apply filter_In in Hin. destruct Hin as [Hv Hm].
  split; [assumption|]. apply negb_true_iff in Hm. now apply mem_false_iff in Hm.
Qed.

Lemma try_values_restores (cw : Crossword)
    (recurse : Assignment -> Assignment * outcome (option Assignment)) (var : Var) :
  restores recurse ->
  forall (values : list word) (a a' : Assignment) (r : option Assignment),
    ~ In var (Dict.keys a) ->
    try_values cw recurse var values a = (a', Ret r) ->
    match r with
    | None => a' = a
    | Some s => s = a' /\ List.length a <= List.length a'
    end.
Proof.
  intros Hrec. induction values as [|value rest IH]; intros a a' r Hfresh; simpl.
  - intros H. injection H as <- <-. reflexivity.
  - unfold aset, adel. rewrite (set_fresh Var_eq_dec var value a Hfresh).
    assert (U : Dict.del Var_eq_dec var (a ++ [(var, value)]) = Some a)
      by now apply del_last_fresh.
    destruct (consistent cw (a ++ [(var, value)])) as [[|]|e|]; try discriminate.
    + destruct (recurse (a ++ [(var, value)])) as [a2 o] eqn:R.
      destruct o as [result|e|]; try discriminate.
      specialize (Hrec _ _ _ R).
      destruct result as [s|].
      * destruct Hrec as [-> Hlen]. rewrite length_app in Hlen. simpl in Hlen.
        destruct a2 as [|e2 a2]; [simpl in Hlen; lia|]. simpl.
        intros H. injection H as <- <-. split; [reflexivity|]. simpl in *. lia.
      * subst a2. simpl. rewrite U. now apply IH.
    + rewrite U. now apply IH.
Qed.

Lemma backtrack_fuel_restores (cw : Crossword) (domains : Domains) (fuel : nat) :
  restores (backtrack_fuel fuel cw domains).
Proof.
  induction fuel as [|fuel IH]; intros a a' r; simpl; [discriminate|].
  destruct (assignment_complete cw a).
  - intros H. injection H as <- <-. split; [reflexivity | lia].
  - destruct (select_unassigned_variable cw domains a) as [var|e|] eqn:S;
      try discriminate.
    apply select_unassigned in S. destruct S as [_ Hfresh].
    destruct (order_domain_values cw domains var a) as [values|e|]; try discriminate.
    now apply try_values_restores.
Qed.

(** C10. When [backtrack] returns [None], the dictionary holds what it held
    when the call began: each entry that the loop added was deleted again,
    after a failed consistency check as after a failed recursive call. *)
Theorem backtrack_failure_restores (cw : Crossword) (domains : Domains)
    (assignment assignment' : Assignment) :
  backtrack cw domains assignment = (assignment', Ret None) ->
  assignment' = assignment.
Proof.
  intros H. exact (backtrack_fuel_restores cw domains _ _ _ _ H).
Qed.

Lemma backtrack_failure_restores_witness :
  backtrack Examples.cw_dog
    (enforce_node_consistency (init_domains Examples.cw_dog)) []
  = ([], Ret None) /\ @nil (Var * word) = [].
Proof.
  split; [vm_compute; reflexivity|].
  apply (backtrack_failure_restores Examples.cw_dog
           (enforce_node_consistency (init_domains Examples.cw_dog))).
  vm_compute. reflexivity.
Defined.

(** ** Soundness of the search *)

Lemma try_values_sound (cw : Crossword)
    (recurse : Assignment -> Assignment * outcome (option Assignment)) (var : Var) :
  sound cw recurse ->
  forall (values : list word) (a a' s : Assignment),
    try_values cw recurse var values a = (a', Ret (Some s)) ->
    s = a' /\ assignment_complete cw s = true /\ consistent cw s = Ret true.
Proof.
  intros Hrec. induction values as [|value rest IH]; intros a a' s; simpl.
  - discriminate.
  - destruct (consistent cw (aset var value a)) as [[|]|e|] eqn:C; try discriminate.
    + destruct (recurse (aset var value a)) as [a2 o] eqn:R.
      destruct o as [result|e|]; try discriminate.
      destruct (truthy result) eqn:T.
      * intros H. injection H as <- ->. exact (Hrec _ _ _ R C).
      * destruct (adel var a2); [apply IH | discriminate].
    + destruct (adel var (aset var value a)); [apply IH | discriminate].
Qed.

Lemma backtrack_fuel_sound (cw : Crossword) (domains : Domains) (fuel : nat) :
  sound cw (backtrack_fuel fuel cw domains).
Proof.
  induction fuel as [|fuel IH]; intros a a' s; simpl; [discriminate|].
  destruct (assignment_complete cw a) eqn:AC.
  - intros H C. injection H as <- <-. auto.
  - destruct (select_unassigned_variable cw domains a) as [var|e|]; try discriminate.
    destruct (order_domain_values cw domains var a) as [values|e|]; try discriminate.
    intros H _. eapply try_values_sound; eassumption.
Qed.

Lemma solve_sound (cw : Crossword) (s : Assignment) :
  solve cw = Ret (Some s) ->
  assignment_complete cw s = true /\ consistent cw s = Ret true.
Proof.
  unfold solve.
  destruct (ac3 cw (enforce_node_consistency (init_domains cw)) None) as [d2 o].
  destruct o as [b|e|]; try discriminate.
  unfold backtrack.
  destruct (backtrack_fuel (S (List.length (variables cw))) cw d2 []) as [a' r] eqn:B.
  simpl. intros ->.
  apply (backtrack_fuel_sound cw d2 _ _ _ _ B). reflexivity.
Qed.

Lemma consistent_neighbors_spec (cw : Crossword) (a : Assignment) (var : Var)
    (w : word) (ns : list Var) :
  consistent_neighbors cw a var w ns = Ret true ->
  forall n wy, In n ns -> aget n a = Some wy ->
    exists i j, overlap_of cw var n = Some (Some (i, j)) /\ agree i j w wy.
Proof.
  induction ns as [|m r IH]; simpl; [intros _ n wy []|].
  unfold amem, Dict.mem. fold (aget m a).
  destruct (aget m a) as [wm|] eqn:G.
  - destruct (overlap_of cw var m) as [[[i j]|]|] eqn:O; try discriminate.
    destruct (String.get i w) as [c|] eqn:Gi; simpl; [|discriminate].
    destruct (String.get j wm) as [c'|] eqn:Gj; simpl; [|discriminate].
    destruct (Ascii.eqb_spec c c') as [<-|]; [|discriminate].
    intros H n wy [<-|Hin] Gn.
    + exists i, j. split; [exact O|]. exists c. split; congruence.
    + now apply IH.
  - intros H n wy [<-|Hin] Gn; [congruence | now apply IH].
Qed.

Lemma consistent_items_spec (cw : Crossword) (a : Assignment)
    (items : list (Var * word)) :
  consistent_items cw a items = Ret true ->
  forall v w, In (v, w) items ->
    String.length w = var_length v /\
    count_occ string_dec (Dict.values a) w <= 1 /\
    consistent_neighbors cw a v w (neighbors cw v) = Ret true.
Proof.
  induction items as [|[v0 w0] r IH]; simpl; [intros _ v w []|].
  destruct (Nat.eqb_spec (String.length w0) (var_length v0)) as [L|]; simpl;
    [|discriminate].
  destruct (Nat.ltb_spec 1 (count_occ string_dec (Dict.values a) w0)) as [|Cn];
    [discriminate|].
  destruct (consistent_neighbors cw a v0 w0 (neighbors cw v0)) as [[|]|e|] eqn:N;
    simpl; try discriminate.
  intros H v w [E|Hin].
  - injection E as <- <-. auto.
  - now apply IH.
Qed.

Lemma assignment_complete_spec (cw : Crossword) (a : Assignment) :
  assignment_complete cw a = true <-> complete cw a.
Proof.
  unfold assignment_complete, complete. rewrite forallb_forall.
  split; intros H v Hv; specialize (H v Hv); unfold amem, Dict.mem, aget in *.
  - destruct (Dict.get Var_eq_dec v a) as [w|]; [eauto | discriminate].
  - destruct H as [w ->]. reflexivity.
Qed.

(** What a successful run of the checker establishes. *)
Lemma consistent_true_spec (cw : Crossword) (a : Assignment) :
  WellFormed cw -> consistent cw a = Ret true ->
  lengths_match a /\ words_distinct a /\ overlaps_agree cw a.
Proof.
  intros W C. pose proof (consistent_items_spec cw a a C) as S.
  split; [|split].
  - intros v w Hin. now apply S.
  - unfold words_distinct. apply (NoDup_count_occ string_dec). intros w.
    destruct (in_dec string_dec w (Dict.values a)) as [Hin|Hni].
    + unfold Dict.values in Hin. apply in_map_iff in Hin.
      destruct Hin as ([v w'] & E & Hin). simpl in E. subst w'.
      now apply (S v w).
    + apply (count_occ_not_In string_dec) in Hni. lia.
  - intros x y i j wx wy O Gx Gy.
    destruct (wf_overlap_neighbor cw x y i j W O) as (_ & _ & _ & Hn & _).
    apply get_In in Gx. destruct (S x wx Gx) as (_ & _ & N).
    destruct (consistent_neighbors_spec cw a x wx _ N y wy Hn Gy) as (i' & j' & O' & A).
    rewrite O in O'. injection O' as <- <-. exact A.
Qed.

(** C1. An assignment that [solve] returns gives a word to every slot, and
    the consistency checker returns true on it: every word has the length of
    its slot, no word is used twice, and two overlapping slots hold the same
    character at the cell they share. *)
Theorem solve_returns_consistent (cw : Crossword) (s : Assignment) :
  well_formed cw = true ->
  solve cw = Ret (Some s) ->
  complete cw s /\ consistent cw s = Ret true /\
  lengths_match s /\ words_distinct s /\ overlaps_agree cw s.
Proof.
  intros W H. apply well_formed_spec in W.
  destruct (solve_sound cw s H) as [AC C].
  split; [now apply assignment_complete_spec|]. split; [assumption|].
  now apply consistent_true_spec.
Qed.

Lemma solve_returns_consistent_witness :
  let s := [(Examples.B, "ARC"%string); (Examples.A, "CAT"%string)] in
  complete Examples.cw_cat s /\ consistent Examples.cw_cat s = Ret true /\
  lengths_match s /\ words_distinct s /\ overlaps_agree Examples.cw_cat s.
Proof.
  intros s. apply (solve_returns_consistent Examples.cw_cat s).
  - vm_compute. reflexivity.
  - vm_compute. reflexivity.
Defined.

(** ** Arc consistency after [ac3] *)

Lemma revise_loop_others (i j : nat) (x y : Var) (copy : list word) :
  forall (d d' : Domains) (revised : bool) (o : outcome bool),
    revise_loop i j x y copy d revised = (d', o) ->
    (forall v, v <> x -> dget v d' = dget v d) /\
    (revised = true -> o = Ret false -> False) /\
    (o = Ret false -> d' = d).
Proof.
  induction copy as [|w rest IH]; intros d d' revised o; simpl.
  - intros H. injection H as <- <-. repeat split; congruence.
  - destruct (dget y d) as [dy|].
    2:{ intros H. injection H as <- <-. repeat split; congruence. }
    destruct (has_overlap i j w dy) as [[|]|e|].
    + apply IH.
    + destruct (dget x d) as [dx|].
      2:{ intros H. injection H as <- <-. repeat split; congruence. }
      destruct (set_remove w dx) as [dx'|].
      2:{ intros H. injection H as <- <-. repeat split; congruence. }
      intros H. apply IH in H. destruct H as (H1 & H2 & H3).
      split; [|split].
      * intros v Hv. rewrite H1 by assumption. unfold dget, dset.
        now rewrite get_set_other.
      * intros _ E. now apply H2.
      * intros E. exfalso. now apply H2.
    + intros H. injection H as <- <-. repeat split; congruence.
    + intros H. injection H as <- <-. repeat split; congruence.
Qed.

Lemma agree_sym (i j : nat) (w v : word) : agree i j w v -> agree j i v w.
Proof. intros (c & H1 & H2). exists c. auto. Qed.

(** What [revise] leaves when it returns on an arc with the entry [(i, j)]. *)
Lemma revise_returns (cw : Crossword) (d d' : Domains) (x y : Var) (i j : nat)
    (b : bool) :
  x <> y -> overlap_of cw x y = Some (Some (i, j)) ->
  revise cw d x y = (d', Ret b) ->
  (forall v, v <> x -> dget v d' = dget v d) /\
  (b = false -> d' = d) /\
  arc_ok d' x y i j /\
  (forall w dy dx', dget y d = Some dy -> dget x d' = Some dx' ->
     (exists dx, dget x d = Some dx /\ In w dx) -> supported i j w dy -> In w dx').
Proof.
  intros Hxy O. unfold revise. rewrite O.
  destruct (dget x d) as [dx|] eqn:Gx; [|discriminate].
  intros R. pose proof (revise_loop_others _ _ _ _ _ _ _ _ _ R) as (H1 & _ & H3).
  split; [exact H1|]. split; [intros ->; now apply H3|].
  destruct (dget y d) as [dy|] eqn:Gy.
  - destruct (revise_loop_spec i j x y dy Hxy dx d d' false b dx Gx Gy R)
      as (S1 & _ & _).
    split.
    + intros dx' dy' Gx' Gy' w Hw.
      rewrite H1 in Gy' by congruence. rewrite Gy in Gy'. injection Gy' as <-.
      rewrite S1 in Gx'. injection Gx' as <-.
      apply filter_In in Hw. destruct Hw as [Hin Hs].
      apply word_in_iff in Hin. rewrite Hin in Hs. simpl in Hs.
      now apply supportedb_iff.
    + intros w dy' dx' E Gx' (dx0 & Gx0 & Hin) Hs.
      injection E as <-. rewrite S1 in Gx'. injection Gx' as <-.
      injection Gx0 as <-.
      apply filter_In. split; [assumption|].
      apply supportedb_iff in Hs. rewrite Hs. apply orb_true_r.
  - split.
    + intros dx' dy' _ Gy'. rewrite H1 in Gy' by congruence. congruence.
    + intros w dy dx' E. discriminate.
Qed.

Lemma In_enqueue_old (cw : Crossword) (x y : Var) (arcs : list Arc) (a : Arc) :
  In a arcs -> In a (enqueue_neighbors cw x y arcs).
Proof.
  unfold enqueue_neighbors. generalize (remove Var_eq_dec y (neighbors cw x)) as l.
  intros l. revert arcs. induction l as [|z l IH]; intros arcs H; simpl; [assumption|].
  apply IH. now right.
Qed.

Lemma In_enqueue_new (cw : Crossword) (x y z : Var) (arcs : list Arc) :
  In z (neighbors cw x) -> z <> y -> In (z, x) (enqueue_neighbors cw x y arcs).
Proof.
  intros Hz Hne. unfold enqueue_neighbors.
  assert (H : In z (remove Var_eq_dec y (neighbors cw x)))
    by (apply in_in_remove; assumption).
  revert H. generalize (remove Var_eq_dec y (neighbors cw x)) as l.
  intros l. revert arcs. induction l as [|z' l IH]; intros arcs H; simpl; [destruct H|].
  destruct H as [->|H].
  - clear IH. generalize ((z, x) :: arcs), (or_introl eq_refl : In (z, x) ((z, x) :: arcs)).
    induction l as [|z'' l IH]; intros q Hq; simpl; [assumption|].
    apply IH. now right.
  - now apply IH.
Qed.

(** One turn of the loop keeps every arc in the worklist or consistent. *)
Lemma pending_or_ok_step (cw : Crossword) (d d1 : Domains) (x y : Var)
    (rest : list Arc) (b : bool) :
  WellFormed cw ->
  pending_or_ok cw d ((x, y) :: rest) ->
  revise cw d x y = (d1, Ret b) ->
  pending_or_ok cw d1 (if b then enqueue_neighbors cw x y rest else rest).
Proof.
  intros W Inv R.
  destruct (overlap_of cw x y) as [[[i j]|]|] eqn:O.
  - destruct (wf_keys W _ _ _ O) as (Hx & Hy & Hxy).
    destruct (revise_returns cw d d1 x y i j b Hxy O R) as (H1 & H2 & H3 & H4).
    intros p q i' j' Opq.
    destruct (Arc_eq_dec (p, q) (x, y)) as [E|NE].
    { injection E as -> ->. rewrite O in Opq. injection Opq as <- <-. now right. }
    destruct (Inv p q i' j' Opq) as [[E|Hin]|Ok]; [congruence | |].
    { left. destruct b; [now apply In_enqueue_old | assumption]. }
    destruct b; [|right; now rewrite (H2 eq_refl)].
    destruct (wf_keys W _ _ _ Opq) as (Hp & Hq & Hpq).
    destruct (Var_eq_dec p x) as [->|Hpx].
    + (* the arc leaves [x]: its domain shrank, the other is as before *)
      right. intros dx' dq Gx' Gq w Hw.
      rewrite H1 in Gq by congruence.
      destruct (revise_le cw d x y) as [_ LE]. rewrite R in LE. simpl in LE.
      destruct (LE x dx' Gx') as (dx & Gx & I).
      exact (Ok dx dq Gx Gq w (I w Hw)).
    + destruct (Var_eq_dec q x) as [->|Hqx].
      * destruct (Var_eq_dec p y) as [->|Hpy].
        -- (* the arc [(y, x)]: what supported a word of [y] is still there *)
           right. destruct (wf_entries W _ _ _ _ O) as (_ & _ & O').
           rewrite O' in Opq. injection Opq as <- <-.
           intros dy dx' Gy Gx' w Hw.
           rewrite H1 in Gy by congruence.
           destruct (revise_le cw d x y) as [_ LE]. rewrite R in LE. simpl in LE.
           destruct (LE x dx' Gx') as (dx & Gx & _).
           destruct (Ok dy dx Gy Gx w Hw) as (v & Hv & A).
           exists v. split; [|assumption].
           apply (H4 v dy dx' Gy Gx'); [eauto|].
           exists w. split; [assumption | now apply agree_sym].
        -- left. apply In_enqueue_new; [|assumption].
           now destruct (wf_overlap_neighbor cw p x i' j' W Opq) as (_ & _ & _ & _ & N).
      * right. intros dp dq Gp Gq. rewrite H1 in Gp, Gq by assumption.
        now apply Ok.
  - unfold revise in R. rewrite O in R. injection R as <- <-.
    intros p q i' j' Opq. destruct (Inv p q i' j' Opq) as [[E|Hin]|Ok]; auto.
    injection E as -> ->. congruence.
  - unfold revise in R. rewrite O in R. discriminate.
Qed.

Lemma ac3_loop_arc_consistent (cw : Crossword) (fuel : nat) :
  WellFormed cw ->
  forall (d d' : Domains) (arcs : list Arc),
    pending_or_ok cw d arcs ->
    ac3_loop fuel cw d arcs = (d', Ret true) ->
    arc_consistent cw d'.
Proof.
  intros W. induction fuel as [|fuel IH]; intros d d' arcs Inv; simpl; [discriminate|].
  destruct arcs as [|[x y] rest].
  - intros H. injection H as <-. intros p q i j O.
    destruct (Inv p q i j O) as [[]|Ok]. exact Ok.
  - destruct (revise cw d x y) as [d1 o] eqn:R.
    destruct o as [b|e|]; try (destruct b); try discriminate.
    + pose proof (pending_or_ok_step cw d d1 x y rest true W Inv R) as Inv'.
      simpl in Inv'.
      destruct (dget x d1) as [dx|]; [|discriminate].
      destruct (List.length dx =? 0); [discriminate|].
      now apply IH.
    + pose proof (pending_or_ok_step cw d d1 x y rest false W Inv R) as Inv'.
      simpl in Inv'. now apply IH.
Qed.

Lemma all_arcs_pending (cw : Crossword) (d : Domains) (arcs : list Arc) :
  WellFormed cw -> (forall a, In a (all_arcs cw) -> In a arcs) ->
  pending_or_ok cw d arcs.
Proof.
  intros W I x y i j O. left. apply I.
  destruct (wf_overlap_neighbor cw x y i j W O) as (Hx & _ & _ & Hn & _).
  unfold all_arcs. apply in_flat_map. exists x. split; [assumption|].
  apply in_map_iff. now exists y.
Qed.

(** C2, as the code has it. On a well-formed puzzle, when [ac3] returns true
    every arc of the puzzle is consistent, provided that the worklist started
    with every arc that was not consistent yet: always so without a seed or
    with an empty one (the worklist then starts with all arcs), and for a
    seed that leaves out consistent arcs only. *)
Theorem ac3_true_arc_consistent (cw : Crossword) :
  well_formed cw = true ->
  (forall (domains domains' : Domains) (arcs : option (list Arc)),
      initial_arcs cw arcs = all_arcs cw ->
      ac3 cw domains arcs = (domains', Ret true) ->
      arc_consistent cw domains') /\
  (forall (domains domains' : Domains) (arcs : option (list Arc)),
      pending_or_ok cw domains (initial_arcs cw arcs) ->
      ac3 cw domains arcs = (domains', Ret true) ->
      arc_consistent cw domains').
Proof.
  intros W. apply well_formed_spec in W.
  assert (G : forall (domains domains' : Domains) (arcs : option (list Arc)),
             pending_or_ok cw domains (initial_arcs cw arcs) ->
             ac3 cw domains arcs = (domains', Ret true) ->
             arc_consistent cw domains').
  { intros domains domains' arcs P H. unfold ac3 in H.
    eapply ac3_loop_arc_consistent; [exact W | | exact H].
    intros x y i j O. destruct (P x y i j O) as [Hin|Ok]; [left | now right].
    now apply in_rev in Hin. }
  split; [|exact G].
  intros domains domains' arcs E. apply G. rewrite E.
  apply all_arcs_pending; auto.
Qed.

Lemma ac3_true_arc_consistent_witness :
  arc_consistent Examples.cw_cat
    (fst (ac3 Examples.cw_cat
            (enforce_node_consistency (init_domains Examples.cw_cat)) None)).
Proof.
  assert (W : well_formed Examples.cw_cat = true) by (vm_compute; reflexivity).
  apply (proj1 (ac3_true_arc_consistent Examples.cw_cat W)
           (enforce_node_consistency (init_domains Examples.cw_cat)) _ None).
  - reflexivity.
  - vm_compute. reflexivity.
Defined.

(** C2, as stated, fails for a seeded call: with the arc [(A, B)] as the only
    seed, [ac3] returns true and leaves CAT in the domain of [B], which no
    word of the domain of [A] supports. *)
Lemma ac3_seeded_true_not_arc_consistent :
  well_formed Examples.cw_cat = true /\
  exists domains',
    ac3 Examples.cw_cat (enforce_node_consistency (init_domains Examples.cw_cat))
        (Some [(Examples.A, Examples.B)]) = (domains', Ret true) /\
    ~ arc_consistent Examples.cw_cat domains'.
Proof.
  split; [vm_compute; reflexivity|].
  eexists. split; [vm_compute; reflexivity|].
  intros AC.
  specialize (AC Examples.B Examples.A 0 1 eq_refl _ _ eq_refl eq_refl
                 "CAT"%string (or_introl eq_refl)).
  destruct AC as (v & Hv & c & H1 & H2).
  simpl in Hv. destruct Hv as [<-|[<-|[]]]; vm_compute in H1, H2; congruence.
Qed.

(** ** [solve] runs to its end *)

Lemma node_consistency_fold (pre post : Domains) :
  NoDup (Dict.keys (pre ++ post)) ->
  fold_left
    (fun d variable =>
       match dget variable d with
       | Some ws =>
           dset variable
             (filter (fun w => String.length w =? var_length variable) ws) d
       | None => d
       end)
    (Dict.keys post) (pre ++ post)
  = pre ++ map (fun e => (fst e,
                          filter (fun w => String.length w =? var_length (fst e))
                                 (snd e))) post.
Proof.
  revert pre. induction post as [|[k ws] post IH]; intros pre ND; [reflexivity|].
  simpl.
  assert (Hk : ~ In k (Dict.keys pre)).
  { unfold Dict.keys in *. rewrite map_app in ND. simpl in ND.
    apply NoDup_remove_2 in ND. rewrite in_app_iff in ND. tauto. }
  assert (G : forall (v : list word) (r : Domains),
             dget k (pre ++ (k, v) :: r) = Some v /\
             forall v', dset k v' (pre ++ (k, v) :: r) = pre ++ (k, v') :: r).
  { clear -Hk. intros v r. induction pre as [|[k0 v0] pre IHp]; simpl.
    - destruct (Var_eq_dec k k); [auto | congruence].
    - simpl in Hk. destruct (Var_eq_dec k k0) as [->|Hne]; [tauto|].
      destruct IHp as [I1 I2]; [tauto|]. split; [exact I1|].
      intros v'. unfold dset in *. now rewrite I2. }
  destruct (G ws post) as [G1 G2]. rewrite G1, G2.
  specialize (IH (pre ++ [(k, filter (fun w => String.length w =? var_length k) ws)])).
  rewrite <- !app_assoc in IH. simpl in IH. apply IH.
  unfold Dict.keys in *. rewrite !map_app in *. simpl in *. exact ND.
Qed.

Lemma enforce_node_consistency_map (d : Domains) :
  NoDup (Dict.keys d) ->
  enforce_node_consistency d
  = map (fun e => (fst e,
                   filter (fun w => String.length w =? var_length (fst e)) (snd e))) d.
Proof.
  intros ND. exact (node_consistency_fold [] d ND).
Qed.

Lemma init_node_consistent (cw : Crossword) :
  WellFormed cw ->
  node_consistent cw (enforce_node_consistency (init_domains cw)).
Proof.
  intros W. pose proof (wf_variables W) as NDv. pose proof (wf_words W) as NDw.
  assert (K : Dict.keys (init_domains cw) = variables cw).
  { unfold Dict.keys, init_domains. rewrite map_map. simpl. apply map_id. }
  rewrite enforce_node_consistency_map by (now rewrite K).
  split.
  - unfold Dict.keys. rewrite map_map. simpl. exact K.
  - intros v ws G. apply get_In in G. apply in_map_iff in G.
    destruct G as ([v0 ws0] & E & Hin). simpl in E. injection E as -> <-.
    unfold init_domains in Hin. apply in_map_iff in Hin.
    destruct Hin as (v1 & E & _). injection E as -> <-.
    split; [now apply NoDup_filter|].
    intros w Hw. apply filter_In in Hw. destruct Hw as [Hw L].
    apply Nat.eqb_eq in L. auto.
Qed.

Lemma revise_loop_node_consistent (cw : Crossword) (i j : nat) (x y : Var)
    (copy : list word) :
  forall (d : Domains) (revised : bool),
    node_consistent cw d ->
    node_consistent cw (fst (revise_loop i j x y copy d revised)).
Proof.
  induction copy as [|w rest IH]; intros d revised NC; simpl; [assumption|].
  destruct (dget y d) as [dy|]; [|assumption].
  destruct (has_overlap i j w dy) as [[|]|e|]; try assumption.
  - now apply IH.
  - destruct (dget x d) as [dx|] eqn:Gx; [|assumption].
    destruct (set_remove w dx) as [dx'|] eqn:R; [|assumption].
    apply set_remove_Some in R. destruct R as [Hin ->].
    apply IH. destruct NC as [K NC]. split.
    + rewrite <- K. apply keys_set_present. eapply get_In_keys; eassumption.
    + intros v ws G. unfold dget, dset in G.
      destruct (Var_eq_dec v x) as [->|Hne].
      * rewrite get_set_same in G. injection G as <-.
        destruct (NC x dx Gx) as [ND L]. split.
        -- rewrite remove_as_filter. now apply NoDup_filter.
        -- intros w' Hw'. apply in_remove in Hw'. apply L. tauto.
      * rewrite get_set_other in G by assumption. now apply NC.
Qed.

Lemma revise_node_consistent (cw : Crossword) (d : Domains) (x y : Var) :
  node_consistent cw d -> node_consistent cw (fst (revise cw d x y)).
Proof.
  intros NC. unfold revise.
  destruct (overlap_of cw x y) as [[[i j]|]|]; try assumption.
  destruct (dget x d); [now apply revise_loop_node_consistent | assumption].
Qed.

Lemma node_consistent_get (cw : Crossword) (d : Domains) (v : Var) :
  node_consistent cw d -> In v (variables cw) -> exists ws, dget v d = Some ws.
Proof.
  intros [K _] Hv. rewrite <- K in Hv.
  destruct (dget v d) as [ws|] eqn:G; [eauto|].
  apply get_None_keys in G. contradiction.
Qed.

(** On a puzzle arc and a node-consistent store [revise] returns. *)
Lemma revise_on_puzzle_arc (cw : Crossword) (d : Domains) (x y : Var) :
  WellFormed cw -> node_consistent cw d ->
  In x (variables cw) -> In y (neighbors cw x) ->
  exists d' b, revise cw d x y = (d', Ret b).
Proof.
  intros W NC Hx Hy.
  destruct (wf_neighbor_overlap cw x y W Hx Hy) as (i & j & O & Hi & Hj & Hyv & Hxy).
  destruct (node_consistent_get cw d x NC Hx) as [dx Gx].
  destruct (node_consistent_get cw d y NC Hyv) as [dy Gy].
  unfold revise. rewrite O, Gx.
  destruct NC as [_ NC].
  destruct (NC x dx Gx) as [NDx Lx]. destruct (NC y dy Gy) as [_ Ly].
  apply (revise_loop_returns i j x y dy Hxy) with (dx := dx); auto.
  - intros v Hv. destruct (Ly v Hv) as [-> _]. exact Hj.
  - apply incl_refl.
  - intros w Hw. destruct (Lx w Hw) as [-> _]. exact Hi.
Qed.

Lemma enqueue_puzzle_arcs (cw : Crossword) (x y : Var) (arcs : list Arc) :
  WellFormed cw -> In x (variables cw) -> puzzle_arcs cw arcs ->
  puzzle_arcs cw (enqueue_neighbors cw x y arcs).
Proof.
  intros W Hx P. unfold enqueue_neighbors.
  assert (H : forall z, In z (remove Var_eq_dec y (neighbors cw x)) ->
                        In z (neighbors cw x))
    by (intros z Hz; apply in_remove in Hz; tauto).
  revert H. generalize (remove Var_eq_dec y (neighbors cw x)) as l.
  intros l. revert arcs P. induction l as [|z l IH]; intros arcs P H; simpl; [assumption|].
  apply IH; [|intros z' Hz'; apply H; now right].
  intros p q [E|Hin]; [|now apply P].
  injection E as <- <-.
  destruct (wf_neighbor_overlap cw x z W Hx (H z (or_introl eq_refl)))
    as (i & j & O & _).
  destruct (wf_overlap_neighbor cw x z i j W O) as (_ & Hz & _ & _ & N).
  auto.
Qed.

(** During [solve] the loop of [ac3] never raises; when it reports failure,
    the domain of some variable is empty. *)
Lemma ac3_loop_on_puzzle (cw : Crossword) (fuel : nat) :
  WellFormed cw ->
  forall (d : Domains) (arcs : list Arc),
    node_consistent cw d -> puzzle_arcs cw arcs ->
    exists d' o, ac3_loop fuel cw d arcs = (d', o) /\
      node_consistent cw d' /\
      (o = Timeout \/ o = Ret true \/
       (o = Ret false /\ exists x, In x (variables cw) /\ dget x d' = Some [])).
Proof.
  intros W. induction fuel as [|fuel IH]; intros d arcs NC P; simpl.
  - exists d, Timeout. auto.
  - destruct arcs as [|[x y] rest].
    + exists d, (Ret true). auto.
    + destruct (P x y (or_introl eq_refl)) as [Hx Hy].
      destruct (revise_on_puzzle_arc cw d x y W NC Hx Hy) as (d1 & b & R).
      pose proof (revise_node_consistent cw d x y NC) as NC1.
      rewrite R in *. simpl in NC1.
      assert (P' : puzzle_arcs cw rest) by (intros p q Hin; apply P; now right).
      destruct b.
      * destruct (node_consistent_get cw d1 x NC1 Hx) as [dx Gx]. rewrite Gx.
        destruct dx as [|w dx]; simpl.
        -- exists d1, (Ret false). split; [reflexivity|]. split; [assumption|].
           right. right. split; [reflexivity|]. eauto.
        -- apply IH; [assumption|]. now apply enqueue_puzzle_arcs.
      * now apply IH.
Qed.

Lemma all_arcs_puzzle_arcs (cw : Crossword) : puzzle_arcs cw (rev (all_arcs cw)).
Proof.
  intros x y Hin. apply in_rev in Hin. unfold all_arcs in Hin.
  apply in_flat_map in Hin. destruct Hin as (v & Hv & Hin).
  apply in_map_iff in Hin. destruct Hin as (n & E & Hn).
  injection E as <- <-. auto.
Qed.

Lemma ac3_in_solve (cw : Crossword) :
  WellFormed cw ->
  exists d2 b,
    ac3 cw (enforce_node_consistency (init_domains cw)) None = (d2, Ret b) /\
    node_consistent cw d2 /\
    domains_le d2 (enforce_node_consistency (init_domains cw)) /\
    (b = false -> exists x, In x (variables cw) /\ dget x d2 = Some []).
Proof.
  intros W.
  pose proof (init_node_consistent cw W) as NC.
  pose proof (ac3_loop_terminates cw
                (ac3_fuel cw (enforce_node_consistency (init_domains cw)) (all_arcs cw))
                (enforce_node_consistency (init_domains cw))
                (rev (all_arcs cw))) as T.
  pose proof (ac3_loop_le cw
                (ac3_fuel cw (enforce_node_consistency (init_domains cw)) (all_arcs cw))
                (enforce_node_consistency (init_domains cw))
                (rev (all_arcs cw))) as LE.
  destruct (ac3_loop_on_puzzle cw
              (ac3_fuel cw (enforce_node_consistency (init_domains cw)) (all_arcs cw))
              W _ _ NC (all_arcs_puzzle_arcs cw)) as (d2 & o & E & NC2 & H).
  unfold ac3. simpl initial_arcs. rewrite E in *. simpl in T, LE.
  assert (T' : o <> Timeout).
  { apply T. unfold ac3_fuel. rewrite length_rev. lia. }
  destruct H as [->|[->|[-> H]]]; [congruence | |].
  - exists d2, true. split; [reflexivity|]. split; [assumption|].
    split; [assumption|]. intros C. discriminate C.
  - exists d2, false. split; [reflexivity|]. split; [assumption|].
    split; [assumption|]. intros _. exact H.
Qed.

Lemma key_lt_iff (a b : nat * Z) :
  key_lt a b = true <->
  fst a < fst b \/ (fst a = fst b /\ (snd a < snd b)%Z).
Proof.
  unfold key_lt. rewrite orb_true_iff, andb_true_iff.
  rewrite Nat.ltb_lt, Nat.eqb_eq, Z.ltb_lt. reflexivity.
Qed.

Lemma key_lt_false_iff (a b : nat * Z) :
  key_lt a b = false <->
  fst b < fst a \/ (fst a = fst b /\ (snd b <= snd a)%Z).
Proof.
  destruct (key_lt a b) eqn:E.
  - apply key_lt_iff in E. split; [discriminate | lia].
  - split; [intros _ | reflexivity].
    assert (N : ~ (fst a < fst b \/ (fst a = fst b /\ (snd a < snd b)%Z))).
    { rewrite <- key_lt_iff. congruence. }
    lia.
Qed.

(** [min] returns an element whose key no other element undercuts. *)
Lemma min_loop_minimal (cw : Crossword) (domains : Domains) (rest : list Var) :
  (forall u, In u rest -> exists ku, select_key cw domains u = Ret ku) ->
  forall (best : Var) (kb : nat * Z),
    select_key cw domains best = Ret kb ->
    exists var kv,
      min_loop cw domains rest best kb = Ret var /\
      select_key cw domains var = Ret kv /\
      key_lt kb kv = false /\
      forall u ku, In u rest -> select_key cw domains u = Ret ku ->
                   key_lt ku kv = false.
Proof.
  induction rest as [|v r IH]; intros Hk best kb Kb; simpl.
  - exists best, kb. split; [reflexivity|]. split; [assumption|].
    split; [|intros u ku []].
    apply key_lt_false_iff. lia.
  - destruct (Hk v (or_introl eq_refl)) as [kv Kv]. rewrite Kv. simpl.
    assert (Hk' : forall u, In u r -> exists ku, select_key cw domains u = Ret ku)
      by (intros u Hu; apply Hk; now right).
    destruct (key_lt kv kb) eqn:L.
    + destruct (IH Hk' v kv Kv) as (var & kvar & M & Kvar & L1 & L2).
      exists var, kvar. split; [assumption|]. split; [assumption|].
      apply key_lt_iff in L. apply key_lt_false_iff in L1.
      split; [apply key_lt_false_iff; lia|].
      intros u ku [<-|Hu] Ku; [|now apply (L2 u)].
      rewrite Kv in Ku. injection Ku as <-. apply key_lt_false_iff. lia.
    + destruct (IH Hk' best kb Kb) as (var & kvar & M & Kvar & L1 & L2).
      exists var, kvar. split; [assumption|]. split; [assumption|].
      split; [assumption|].
      intros u ku [<-|Hu] Ku; [|now apply (L2 u)].
      rewrite Kv in Ku. injection Ku as <-.
      apply key_lt_false_iff in L, L1. apply key_lt_false_iff. lia.
Qed.

Lemma select_key_returns (cw : Crossword) (d : Domains) (v : Var) :
  node_consistent cw d -> In v (variables cw) ->
  exists ws, dget v d = Some ws /\
    select_key cw d v
    = Ret (List.length ws, (- Z.of_nat (List.length (neighbors cw v)))%Z).
Proof.
  intros NC Hv. destruct (node_consistent_get cw d v NC Hv) as [ws G].
  exists ws. split; [assumption|]. unfold select_key. now rewrite G.
Qed.

(** On an incomplete assignment [select_unassigned_variable] returns an
    unassigned variable with a domain of the least size. *)
Lemma select_returns (cw : Crossword) (d : Domains) (a : Assignment) :
  node_consistent cw d -> assignment_complete cw a = false ->
  exists var ws,
    select_unassigned_variable cw d a = Ret var /\
    In var (variables cw) /\ ~ In var (Dict.keys a) /\
    dget var d = Some ws /\
    forall u wu, In u (variables cw) -> ~ In u (Dict.keys a) ->
                 dget u d = Some wu -> List.length ws <= List.length wu.
Proof.
  intros NC AC.
  assert (U : forall u, In u (unassigned cw a) <->
                        In u (variables cw) /\ ~ In u (Dict.keys a)).
  { intros u. unfold unassigned. rewrite filter_In, negb_true_iff.
    unfold amem. now rewrite mem_false_iff. }
  assert (K : forall u, In u (unassigned cw a) ->
                        exists ku, select_key cw d u = Ret ku).
  { intros u Hu. apply U in Hu.
    destruct (select_key_returns cw d u NC (proj1 Hu)) as (ws & _ & E). eauto. }
  unfold select_unassigned_variable.
  destruct (unassigned cw a) as [|v r] eqn:E.
  - exfalso. unfold assignment_complete in AC.
    assert (C : forallb (fun var => amem var a) (variables cw) = true).
    { apply forallb_forall. intros u Hu.
      destruct (amem u a) eqn:M; [reflexivity|].
      exfalso. apply (proj2 (U u)).
      split; [assumption | now apply mem_false_iff in M]. }
    congruence.
  - destruct (K v (or_introl eq_refl)) as [kv Kv]. rewrite Kv. simpl.
    destruct (min_loop_minimal cw d r (fun u Hu => K u (or_intror Hu)) v kv Kv)
      as (var & kvar & M & Kvar & L1 & L2).
    pose proof (min_loop_In cw d r v kv var M) as Hin.
    assert (Hvar : In var (v :: r)) by (destruct Hin as [->|Hin]; [now left | now right]).
    apply U in Hvar. destruct Hvar as [Hvar Hfresh].
    destruct (select_key_returns cw d var NC Hvar) as (ws & G & Eq).
    exists var, ws. repeat split; try assumption.
    intros u wu Hu Hfu Gu.
    assert (Hu' : In u (v :: r)) by (apply U; auto).
    assert (Ku : select_key cw d u
                 = Ret (List.length wu, (- Z.of_nat (List.length (neighbors cw u)))%Z))
      by (unfold select_key; now rewrite Gu).
    rewrite Eq in Kvar. injection Kvar as <-.
    destruct Hu' as [<-|Hu'].
    + rewrite Kv in Ku. injection Ku as ->.
      apply key_lt_false_iff in L1. simpl in L1. lia.
    + pose proof (L2 u _ Hu' Ku) as L. apply key_lt_false_iff in L. simpl in L. lia.
Qed.

(** The words of an assignment fit their slots. *)
Lemma drawn_lengths (cw : Crossword) (d : Domains) (a : Assignment) :
  node_consistent cw d -> drawn_from cw d a -> lengths_match a.
Proof.
  intros [_ NC] [_ D] v w Hin. destruct (D v w Hin) as (_ & ws & G & Hw).
  now destruct (proj2 (NC v ws G) w Hw).
Qed.

Lemma consistent_neighbors_returns (cw : Crossword) (a : Assignment) (var : Var)
    (w : word) :
  WellFormed cw -> lengths_match a ->
  In var (variables cw) -> String.length w = var_length var ->
  forall ns, incl ns (neighbors cw var) ->
    exists b, consistent_neighbors cw a var w ns = Ret b.
Proof.
  intros W L Hv Lw. induction ns as [|n r IH]; intros I; simpl; [eauto|].
  assert (I' : incl r (neighbors cw var)) by (intros x Hx; apply I; now right).
  unfold amem, Dict.mem. fold (aget n a).
  destruct (aget n a) as [wn|] eqn:G; [|now apply IH].
  destruct (wf_neighbor_overlap cw var n W Hv (I n (or_introl eq_refl)))
    as (i & j & O & Hi & Hj & _).
  rewrite O.
  destruct (get_in_range i w) as [c Gc]; [lia|]. rewrite Gc. simpl.
  apply get_In in G. apply L in G.
  destruct (get_in_range j wn) as [c' Gc']; [lia|]. rewrite Gc'. simpl.
  destruct (Ascii.eqb c c'); [now apply IH | eauto].
Qed.

Lemma consistent_returns (cw : Crossword) (a : Assignment) :
  WellFormed cw -> lengths_match a ->
  (forall v w, In (v, w) a -> In v (variables cw)) ->
  exists b, consistent cw a = Ret b.
Proof.
  intros W L V. unfold consistent.
  assert (H : incl a a) by apply incl_refl. revert H.
  generalize a at 1 4 as items.
  induction items as [|[v w] r IH]; intros I; simpl; [eauto|].
  assert (Hin : In (v, w) a) by (apply I; now left).
  rewrite (L v w Hin), Nat.eqb_refl. simpl.
  destruct (1 <? count_occ string_dec (Dict.values a) w); [eauto|].
  destruct (consistent_neighbors_returns cw a v w W L (V v w Hin) (L v w Hin)
              (neighbors cw v) (incl_refl _)) as [b ->].
  simpl. destruct b; [|eauto].
  apply IH. intros x Hx. apply I. now right.
Qed.

Lemma drawn_from_extend (cw : Crossword) (d : Domains) (a : Assignment)
    (var : Var) (value : word) (ws : list word) :
  drawn_from cw d a -> In var (variables cw) -> ~ In var (Dict.keys a) ->
  dget var d = Some ws -> In value ws ->
  drawn_from cw d (a ++ [(var, value)]).
Proof.
  intros [ND D] Hv Hf G Hw. split.
  - unfold Dict.keys in *. rewrite map_app. simpl.
    apply NoDup_app; [assumption | constructor; [tauto | constructor] |].
    intros x Hx [<-|[]]. contradiction.
  - intros v w Hin. apply in_app_iff in Hin. destruct Hin as [Hin|[E|[]]].
    + now apply D.
    + injection E as <- <-. eauto.
Qed.

Lemma unassigned_extend (cw : Crossword) (a : Assignment) (var : Var) (value : word) :
  In var (variables cw) -> ~ In var (Dict.keys a) ->
  List.length (unassigned cw (a ++ [(var, value)])) < List.length (unassigned cw a).
Proof.
  intros Hv Hf. unfold unassigned.
  assert (M : forall u, amem u (a ++ [(var, value)])
                        = amem u a || Var_eqb u var).
  { intros u. unfold amem, Dict.mem, Var_eqb.
    induction a as [|[k w] a IH]; simpl.
    - destruct (Var_eq_dec u var); reflexivity.
    - destruct (Var_eq_dec u k); [reflexivity|]. apply IH.
      intros C. apply Hf. now right. }
  assert (Mv : amem var a = false) by now apply mem_false_iff.
  induction (variables cw) as [|u l IH]; [destruct Hv|]. simpl.
  rewrite M.
  assert (LE : forall l', List.length (filter (fun v => negb (amem v (a ++ [(var, value)]))) l')
                         <= List.length (filter (fun v => negb (amem v a)) l')).
  { induction l' as [|x l' IHl]; simpl; [lia|]. rewrite M.
    destruct (amem x a); simpl; [exact IHl|].
    destruct (Var_eqb x var); simpl; lia. }
  destruct Hv as [->|Hv].
  - rewrite Mv. unfold Var_eqb. destruct (Var_eq_dec var var); [|congruence].
    simpl. specialize (LE l). lia.
  - specialize (IH Hv). destruct (amem u a); simpl; [exact IH|].
    destruct (Var_eqb u var); simpl; lia.
Qed.

(** The loop of [backtrack] returns when the checker and the recursive call
    do. *)
Lemma try_values_returns (cw : Crossword)
    (recurse : Assignment -> Assignment * outcome (option Assignment))
    (var : Var) (a : Assignment) :
  restores recurse -> ~ In var (Dict.keys a) ->
  forall values : list word,
    (forall value, In value values ->
       (exists b, consistent cw (a ++ [(var, value)]) = Ret b) /\
       (exists a' r, recurse (a ++ [(var, value)]) = (a', Ret r))) ->
    exists a' r, try_values cw recurse var values a = (a', Ret r).
Proof.
  intros Hrec Hf. induction values as [|value rest IH]; intros H; simpl; [eauto|].
  unfold aset, adel. rewrite (set_fresh Var_eq_dec var value a Hf).
  assert (U : Dict.del Var_eq_dec var (a ++ [(var, value)]) = Some a)
    by now apply del_last_fresh.
  assert (IH' : exists a' r, try_values cw recurse var rest a = (a', Ret r))
    by (apply IH; intros v Hv; apply H; now right).
  destruct (H value (or_introl eq_refl)) as [[b C] (a2 & r & R)].
  rewrite C. destruct b; [|now rewrite U].
  rewrite R. destruct (truthy r) eqn:T; [eauto|].
  specialize (Hrec _ _ _ R). destruct r as [s|].
  - destruct Hrec as [-> Hlen]. rewrite length_app in Hlen. simpl in Hlen.
    destruct a2; [simpl in Hlen; lia | discriminate].
  - subst a2. now rewrite U.
Qed.

Lemma backtrack_fuel_returns (cw : Crossword) (d : Domains) :
  WellFormed cw -> node_consistent cw d ->
  forall (fuel : nat) (a : Assignment),
    drawn_from cw d a -> List.length (unassigned cw a) < fuel ->
    exists a' r, backtrack_fuel fuel cw d a = (a', Ret r).
Proof.
  intros W NC. induction fuel as [|fuel IH]; intros a D Hf; [lia|]. simpl.
  destruct (assignment_complete cw a) eqn:AC; [eauto|].
  destruct (select_returns cw d a NC AC) as (var & ws & Sel & Hv & Hfresh & G & _).
  rewrite Sel.
  rewrite (order_domain_values_eq cw d var a ws G (proj1 (proj2 NC var ws G))).
  2:{ intros n Hn _ C.
      destruct (wf_neighbor_overlap cw var n W Hv Hn) as (_ & _ & _ & _ & _ & Hnv & _).
      destruct (node_consistent_get cw d n NC Hnv) as [wn Gn]. congruence. }
  apply try_values_returns; [apply backtrack_fuel_restores | assumption |].
  intros value Hval.
  assert (Hw : In value ws)
    by (eapply Permutation_in; [apply sorted_perm | exact Hval]).
  pose proof (drawn_from_extend cw d a var value ws D Hv Hfresh G Hw) as D'.
  split.
  - apply consistent_returns; [assumption | eapply drawn_lengths; eassumption |].
    intros v w Hin. exact (proj1 (proj2 D' v w Hin)).
  - apply IH; [assumption|].
    pose proof (unassigned_extend cw a var value Hv Hfresh). lia.
Qed.

Lemma order_values_in_solve (cw : Crossword) (d : Domains) (var : Var)
    (a : Assignment) :
  WellFormed cw -> node_consistent cw d -> In var (variables cw) ->
  exists ws, dget var d = Some ws /\
    order_domain_values cw d var a = Ret (sorted (lcv_count cw d a var) ws).
Proof.
  intros W NC Hv. destruct (node_consistent_get cw d var NC Hv) as [ws G].
  exists ws. split; [assumption|].
  apply order_domain_values_eq; [assumption | exact (proj1 (proj2 NC var ws G)) |].
  intros n Hn _ C.
  destruct (wf_neighbor_overlap cw var n W Hv Hn) as (_ & _ & _ & _ & _ & Hnv & _).
  destruct (node_consistent_get cw d n NC Hnv) as [wn Gn]. congruence.
Qed.

Lemma try_values_drawn (cw : Crossword) (d : Domains)
    (recurse : Assignment -> Assignment * outcome (option Assignment))
    (var : Var) (a : Assignment) (ws : list word) :
  restores recurse ->
  (forall a1 a' s, drawn_from cw d a1 -> recurse a1 = (a', Ret (Some s)) ->
                   drawn_from cw d s) ->
  drawn_from cw d a -> In var (variables cw) -> ~ In var (Dict.keys a) ->
  dget var d = Some ws ->
  forall (values : list word) (a' s : Assignment),
    incl values ws ->
    try_values cw recurse var values a = (a', Ret (Some s)) ->
    drawn_from cw d s.
Proof.
  intros Hres Hrec D Hv Hf G.
  induction values as [|value rest IH]; intros a' s I; simpl; [discriminate|].
  unfold aset, adel. rewrite (set_fresh Var_eq_dec var value a Hf).
  assert (U : Dict.del Var_eq_dec var (a ++ [(var, value)]) = Some a)
    by now apply del_last_fresh.
  assert (I' : incl rest ws) by (intros x Hx; apply I; now right).
  pose proof (drawn_from_extend cw d a var value ws D Hv Hf G
                (I value (or_introl eq_refl))) as D1.
  destruct (consistent cw (a ++ [(var, value)])) as [[|]|e|]; try discriminate.
  - destruct (recurse (a ++ [(var, value)])) as [a2 o] eqn:R.
    destruct o as [result|e|]; try discriminate.
    destruct (truthy result) eqn:T.
    + intros H. injection H as <- ->. exact (Hrec _ _ _ D1 R).
    + specialize (Hres _ _ _ R). destruct result as [s'|].
      * destruct Hres as [-> Hlen]. rewrite length_app in Hlen. simpl in Hlen.
        destruct a2; [simpl in Hlen; lia | discriminate].
      * subst a2. rewrite U. now apply IH.
  - rewrite U. now apply IH.
Qed.

Lemma backtrack_fuel_drawn (cw : Crossword) (d : Domains) :
  WellFormed cw -> node_consistent cw d ->
  forall (fuel : nat) (a a' s : Assignment),
    drawn_from cw d a ->
    backtrack_fuel fuel cw d a = (a', Ret (Some s)) ->
    drawn_from cw d s.
Proof.
  intros W NC. induction fuel as [|fuel IH]; intros a a' s D; simpl; [discriminate|].
  destruct (assignment_complete cw a).
  - intros H. now injection H as <- <-.
  - destruct (select_unassigned_variable cw d a) as [var|e|] eqn:Sel; try discriminate.
    apply select_unassigned in Sel. destruct Sel as [Hv Hf].
    destruct (order_values_in_solve cw d var a W NC Hv) as (ws & G & ->).
    intros H.
    eapply (try_values_drawn cw d _ var a ws);
      [apply backtrack_fuel_restores | | exact D | exact Hv | exact Hf | exact G
       | | exact H].
    + intros a1 a1' s1 D1 R. exact (IH _ _ _ D1 R).
    + intros x Hx. eapply Permutation_in; [apply sorted_perm | exact Hx].
Qed.

Lemma drawn_from_empty (cw : Crossword) (d : Domains) : drawn_from cw d [].
Proof. split; [constructor | intros v w []]. Qed.

(** With an empty domain in the store the search gives up at its root. *)
Lemma backtrack_empty_domain (cw : Crossword) (d : Domains) (x : Var) :
  WellFormed cw -> node_consistent cw d ->
  In x (variables cw) -> dget x d = Some [] ->
  backtrack cw d [] = ([], Ret None).
Proof.
  intros W NC Hx Gx. unfold backtrack. simpl.
  destruct (assignment_complete cw []) eqn:AC.
  - unfold assignment_complete in AC. rewrite forallb_forall in AC.
    specialize (AC x Hx). discriminate.
  - destruct (select_returns cw d [] NC AC) as (var & ws & Sel & Hv & _ & G & Min).
    rewrite Sel.
    destruct (order_values_in_solve cw d var [] W NC Hv) as (ws' & G' & ->).
    rewrite G in G'. injection G' as <-.
    specialize (Min x [] Hx (fun C => C) Gx). simpl in Min.
    destruct ws; [reflexivity | simpl in Min; lia].
Qed.

Lemma solve_eq_search (cw : Crossword) (d2 : Domains) (b : bool) :
  ac3 cw (enforce_node_consistency (init_domains cw)) None = (d2, Ret b) ->
  solve cw = snd (backtrack cw d2 []) /\
  solve_run cw =
    mkSolveRun (enforce_node_consistency (init_domains cw)) d2 (Ret b)
               (Some (backtrack cw d2 [])).
Proof.
  intros E. unfold solve, solve_run. rewrite E. split; reflexivity.
Qed.

(** What [solve] returns is a solution. *)
Lemma solve_returns_solution (cw : Crossword) (s : Assignment) :
  WellFormed cw -> solve cw = Ret (Some s) -> solution cw s.
Proof.
  intros W H.
  destruct (solve_sound cw s H) as [AC C].
  destruct (consistent_true_spec cw s W C) as (L & Dw & A).
  destruct (ac3_in_solve cw W) as (d2 & b & E & NC & _).
  destruct (solve_eq_search cw d2 b E) as [Es _]. rewrite Es in H.
  unfold backtrack in H.
  destruct (backtrack_fuel (S (List.length (variables cw))) cw d2 []) as [a' r] eqn:B.
  simpl in H. subst r.
  pose proof (backtrack_fuel_drawn cw d2 W NC _ _ _ _ (drawn_from_empty cw d2) B)
    as [ND D].
  split; [assumption|]. split; [now apply assignment_complete_spec|].
  split; [|auto].
  intros v w Hin. destruct (D v w Hin) as (Hv & ws & G & Hw).
  split; [assumption|]. now destruct (proj2 (proj2 NC v ws G) w Hw).
Qed.

Lemma unassigned_length (cw : Crossword) (a : Assignment) :
  List.length (unassigned cw a) <= List.length (variables cw).
Proof. unfold unassigned. apply filter_length_le. Qed.

(** C3, as the code has it. On a well-formed puzzle [solve] runs node
    consistency and [ac3] from all arcs, which returns a verdict; whatever the
    verdict, [solve] then enters the search from the empty assignment and
    returns what the search returns, without raising.  The verdict false
    comes with an empty domain, and the search then returns [None] at its
    root; when the puzzle has no solution [solve] returns [None]. *)
Theorem solve_searches_and_returns (cw : Crossword) :
  well_formed cw = true ->
  exists (d2 : Domains) (b : bool) (a' : Assignment) (r : option Assignment),
    ac3 cw (enforce_node_consistency (init_domains cw)) None = (d2, Ret b) /\
    backtrack cw d2 [] = (a', Ret r) /\
    solve_run cw =
      mkSolveRun (enforce_node_consistency (init_domains cw)) d2 (Ret b)
                 (Some (a', Ret r)) /\
    solve cw = Ret r /\
    (b = false ->
     (exists x, In x (variables cw) /\ dget x d2 = Some []) /\
     a' = [] /\ r = None) /\
    ((forall s, ~ solution cw s) -> r = None).
Proof.
  intros W. apply well_formed_spec in W.
  destruct (ac3_in_solve cw W) as (d2 & b & E & NC & _ & Hb).
  destruct (backtrack_fuel_returns cw d2 W NC (S (List.length (variables cw))) [])
    as (a' & r & B).
  { apply drawn_from_empty. }
  { pose proof (unassigned_length cw []). lia. }
  fold (backtrack cw d2 []) in B.
  destruct (solve_eq_search cw d2 b E) as [Es Er]. rewrite B in Es, Er. simpl in Es.
  exists d2, b, a', r.
  split; [assumption|]. split; [assumption|]. split; [assumption|].
  split; [assumption|]. split.
  - intros ->. destruct (Hb eq_refl) as (x & Hx & Gx).
    rewrite (backtrack_empty_domain cw d2 x W NC Hx Gx) in B.
    injection B as <- <-. eauto.
  - intros N. destruct r as [s|]; [|reflexivity].
    exfalso. apply (N s). now apply solve_returns_solution.
Qed.

Lemma solve_searches_and_returns_witness :
  exists (d2 : Domains) (b : bool) (a' : Assignment) (r : option Assignment),
    ac3 Examples.cw_dog (enforce_node_consistency (init_domains Examples.cw_dog)) None
    = (d2, Ret b) /\
    backtrack Examples.cw_dog d2 [] = (a', Ret r) /\
    solve_run Examples.cw_dog =
      mkSolveRun (enforce_node_consistency (init_domains Examples.cw_dog)) d2 (Ret b)
                 (Some (a', Ret r)) /\
    solve Examples.cw_dog = Ret r /\
    (b = false ->
     (exists x, In x (variables Examples.cw_dog) /\ dget x d2 = Some []) /\
     a' = [] /\ r = None) /\
    ((forall s, ~ solution Examples.cw_dog s) -> r = None).
Proof.
  apply (solve_searches_and_returns Examples.cw_dog).
  vm_compute. reflexivity.
Defined.

(** C3, as stated, fails: on the puzzle with the vocabulary CAT, DOG the
    propagation empties a domain and reports failure, and [solve] enters the
    search all the same. *)
Lemma solve_searches_after_failed_ac3 :
  well_formed Examples.cw_dog = true /\
  ac3_verdict (solve_run Examples.cw_dog) = Ret false /\
  dget Examples.B (after_ac3 (solve_run Examples.cw_dog)) = Some [] /\
  search (solve_run Examples.cw_dog) = Some ([], Ret None) /\
  search (solve_run Examples.cw_dog) <> None.
Proof.
  repeat split; try (vm_compute; reflexivity). vm_compute. discriminate.
Qed.

(** ** The search finds a solution when there is one *)

Lemma init_domain_of (cw : Crossword) (v : Var) :
  WellFormed cw -> In v (variables cw) ->
  dget v (enforce_node_consistency (init_domains cw))
  = Some (filter (fun w => String.length w =? var_length v) (words cw)).
Proof.
  intros W Hv.
  assert (K : Dict.keys (init_domains cw) = variables cw).
  { unfold Dict.keys, init_domains. rewrite map_map. simpl. apply map_id. }
  rewrite enforce_node_consistency_map by (rewrite K; apply (wf_variables W)).
  unfold init_domains. rewrite map_map. simpl. unfold dget. clear K.
  induction (variables cw) as [|u l IH]; [destruct Hv|]. simpl.
  destruct (Var_eq_dec v u) as [->|Hne]; [reflexivity|].
  apply IH. destruct Hv; congruence.
Qed.

Lemma solution_within_init (cw : Crossword) (s : Assignment) :
  WellFormed cw -> solution cw s ->
  within (enforce_node_consistency (init_domains cw)) s.
Proof.
  intros W (_ & _ & V & L & _) v w Hin.
  destruct (V v w Hin) as [Hv Hw].
  rewrite (init_domain_of cw v W Hv). eexists. split; [reflexivity|].
  apply filter_In. split; [assumption|]. apply Nat.eqb_eq. now apply L.
Qed.

Lemma solution_get (cw : Crossword) (s : Assignment) (v : Var) (w : word) :
  solution cw s -> In (v, w) s -> aget v s = Some w.
Proof. intros (ND & _) Hin. now apply In_get_NoDup. Qed.

(** [revise] keeps the words of a solution, however the call ends: the word of
    [x] is supported by the word of [y]. *)
Lemma revise_loop_within (i j : nat) (x y : Var) (s : Assignment) (wx wy : word) :
  x <> y -> NoDup (Dict.keys s) ->
  aget x s = Some wx -> aget y s = Some wy -> agree i j wx wy ->
  forall (copy : list word) (d : Domains) (revised : bool),
    within d s -> within (fst (revise_loop i j x y copy d revised)) s.
Proof.
  intros Hxy ND Sx Sy A. induction copy as [|w rest IH]; intros d revised Wi; simpl;
    [assumption|].
  destruct (dget y d) as [dy|] eqn:Gy; [|assumption].
  destruct (has_overlap i j w dy) as [[|]|e|] eqn:HO; try assumption.
  - now apply IH.
  - destruct (dget x d) as [dx|] eqn:Gx; [|assumption].
    destruct (set_remove w dx) as [dx'|] eqn:R; [|assumption].
    apply set_remove_Some in R. destruct R as [Hin ->].
    apply IH. intros v wv Hv.
    destruct (Wi v wv Hv) as (ws & G & Hw).
    unfold dget, dset. destruct (Var_eq_dec v x) as [->|Hne].
    + rewrite get_set_same. eexists. split; [reflexivity|].
      rewrite Gx in G. injection G as <-.
      apply in_in_remove; [|assumption].
      intros <-. apply has_overlap_Ret in HO.
      assert (E : wv = wx).
      { apply (In_get_NoDup Var_eq_dec) in Hv; [|assumption].
        unfold aget in Sx. congruence. }
      subst wv.
      assert (T : supportedb i j wx dy = true).
      { apply supportedb_iff. exists wy. split; [|assumption].
        apply get_In in Sy. destruct (Wi y wy Sy) as (ws' & G' & Hw').
        congruence. }
      congruence.
    + rewrite get_set_other by assumption. eauto.
Qed.

Lemma revise_within (cw : Crossword) (d : Domains) (x y : Var) (s : Assignment) :
  WellFormed cw -> solution cw s -> within d s ->
  within (fst (revise cw d x y)) s.
Proof.
  intros W Sol Wi. unfold revise.
  destruct (overlap_of cw x y) as [[[i j]|]|] eqn:O; try assumption.
  destruct (dget x d) as [dx|]; [|assumption].
  destruct (wf_keys W _ _ _ O) as (Hx & Hy & Hxy).
  destruct Sol as (ND & C & _ & _ & _ & A).
  destruct (C x Hx) as [wx Sx]. destruct (C y Hy) as [wy Sy].
  apply (revise_loop_within i j x y s wx wy); auto.
  exact (A x y i j wx wy O Sx Sy).
Qed.

Lemma ac3_loop_within (cw : Crossword) (s : Assignment) (fuel : nat) :
  WellFormed cw -> solution cw s ->
  forall (d : Domains) (arcs : list Arc),
    within d s -> within (fst (ac3_loop fuel cw d arcs)) s.
Proof.
  intros W Sol. induction fuel as [|fuel IH]; intros d arcs Wi; simpl; [assumption|].
  destruct arcs as [|[x y] rest]; [assumption|].
  pose proof (revise_within cw d x y s W Sol Wi) as Wi1.
  destruct (revise cw d x y) as [d1 o]. simpl in Wi1.
  destruct o as [[|]|e|]; simpl; try assumption.
  - destruct (dget x d1) as [dx|]; [|assumption].
    destruct (List.length dx =? 0); [assumption | now apply IH].
  - now apply IH.
Qed.

(** In a dictionary whose words are distinct, a word determines its key. *)
Lemma distinct_words_key (s : Assignment) (v1 v2 : Var) (w : word) :
  NoDup (Dict.values s) -> In (v1, w) s -> In (v2, w) s -> v1 = v2.
Proof.
  unfold Dict.values. induction s as [|[k u] s IH]; simpl; [tauto|].
  intros ND H1 H2. inversion ND as [|? ? Hni ND']; subst.
  assert (N : forall v, In (v, u) s -> False).
  { intros v Hv. apply Hni. change u with (snd (v, u)). now apply in_map. }
  destruct H1 as [E1|H1]; destruct H2 as [E2|H2].
  - congruence.
  - injection E1 as -> ->. exfalso. eapply N; eassumption.
  - injection E2 as -> ->. exfalso. eapply N; eassumption.
  - auto.
Qed.

Lemma sub_assignment_distinct (a s : Assignment) :
  NoDup (Dict.keys a) -> NoDup (Dict.values s) -> incl a s ->
  NoDup (Dict.values a).
Proof.
  unfold Dict.keys, Dict.values. intros NDk NDs.
  induction a as [|[k u] a IH]; intros I; simpl; [constructor|].
  inversion NDk as [|? ? Hni NDk']; subst.
  constructor.
  - intros C. apply in_map_iff in C. destruct C as ([k' u'] & E & Hin).
    simpl in E. subst u'.
    assert (k' = k).
    { apply (distinct_words_key s k' k u NDs); apply I; [now right | now left]. }
    subst k'. apply Hni. change k with (fst (k, u)). now apply in_map.
  - apply IH; [assumption|]. intros x Hx. apply I. now right.
Qed.

(** The checker accepts every part of a solution. *)
Lemma consistent_part_of_solution (cw : Crossword) (a s : Assignment) :
  WellFormed cw -> solution cw s -> NoDup (Dict.keys a) -> incl a s ->
  consistent cw a = Ret true.
Proof.
  intros W Sol NDa I.
  pose proof Sol as (NDs & _ & V & L & Dw & A).
  pose proof (sub_assignment_distinct a s NDa Dw I) as Da.
  unfold consistent.
  assert (H : incl a a) by apply incl_refl. revert H.
  generalize a at 1 4 as items.
  induction items as [|[v w] r IH]; intros Ia; simpl; [reflexivity|].
  assert (Hin : In (v, w) s) by (apply I, Ia; now left).
  rewrite (L v w Hin), Nat.eqb_refl. simpl.
  pose proof (proj1 (NoDup_count_occ string_dec (Dict.values a)) Da w) as Cn.
  destruct (Nat.ltb_spec 1 (count_occ string_dec (Dict.values a) w)) as [C|_]; [lia|].
  assert (N : forall ns, incl ns (neighbors cw v) ->
                         consistent_neighbors cw a v w ns = Ret true).
  { induction ns as [|n ns IHn]; intros In'; simpl; [reflexivity|].
    assert (In'' : incl ns (neighbors cw v)) by (intros x Hx; apply In'; now right).
    unfold amem, Dict.mem. fold (aget n a).
    destruct (aget n a) as [wn|] eqn:G; [|now apply IHn].
    destruct (wf_neighbor_overlap cw v n W (proj1 (V v w Hin))
                (In' n (or_introl eq_refl))) as (i & j & O & _).
    rewrite O.
    assert (Sn : aget n s = Some wn)
      by (apply (solution_get cw); [assumption | apply I; now apply get_In in G]).
    assert (Sv : aget v s = Some w) by now apply (solution_get cw).
    destruct (A v n i j w wn O Sv Sn) as (c & G1 & G2).
    rewrite G1. simpl. rewrite G2. simpl. rewrite Ascii.eqb_refl. now apply IHn. }
  rewrite (N _ (incl_refl _)). simpl.
  apply IH. intros x Hx. apply Ia. now right.
Qed.

Lemma try_values_finds (cw : Crossword)
    (recurse : Assignment -> Assignment * outcome (option Assignment))
    (var : Var) (a : Assignment) (good : word) :
  restores recurse -> ~ In var (Dict.keys a) ->
  consistent cw (a ++ [(var, good)]) = Ret true ->
  (exists a' s', recurse (a ++ [(var, good)]) = (a', Ret (Some s'))) ->
  forall values : list word,
    In good values ->
    (forall value, In value values ->
       (exists b, consistent cw (a ++ [(var, value)]) = Ret b) /\
       (exists a' r, recurse (a ++ [(var, value)]) = (a', Ret r))) ->
    exists a' s', try_values cw recurse var values a = (a', Ret (Some s')).
Proof.
  intros Hres Hf Cg (ag & sg & Rg).
  induction values as [|value rest IH]; intros Hin H; [destruct Hin|]. simpl.
  unfold aset, adel. rewrite (set_fresh Var_eq_dec var value a Hf).
  assert (U : Dict.del Var_eq_dec var (a ++ [(var, value)]) = Some a)
    by now apply del_last_fresh.
  assert (H' : forall v, In v rest ->
             (exists b, consistent cw (a ++ [(var, v)]) = Ret b) /\
             (exists a' r, recurse (a ++ [(var, v)]) = (a', Ret r)))
    by (intros v Hv; apply H; now right).
  destruct (H value (or_introl eq_refl)) as [[b C] (a2 & r & R)].
  rewrite C. destruct b.
  - rewrite R. pose proof (Hres _ _ _ R) as Q. destruct r as [s'|].
    + destruct Q as [-> Hlen]. rewrite length_app in Hlen. simpl in Hlen.
      destruct a2 as [|e a2]; [simpl in Hlen; lia|]. simpl. eauto.
    + subst a2. simpl. rewrite U.
      destruct Hin as [->|Hin]; [congruence | now apply IH].
  - rewrite U. destruct Hin as [->|Hin]; [congruence | now apply IH].
Qed.

Lemma backtrack_fuel_finds (cw : Crossword) (d : Domains) (s : Assignment) :
  WellFormed cw -> node_consistent cw d -> solution cw s -> within d s ->
  forall (fuel : nat) (a : Assignment),
    drawn_from cw d a -> incl a s -> List.length (unassigned cw a) < fuel ->
    exists a' s', backtrack_fuel fuel cw d a = (a', Ret (Some s')).
Proof.
  intros W NC Sol Wi. induction fuel as [|fuel IH]; intros a D I Hf; [lia|]. simpl.
  destruct (assignment_complete cw a) eqn:AC; [eauto|].
  destruct (select_returns cw d a NC AC) as (var & ws & Sel & Hv & Hfresh & G & _).
  rewrite Sel.
  destruct (order_values_in_solve cw d var a W NC Hv) as (ws' & G' & ->).
  rewrite G in G'. injection G' as <-.
  pose proof Sol as (NDs & C & _).
  destruct (C var Hv) as [good Sg]. apply get_In in Sg.
  destruct (Wi var good Sg) as (ws' & G' & Hg).
  rewrite G in G'. injection G' as <-.
  assert (Ext : forall value, In value ws ->
            drawn_from cw d (a ++ [(var, value)]) /\
            List.length (unassigned cw (a ++ [(var, value)])) < fuel).
  { intros value Hw. split.
    - now apply (drawn_from_extend cw d a var value ws).
    - pose proof (unassigned_extend cw a var value Hv Hfresh). lia. }
  assert (Ig : incl (a ++ [(var, good)]) s).
  { intros x Hx. apply in_app_iff in Hx. destruct Hx as [Hx|[<-|[]]]; auto. }
  apply (try_values_finds cw _ var a good).
  - apply backtrack_fuel_restores.
  - assumption.
  - apply (consistent_part_of_solution cw _ s W Sol); [|assumption].
    exact (proj1 (proj1 (Ext good Hg))).
  - destruct (Ext good Hg) as [Dg Fg]. exact (IH _ Dg Ig Fg).
  - eapply Permutation_in; [symmetry; apply sorted_perm | exact Hg].
  - intros value Hval.
    assert (Hw : In value ws)
      by (eapply Permutation_in; [apply sorted_perm | exact Hval]).
    destruct (Ext value Hw) as [Dv Fv]. split.
    + apply consistent_returns; [assumption | eapply drawn_lengths; eassumption |].
      intros v w Hin. exact (proj1 (proj2 Dv v w Hin)).
    + now apply backtrack_fuel_returns.
Qed.

(** [solve] finds a solution whenever the puzzle has one. *)
Lemma solve_finds (cw : Crossword) (s : Assignment) :
  WellFormed cw -> solution cw s -> exists s', solve cw = Ret (Some s').
Proof.
  intros W Sol.
  destruct (ac3_in_solve cw W) as (d2 & b & E & NC & _).
  assert (Wi : within d2 s).
  { pose proof (ac3_loop_within cw s
                  (ac3_fuel cw (enforce_node_consistency (init_domains cw)) (all_arcs cw))
                  W Sol _ (rev (all_arcs cw)) (solution_within_init cw s W Sol)) as H.
    unfold ac3 in E. simpl initial_arcs in E. rewrite E in H. exact H. }
  destruct (solve_eq_search cw d2 b E) as [Es _]. rewrite Es. unfold backtrack.
  destruct (backtrack_fuel_finds cw d2 s W NC Sol Wi
              (S (List.length (variables cw))) [])
    as (a' & s' & B).
  - apply drawn_from_empty.
  - intros x [].
  - pose proof (unassigned_length cw []). lia.
  - rewrite B. simpl. eauto.
Qed.

(** ** Two runs on one puzzle *)

Lemma solution_same_puzzle (cw1 cw2 : Crossword) (s : Assignment) :
  same_puzzle cw1 cw2 -> solution cw1 s -> solution cw2 s.
Proof.
  intros (Hv & Hw & Ho) (ND & C & V & L & D & A).
  split; [assumption|]. split; [|split; [|split; [assumption|split; [assumption|]]]].
  - intros v Hin. apply C. now apply Hv.
  - intros v w Hin. destruct (V v w Hin) as [H1 H2].
    split; [now apply Hv | now apply Hw].
  - intros x y i j wx wy O. apply A. now rewrite Ho.
Qed.

Lemma same_puzzle_sym (cw1 cw2 : Crossword) :
  same_puzzle cw1 cw2 -> same_puzzle cw2 cw1.
Proof.
  intros (Hv & Hw & Ho). split; [|split].
  - intros v. symmetry. apply Hv.
  - intros w. symmetry. apply Hw.
  - intros x y. symmetry. apply Ho.
Qed.

Lemma solve_returns (cw : Crossword) :
  WellFormed cw -> exists r, solve cw = Ret r.
Proof.
  intros W.
  destruct (ac3_in_solve cw W) as (d2 & b & E & NC & _).
  destruct (backtrack_fuel_returns cw d2 W NC (S (List.length (variables cw))) [])
    as (a' & r & B).
  - apply drawn_from_empty.
  - pose proof (unassigned_length cw []). lia.
  - destruct (solve_eq_search cw d2 b E) as [Es _]. rewrite Es.
    unfold backtrack. rewrite B. simpl. eauto.
Qed.

(** C8, as the code has it. The result of [solve] is a function of the puzzle,
    the vocabulary and the order in which the sets of variables, words and
    neighbors are iterated.  Two runs on one well-formed puzzle and
    vocabulary, whatever their iteration orders, both return, both with an
    assignment or both with [None], and an assignment that either returns is a
    solution of the puzzle. *)
Theorem solve_same_kind_of_result (cw1 cw2 : Crossword) :
  well_formed cw1 = true -> well_formed cw2 = true -> same_puzzle cw1 cw2 ->
  exists r1 r2 : option Assignment,
    solve cw1 = Ret r1 /\ solve cw2 = Ret r2 /\
    (r1 = None <-> r2 = None) /\
    (forall s, r1 = Some s \/ r2 = Some s -> solution cw1 s /\ solution cw2 s).
Proof.
  intros W1 W2 Same. apply well_formed_spec in W1, W2.
  destruct (solve_returns cw1 W1) as [r1 E1].
  destruct (solve_returns cw2 W2) as [r2 E2].
  exists r1, r2. split; [assumption|]. split; [assumption|].
  assert (S1 : forall s, r1 = Some s -> solution cw1 s)
    by (intros s ->; now apply solve_returns_solution).
  assert (S2 : forall s, r2 = Some s -> solution cw2 s)
    by (intros s ->; now apply solve_returns_solution).
  split; [split|].
  - intros ->. destruct r2 as [s2|]; [|reflexivity]. exfalso.
    pose proof (solution_same_puzzle cw2 cw1 s2 (same_puzzle_sym _ _ Same)
                  (S2 s2 eq_refl)) as Sol.
    destruct (solve_finds cw1 s2 W1 Sol) as [s' F]. congruence.
  - intros ->. destruct r1 as [s1|]; [|reflexivity]. exfalso.
    pose proof (solution_same_puzzle cw1 cw2 s1 Same (S1 s1 eq_refl)) as Sol.
    destruct (solve_finds cw2 s1 W2 Sol) as [s' F]. congruence.
  - intros s [E|E].
    + split; [now apply S1|]. apply (solution_same_puzzle cw1 cw2); auto.
    + split; [|now apply S2].
      apply (solution_same_puzzle cw2 cw1); [now apply same_puzzle_sym | auto].
Qed.

Lemma cat_same_puzzle : same_puzzle Examples.cw_cat Examples.cw_cat'.
Proof.
  split; [|split].
  - intros v. reflexivity.
  - intros w. simpl. tauto.
  - intros x y. reflexivity.
Qed.

Lemma solve_same_kind_of_result_witness :
  exists r1 r2 : option Assignment,
    solve Examples.cw_cat = Ret r1 /\ solve Examples.cw_cat' = Ret r2 /\
    (r1 = None <-> r2 = None) /\
    (forall s, r1 = Some s \/ r2 = Some s ->
               solution Examples.cw_cat s /\ solution Examples.cw_cat' s).
Proof.
  apply (solve_same_kind_of_result Examples.cw_cat Examples.cw_cat').
  - vm_compute. reflexivity.
  - vm_compute. reflexivity.
  - split; [|split].
    + intros v. reflexivity.
    + intros w. simpl. tauto.
    + intros x y. reflexivity.
Defined.

(** C8, as stated, fails: the vocabulary CAT, CAR, ARC, TEN iterated in two
    orders gives two different assignments for the same puzzle.  Python
    iterates a set of strings in the order of their hashes, which change from
    one run of the interpreter to the next. *)
Lemma solve_depends_on_iteration_order :
  well_formed Examples.cw_cat = true /\
  well_formed Examples.cw_cat' = true /\
  same_puzzle Examples.cw_cat Examples.cw_cat' /\
  solve Examples.cw_cat
  = Ret (Some [(Examples.B, "ARC"%string); (Examples.A, "CAT"%string)]) /\
  solve Examples.cw_cat'
  = Ret (Some [(Examples.B, "ARC"%string); (Examples.A, "CAR"%string)]) /\
  solve Examples.cw_cat <> solve Examples.cw_cat'.
Proof.
  split; [vm_compute; reflexivity|]. split; [vm_compute; reflexivity|].
  split; [exact cat_same_puzzle|].
  split; [vm_compute; reflexivity|]. split; [vm_compute; reflexivity|].
  vm_compute. discriminate.
Qed.

(** ** The search terminates *)

Lemma bind_no_timeout {A B : Type} (m : outcome A) (k : A -> outcome B) :
  m <> Timeout -> (forall a, k a <> Timeout) -> bind m k <> Timeout.
Proof.
  intros Hm Hk. destruct m; simpl; [apply Hk | discriminate | congruence].
Qed.

Lemma of_option_no_timeout {A : Type} (e : exn) (o : option A) :
  of_option e o <> Timeout.
Proof. destruct o; discriminate. Qed.

Lemma consistent_neighbors_no_timeout (cw : Crossword) (a : Assignment)
    (var : Var) (w : word) (ns : list Var) :
  consistent_neighbors cw a var w ns <> Timeout.
Proof.
  induction ns as [|n r IH]; simpl; [discriminate|].
  destruct (amem n a); [|assumption].
  destruct (overlap_of cw var n) as [[[i j]|]|]; try discriminate.
  apply bind_no_timeout; [apply of_option_no_timeout|]. intros c.
  apply bind_no_timeout; [apply of_option_no_timeout|]. intros w'.
  apply bind_no_timeout; [apply of_option_no_timeout|]. intros c'.
  destruct (Ascii.eqb c c'); [assumption | discriminate].
Qed.

Lemma consistent_no_timeout (cw : Crossword) (a : Assignment) :
  consistent cw a <> Timeout.
Proof.
  unfold consistent. generalize a at 2 as items.
  induction items as [|[v w] r IH]; simpl; [discriminate|].
  destruct (negb (String.length w =? var_length v)); [discriminate|].
  destruct (1 <? count_occ string_dec (Dict.values a) w); [discriminate|].
  apply bind_no_timeout; [apply consistent_neighbors_no_timeout|].
  intros [|]; [assumption | discriminate].
Qed.

Lemma select_no_timeout (cw : Crossword) (d : Domains) (a : Assignment) :
  select_unassigned_variable cw d a <> Timeout.
Proof.
  assert (K : forall v, select_key cw d v <> Timeout).
  { intros v. unfold select_key.
    apply bind_no_timeout; [apply of_option_no_timeout | discriminate]. }
  assert (M : forall rest best k, min_loop cw d rest best k <> Timeout).
  { induction rest as [|v r IH]; intros best k; simpl; [discriminate|].
    apply bind_no_timeout; [apply K|]. intros kv.
    destruct (key_lt kv k); apply IH. }
  unfold select_unassigned_variable.
  destruct (unassigned cw a) as [|v r]; [discriminate|].
  apply bind_no_timeout; [apply K | intros kv; apply M].
Qed.

Lemma order_domain_values_no_timeout (cw : Crossword) (d : Domains) (var : Var)
    (a : Assignment) :
  order_domain_values cw d var a <> Timeout.
Proof.
  assert (L : forall w ns, lcv_sum d a w ns <> Timeout).
  { intros w. induction ns as [|n r IH]; simpl; [discriminate|].
    destruct (amem n a); [assumption|].
    apply bind_no_timeout; [apply of_option_no_timeout|]. intros dn.
    apply bind_no_timeout; [assumption | discriminate]. }
  assert (B : forall ws h, build_heuristics cw d a var ws h <> Timeout).
  { induction ws as [|w r IH]; intros h; simpl; [discriminate|].
    apply bind_no_timeout; [apply L | intros n; apply IH]. }
  unfold order_domain_values.
  apply bind_no_timeout; [apply of_option_no_timeout|]. intros ws.
  apply bind_no_timeout; [apply B | discriminate].
Qed.

Lemma try_values_no_timeout (cw : Crossword)
    (recurse : Assignment -> Assignment * outcome (option Assignment))
    (var : Var) (a : Assignment) :
  restores recurse -> ~ In var (Dict.keys a) ->
  (forall value, snd (recurse (a ++ [(var, value)])) <> Timeout) ->
  forall values : list word,
    snd (try_values cw recurse var values a) <> Timeout.
Proof.
  intros Hres Hf Hrec. induction values as [|value rest IH]; simpl; [discriminate|].
  unfold aset, adel. rewrite (set_fresh Var_eq_dec var value a Hf).
  assert (U : Dict.del Var_eq_dec var (a ++ [(var, value)]) = Some a)
    by now apply del_last_fresh.
  pose proof (consistent_no_timeout cw (a ++ [(var, value)])) as C.
  destruct (consistent cw (a ++ [(var, value)])) as [[|]|e|];
    [| now rewrite U | discriminate | congruence].
  specialize (Hrec value).
  destruct (recurse (a ++ [(var, value)])) as [a2 o] eqn:R. simpl in Hrec.
  destruct o as [r|e|]; [| discriminate | congruence].
  destruct (truthy r) eqn:T; [discriminate|].
  specialize (Hres _ _ _ R). destruct r as [s|].
  - destruct Hres as [-> Hlen]. rewrite length_app in Hlen. simpl in Hlen.
    destruct a2; [simpl in Hlen; lia | discriminate].
  - subst a2. now rewrite U.
Qed.

Lemma backtrack_fuel_terminates (cw : Crossword) (d : Domains) (fuel : nat) :
  forall a : Assignment,
    List.length (unassigned cw a) < fuel ->
    snd (backtrack_fuel fuel cw d a) <> Timeout.
Proof.
  induction fuel as [|fuel IH]; intros a Hf; [lia|]. simpl.
  destruct (assignment_complete cw a); [discriminate|].
  pose proof (select_no_timeout cw d a) as Sel.
  destruct (select_unassigned_variable cw d a) as [var|e|] eqn:E;
    [| discriminate | congruence].
  apply select_unassigned in E. destruct E as [Hv Hfresh].
  pose proof (order_domain_values_no_timeout cw d var a) as O.
  destruct (order_domain_values cw d var a) as [values|e|];
    [| discriminate | congruence].
  apply try_values_no_timeout;
    [apply backtrack_fuel_restores | assumption |].
  intros value. apply IH.
  pose proof (unassigned_extend cw a var value Hv Hfresh). lia.
Qed.

(** The budget of [backtrack] is never used up. *)
Lemma backtrack_terminates (cw : Crossword) (d : Domains) (a : Assignment) :
  snd (backtrack cw d a) <> Timeout.
Proof.
  apply backtrack_fuel_terminates.
  pose proof (unassigned_length cw a). lia.
Qed.

(** [solve] never runs out of budget, on any puzzle. *)
Lemma solve_terminates (cw : Crossword) : solve cw <> Timeout.
Proof.
  unfold solve.
  pose proof (ac3_loop_terminates cw
                (ac3_fuel cw (enforce_node_consistency (init_domains cw)) (all_arcs cw))
                (enforce_node_consistency (init_domains cw))
                (rev (all_arcs cw))) as T.
  unfold ac3. simpl initial_arcs.
  destruct (ac3_loop _ cw _ _) as [d2 o]. simpl in T.
  destruct o as [b|e|]; [apply backtrack_terminates | discriminate |].
  exfalso. apply T; [|reflexivity]. unfold ac3_fuel. rewrite length_rev. lia.
Qed.

(** * Further properties of the solver *)

(** ** The store before the search *)

Lemma get_map_values {V W : Type} (f : Var -> V -> W) (v : Var) (d : Dict.t Var V) :
  Dict.get Var_eq_dec v (map (fun e => (fst e, f (fst e) (snd e))) d)
  = match Dict.get Var_eq_dec v d with
    | Some x => Some (f v x)
    | None => None
    end.
Proof.
  induction d as [|[k x] d IH]; simpl; [reflexivity|].
  destruct (Var_eq_dec v k) as [->|]; [reflexivity | exact IH].
Qed.

Lemma init_domains_get (cw : Crossword) (v : Var) :
  dget v (init_domains cw)
  = if var_in v (variables cw) then Some (words cw) else None.
Proof.
  destruct (var_in v (variables cw)) eqn:E.
  - apply var_in_iff in E. unfold dget, init_domains.
    induction (variables cw) as [|u l IH]; [destruct E|]. simpl.
    destruct (Var_eq_dec v u) as [->|Hne]; [reflexivity|].
    apply IH. destruct E; congruence.
  - apply get_None_keys. unfold Dict.keys, init_domains.
    rewrite map_map. simpl. rewrite map_id.
    intros C. apply var_in_iff in C. congruence.
Qed.

Lemma init_domains_node_consistent_get (cw : Crossword) (v : Var) :
  NoDup (variables cw) ->
  dget v (enforce_node_consistency (init_domains cw))
  = if var_in v (variables cw)
    then Some (filter (fun w => String.length w =? var_length v) (words cw))
    else None.
Proof.
  intros ND.
  assert (K : Dict.keys (init_domains cw) = variables cw).
  { unfold Dict.keys, init_domains. rewrite map_map. simpl. apply map_id. }
  rewrite enforce_node_consistency_map by now rewrite K.
  unfold dget.
  rewrite (get_map_values
             (fun k ws => filter (fun w => String.length w =? var_length k) ws)).
  fold (dget v (init_domains cw)). rewrite init_domains_get.
  destruct (var_in v (variables cw)); reflexivity.
Qed.

(** X1. After [__init__] and [enforce_node_consistency] a variable of the
    puzzle has a domain, and a word is in it exactly when it is a word of the
    vocabulary that has the length of the slot; the domain is a set when the
    vocabulary is.  What is not a variable has no domain.  Nothing is said of
    the order in which the domain is iterated. *)
Theorem initial_domains_by_length (cw : Crossword) (v : Var) :
  NoDup (variables cw) ->
  if var_in v (variables cw)
  then exists ws,
      dget v (enforce_node_consistency (init_domains cw)) = Some ws /\
      (forall w, In w ws <->
                 In w (words cw) /\ String.length w = var_length v) /\
      (NoDup (words cw) -> NoDup ws)
  else dget v (enforce_node_consistency (init_domains cw)) = None.
Proof.
  intros ND. rewrite (init_domains_node_consistent_get cw v ND).
  destruct (var_in v (variables cw)); [|reflexivity].
  eexists. split; [reflexivity|]. split.
  - intros w. rewrite filter_In, Nat.eqb_eq. reflexivity.
  - apply NoDup_filter.
Qed.

Lemma initial_domains_by_length_witness :
  exists ws,
    dget Examples.A (enforce_node_consistency (init_domains Examples.cw_mixed))
    = Some ws /\
    In "CAT"%string ws /\ In "DOG"%string ws /\
    ~ In "AT"%string ws /\ ~ In "HOUSE"%string ws /\
    NoDup ws.
Proof.
  assert (ND : NoDup (variables Examples.cw_mixed)) by (simpl; nodup_list).
  destruct (initial_domains_by_length Examples.cw_mixed Examples.A ND)
    as (ws & E & M & N).
  exists ws. split; [exact E|].
  split; [apply M; split; [simpl; tauto | reflexivity]|].
  split; [apply M; split; [simpl; tauto | reflexivity]|].
  split; [intros C; apply M in C; destruct C as [_ C]; discriminate C|].
  split; [intros C; apply M in C; destruct C as [_ C]; discriminate C|].
  apply N. simpl. nodup_list.
Defined.



(** ** What the verdict of a revision and of [ac3] tells *)

Lemma revise_false_unchanged (cw : Crossword) (d d' : Domains) (x y : Var) :
  revise cw d x y = (d', Ret false) -> d' = d.
Proof.
  intros R. unfold revise in R.
  destruct (overlap_of cw x y) as [[[i j]|]|]; try discriminate.
  - destruct (dget x d) as [dx|]; [|discriminate].
    destruct (revise_loop_others _ _ _ _ _ _ _ _ _ R) as (_ & _ & H).
    now apply H.
  - now injection R as <-.
Qed.

(** X3. [revise] returns false exactly when it leaves the store as it was:
    a call that returns true has removed a word. *)
Theorem revise_false_iff_unchanged (cw : Crossword) (domains domains' : Domains)
    (x y : Var) (b : bool) :
  revise cw domains x y = (domains', Ret b) ->
  (b = false <-> domains' = domains).
Proof.
  intros R. split.
  - intros ->. now apply (revise_false_unchanged cw domains domains' x y).
  - intros ->. destruct b; [|reflexivity].
    destruct (revise_measure cw domains domains x y (Ret true) R) as (_ & _ & _ & H).
    destruct (H eq_refl) as [L _]. lia.
Qed.

Lemma revise_false_iff_unchanged_witness :
  let d := enforce_node_consistency (init_domains Examples.cw_cat) in
  true = false <-> dset Examples.A ["CAT"; "CAR"]%string d = d.
Proof.
  intros d.
  apply (revise_false_iff_unchanged Examples.cw_cat d
           (dset Examples.A ["CAT"; "CAR"]%string d) Examples.A Examples.B true).
  vm_compute. reflexivity.
Defined.

Lemma ac3_loop_false_empty (cw : Crossword) (fuel : nat) :
  forall (d d' : Domains) (arcs : list Arc),
    ac3_loop fuel cw d arcs = (d', Ret false) ->
    exists x y o, overlap_of cw x y = Some o /\ dget x d' = Some [].
Proof.
  induction fuel as [|fuel IH]; intros d d' arcs; simpl; [discriminate|].
  destruct arcs as [|[x y] rest]; [discriminate|].
  destruct (revise cw d x y) as [d1 o] eqn:R.
  destruct o as [[|]|e|]; try discriminate; [|apply IH].
  destruct (dget x d1) as [dx|] eqn:G; [|discriminate].
  destruct dx as [|w dx]; simpl; [|apply IH].
  intros H. injection H as <-.
  unfold revise in R. destruct (overlap_of cw x y) as [o|] eqn:O; [|discriminate].
  eauto.
Qed.

Lemma revise_only_x (cw : Crossword) (d d' : Domains) (x y : Var) (o : outcome bool) :
  revise cw d x y = (d', o) -> forall v, v <> x -> dget v d' = dget v d.
Proof.
  unfold revise.
  destruct (overlap_of cw x y) as [[[i j]|]|];
    try (intros H; now injection H as <- <-).
  destruct (dget x d) as [dx|]; [|intros H; now injection H as <- <-].
  intros R. now destruct (revise_loop_others _ _ _ _ _ _ _ _ _ R).
Qed.

Lemma ac3_loop_true_nonempty (cw : Crossword) (fuel : nat) :
  forall (d d' : Domains) (arcs : list Arc),
    ac3_loop fuel cw d arcs = (d', Ret true) ->
    forall v dv, dget v d = Some dv -> dv <> [] ->
      exists dv', dget v d' = Some dv' /\ dv' <> [].
Proof.
  induction fuel as [|fuel IH]; intros d d' arcs; simpl; [discriminate|].
  destruct arcs as [|[x y] rest].
  - intros H. injection H as <-. eauto.
  - destruct (revise cw d x y) as [d1 o] eqn:R.
    destruct o as [[|]|e|]; try discriminate.
    + destruct (dget x d1) as [dx|] eqn:G; [|discriminate].
      destruct dx as [|w dx]; simpl; [discriminate|].
      intros H v dv Gv Hne.
      assert (G1 : exists d1v, dget v d1 = Some d1v /\ d1v <> []).
      { destruct (Var_eq_dec v x) as [->|Hvx].
        - exists (w :: dx). split; [assumption | discriminate].
        - exists dv. split; [|assumption].
          now rewrite (revise_only_x cw d d1 x y _ R v Hvx). }
      destruct G1 as (d1v & G1 & Hne1). exact (IH _ _ _ H v d1v G1 Hne1).
    + intros H v dv Gv Hne.
      apply revise_false_unchanged in R. subst d1. exact (IH _ _ _ H v dv Gv Hne).
Qed.

(** X4. The verdict of [ac3] and the empty domains, for every store and
    seed: the verdict false comes with an empty domain in the store, and with
    the verdict true every domain that was not empty before the call is not
    empty after it. *)
Theorem ac3_verdict_and_empty_domains (cw : Crossword) (domains domains' : Domains)
    (arcs : option (list Arc)) (b : bool) :
  ac3 cw domains arcs = (domains', Ret b) ->
  if b then
    forall v dv, dget v domains = Some dv -> dv <> [] ->
      exists dv', dget v domains' = Some dv' /\ dv' <> []
  else exists x, dget x domains' = Some [].
Proof.
  unfold ac3. intros H. destruct b.
  - exact (ac3_loop_true_nonempty cw _ _ _ _ H).
  - destruct (ac3_loop_false_empty cw _ _ _ _ H) as (x & _ & _ & _ & G). eauto.
Qed.

Lemma ac3_verdict_and_empty_domains_witness :
  exists x,
    dget x (fst (ac3 Examples.cw_dog
                   (enforce_node_consistency (init_domains Examples.cw_dog)) None))
    = Some [].
Proof.
  apply (ac3_verdict_and_empty_domains Examples.cw_dog
           (enforce_node_consistency (init_domains Examples.cw_dog)) _ None false).
  vm_compute. reflexivity.
Defined.

(** X5. Propagation never removes a word that a solution uses: when every
    word of a solution is in the domain of its variable before [ac3], it
    still is afterwards, for every seed and however the call ends. *)
Theorem ac3_keeps_solutions (cw : Crossword) (domains : Domains)
    (arcs : option (list Arc)) (s : Assignment) :
  well_formed cw = true -> solution cw s -> within domains s ->
  within (fst (ac3 cw domains arcs)) s.
Proof.
  intros W Sol Wi. apply well_formed_spec in W.
  unfold ac3. now apply ac3_loop_within.
Qed.

Lemma ac3_keeps_solutions_witness :
  within
    (fst (ac3 Examples.cw_cat
            (enforce_node_consistency (init_domains Examples.cw_cat)) None))
    [(Examples.B, "ARC"%string); (Examples.A, "CAT"%string)].
Proof.
  assert (W : well_formed Examples.cw_cat = true) by (vm_compute; reflexivity).
  apply (ac3_keeps_solutions Examples.cw_cat
           (enforce_node_consistency (init_domains Examples.cw_cat)) None
           [(Examples.B, "ARC"%string); (Examples.A, "CAT"%string)] W).
  - apply solve_returns_solution; [now apply well_formed_spec|].
    vm_compute. reflexivity.
  - intros v w H. simpl in H. destruct H as [H|[H|[]]]; injection H as <- <-;
      eexists; (split; [vm_compute; reflexivity | simpl; tauto]).
Defined.

(** X6. A failed propagation proves that the puzzle cannot be solved from the
    store: when [ac3] returns false, no solution has all its words in the
    domains the call started from; started from the store that [solve]
    builds, the puzzle has no solution at all. *)
Theorem ac3_failure_means_unsolvable (cw : Crossword) (domains domains' : Domains)
    (arcs : option (list Arc)) :
  well_formed cw = true ->
  ac3 cw domains arcs = (domains', Ret false) ->
  (forall s, solution cw s -> ~ within domains s) /\
  (domains = enforce_node_consistency (init_domains cw) ->
   forall s, ~ solution cw s).
Proof.
  intros W H. apply well_formed_spec in W.
  assert (G : forall s, solution cw s -> ~ within domains s).
  { intros s Sol Wi.
    pose proof (ac3_loop_within cw s
                  (ac3_fuel cw domains (initial_arcs cw arcs)) W Sol domains
                  (rev (initial_arcs cw arcs)) Wi) as Wi'.
    unfold ac3 in H. rewrite H in Wi'. simpl in Wi'.
    destruct (ac3_loop_false_empty cw _ _ _ _ H) as (x & y & o & O & Gx).
    destruct (wf_keys W _ _ _ O) as (Hx & _).
    destruct Sol as (_ & C & _). destruct (C x Hx) as [w Sx].
    apply get_In in Sx. destruct (Wi' x w Sx) as (ws & Gw & Hin).
    rewrite Gx in Gw. injection Gw as <-. destruct Hin. }
  split; [exact G|].
  intros -> s Sol. apply (G s Sol). now apply solution_within_init.
Qed.

Lemma ac3_failure_means_unsolvable_witness :
  (forall s, solution Examples.cw_dog s ->
             ~ within (enforce_node_consistency (init_domains Examples.cw_dog)) s) /\
  (enforce_node_consistency (init_domains Examples.cw_dog)
   = enforce_node_consistency (init_domains Examples.cw_dog) ->
   forall s, ~ solution Examples.cw_dog s).
Proof.
  apply (ac3_failure_means_unsolvable Examples.cw_dog
           (enforce_node_consistency (init_domains Examples.cw_dog))
           (fst (ac3 Examples.cw_dog
                   (enforce_node_consistency (init_domains Examples.cw_dog)) None))
           None).
  - vm_compute. reflexivity.
  - vm_compute. reflexivity.
Defined.

Lemma revise_consistent_arc (cw : Crossword) (d : Domains) (x y : Var) :
  WellFormed cw -> node_consistent cw d -> arc_consistent cw d ->
  In x (variables cw) -> In y (neighbors cw x) ->
  revise cw d x y = (d, Ret false).
Proof.
  intros W NC AC Hx Hy.
  destruct (revise_on_puzzle_arc cw d x y W NC Hx Hy) as (d1 & b & R).
  destruct (wf_neighbor_overlap cw x y W Hx Hy) as (i & j & O & _ & _ & Hyv & Hxy).
  destruct (node_consistent_get cw d x NC Hx) as [dx Gx].
  destruct (node_consistent_get cw d y NC Hyv) as [dy Gy].
  assert (B : b = false).
  { pose proof R as R'. unfold revise in R'. rewrite O, Gx in R'.
    destruct (revise_loop_spec i j x y dy Hxy dx d d1 false b dx Gx Gy R')
      as (_ & _ & ->).
    simpl. apply not_true_is_false. intros C. apply existsb_exists in C.
    destruct C as (w & Hw & C). apply negb_true_iff in C.
    pose proof (AC x y i j O dx dy Gx Gy w Hw) as Sup.
    apply supportedb_iff in Sup. congruence. }
  subst b. pose proof (revise_false_unchanged cw d d1 x y R) as ->. exact R.
Qed.

Lemma ac3_loop_fixpoint (cw : Crossword) (d : Domains) :
  WellFormed cw -> node_consistent cw d -> arc_consistent cw d ->
  forall (arcs : list Arc) (fuel : nat),
    puzzle_arcs cw arcs -> List.length arcs < fuel ->
    ac3_loop fuel cw d arcs = (d, Ret true).
Proof.
  intros W NC AC. induction arcs as [|[x y] rest IH]; intros fuel P Hf;
    (destruct fuel as [|fuel]; [lia|]); simpl; [reflexivity|].
  destruct (P x y (or_introl eq_refl)) as [Hx Hy].
  rewrite (revise_consistent_arc cw d x y W NC AC Hx Hy).
  apply IH; [|simpl in Hf; lia].
  intros p q Hin. apply P. now right.
Qed.

(** X7. Propagation is idempotent: after [ac3] has returned true on a
    node-consistent store of a well-formed puzzle, a second call returns true
    and changes nothing. *)
Theorem ac3_idempotent (cw : Crossword) (domains domains' : Domains) :
  well_formed cw = true -> node_consistent cw domains ->
  ac3 cw domains None = (domains', Ret true) ->
  ac3 cw domains' None = (domains', Ret true).
Proof.
  intros W NC H. apply well_formed_spec in W. unfold ac3 in *. simpl initial_arcs in *.
  destruct (ac3_loop_on_puzzle cw (ac3_fuel cw domains (all_arcs cw)) W
              domains (rev (all_arcs cw)) NC (all_arcs_puzzle_arcs cw))
    as (d2 & o & E & NC2 & _).
  rewrite H in E. injection E as <- _.
  assert (AC : arc_consistent cw domains').
  { eapply ac3_loop_arc_consistent; [exact W | | exact H].
    apply all_arcs_pending; [exact W|]. intros a Ha. now apply in_rev in Ha. }
  apply ac3_loop_fixpoint; auto.
  - apply all_arcs_puzzle_arcs.
  - unfold ac3_fuel. rewrite length_rev. lia.
Qed.

Lemma ac3_idempotent_witness :
  let d := enforce_node_consistency (init_domains Examples.cw_cat) in
  ac3 Examples.cw_cat (fst (ac3 Examples.cw_cat d None)) None
  = (fst (ac3 Examples.cw_cat d None), Ret true).
Proof.
  intros d.
  assert (W : well_formed Examples.cw_cat = true) by (vm_compute; reflexivity).
  apply (ac3_idempotent Examples.cw_cat d _ W).
  - apply init_node_consistent. now apply well_formed_spec.
  - vm_compute. reflexivity.
Defined.

Lemma revise_loop_empty_y (i j : nat) (x y : Var) :
  x <> y ->
  forall (copy : list word) (d : Domains) (revised : bool) (dx : list word),
    dget x d = Some dx -> dget y d = Some [] ->
    NoDup copy -> incl copy dx ->
    exists d' b, revise_loop i j x y copy d revised = (d', Ret b).
Proof.
  intros Hxy. induction copy as [|w rest IH]; intros d revised dx Gx Gy ND I; simpl.
  - eauto.
  - rewrite Gy. simpl. rewrite Gx. unfold set_remove.
    destruct (in_dec string_dec w dx) as [_|C]; [|exfalso; apply C, I; now left].
    inversion ND as [|? ? Hni ND']; subst.
    apply (IH _ _ (remove string_dec w dx)).
    + apply get_set_same.
    + unfold dget, dset. rewrite get_set_other by congruence. exact Gy.
    + assumption.
    + intros a Ha. apply in_in_remove; [|apply I; now right].
      intros ->. contradiction.
Qed.

(** X8. [revise] against an empty domain of [y] empties the domain of [x]:
    no comparison is made, so every word of [x] goes, whatever its length,
    and the call returns true unless [x] had no word. *)
Theorem revise_against_empty_domain (cw : Crossword) (domains : Domains)
    (x y : Var) (i j : nat) (dx : list word) :
  overlap_of cw x y = Some (Some (i, j)) ->
  x <> y ->
  dget x domains = Some dx ->
  dget y domains = Some [] ->
  NoDup dx ->
  exists domains',
    revise cw domains x y
    = (domains', Ret (match dx with [] => false | _ :: _ => true end)) /\
    dget x domains' = Some [] /\
    forall v, v <> x -> dget v domains' = dget v domains.
Proof.
  intros O Hxy Gx Gy ND.
  destruct (revise_loop_empty_y i j x y Hxy dx domains false dx Gx Gy ND
              (incl_refl dx)) as (d' & b & R).
  destruct (revise_loop_spec i j x y [] Hxy dx domains d' false b dx Gx Gy R)
    as (H1 & H2 & H3).
  exists d'. split; [|split; [|exact H2]].
  - unfold revise. rewrite O, Gx, R. f_equal. f_equal. rewrite H3.
    destruct dx; reflexivity.
  - rewrite H1. f_equal.
    assert (F : forall l : list word,
               (forall w, In w l -> In w dx) ->
               filter (fun w => negb (word_in w dx) || supportedb i j w []) l = []).
    { induction l as [|w l IHl]; intros Hl; [reflexivity|]. simpl.
      assert (E : word_in w dx = true) by (apply word_in_iff, Hl; now left).
      rewrite E. simpl. apply IHl. intros a Ha. apply Hl. now right. }
    apply F. auto.
Qed.

Lemma revise_against_empty_domain_witness :
  let d := dset Examples.B [] (init_domains Examples.cw_cat) in
  exists domains',
    revise Examples.cw_cat d Examples.A Examples.B = (domains', Ret true) /\
    dget Examples.A domains' = Some [] /\
    forall v, v <> Examples.A -> dget v domains' = dget v d.
Proof.
  intros d.
  apply (revise_against_empty_domain Examples.cw_cat d Examples.A Examples.B 1 0
           ["CAT"; "CAR"; "ARC"; "TEN"]%string).
  - reflexivity.
  - discriminate.
  - reflexivity.
  - reflexivity.
  - nodup_list.
Defined.

(** ** The choice of the next variable *)

Lemma select_key_inv (cw : Crossword) (d : Domains) (u : Var) (k : nat * Z) :
  select_key cw d u = Ret k ->
  exists wu, dget u d = Some wu /\
    k = (List.length wu, (- Z.of_nat (List.length (neighbors cw u)))%Z).
Proof.
  unfold select_key. destruct (dget u d) as [wu|]; simpl; [|discriminate].
  intros H. injection H as <-. eauto.
Qed.

Lemma min_loop_keys (cw : Crossword) (d : Domains) (rest : list Var) :
  forall (best : Var) (kb : nat * Z) (var : Var),
    min_loop cw d rest best kb = Ret var ->
    forall u, In u rest -> exists ku, select_key cw d u = Ret ku.
Proof.
  induction rest as [|v r IH]; intros best kb var H u Hu; [destruct Hu|].
  simpl in H. destruct (select_key cw d v) as [kv|e|] eqn:Kv; simpl in H;
    try discriminate.
  destruct Hu as [<-|Hu]; [eauto|].
  destruct (key_lt kv kb); eapply IH; eassumption.
Qed.

(** [min] returns the first element of least key. *)
Lemma min_loop_first (cw : Crossword) (d : Domains) (rest : list Var) :
  forall (best : Var) (kb : nat * Z) (var : Var),
    min_loop cw d rest best kb = Ret var ->
    (var = best /\
     forall u ku, In u rest -> select_key cw d u = Ret ku -> key_lt ku kb = false) \/
    (exists pre post kv,
        rest = pre ++ var :: post /\ select_key cw d var = Ret kv /\
        key_lt kv kb = true /\
        (forall u ku, In u pre -> select_key cw d u = Ret ku -> key_lt kv ku = true) /\
        (forall u ku, In u post -> select_key cw d u = Ret ku -> key_lt ku kv = false)).
Proof.
  induction rest as [|v r IH]; intros best kb var H; simpl in H.
  - injection H as <-. left. split; [reflexivity | intros u ku []].
  - destruct (select_key cw d v) as [kv|e|] eqn:Kv; simpl in H; try discriminate.
    destruct (key_lt kv kb) eqn:L.
    + right. destruct (IH _ _ _ H) as [[-> F]|(pre & post & kvar & E & Kvar & L1 & F1 & F2)].
      * exists [], r, kv. repeat split; auto; intros u ku [].
      * exists (v :: pre), post, kvar. subst r.
        apply key_lt_iff in L, L1.
        split; [reflexivity|]. split; [assumption|].
        split; [apply key_lt_iff; lia|]. split; [|assumption].
        intros u ku [<-|Hu] Ku; [|now apply (F1 u)].
        rewrite Kv in Ku. injection Ku as <-. apply key_lt_iff. lia.
    + destruct (IH _ _ _ H) as [[-> F]|(pre & post & kvar & E & Kvar & L1 & F1 & F2)].
      * left. split; [reflexivity|].
        intros u ku [<-|Hu] Ku; [|now apply (F u)].
        rewrite Kv in Ku. now injection Ku as <-.
      * right. exists (v :: pre), post, kvar. subst r.
        apply key_lt_false_iff in L. apply key_lt_iff in L1.
        split; [reflexivity|]. split; [assumption|].
        split; [apply key_lt_iff; lia|]. split; [|assumption].
        intros u ku [<-|Hu] Ku; [|now apply (F1 u)].
        rewrite Kv in Ku. injection Ku as <-. apply key_lt_iff. lia.
Qed.

Lemma key_lt_preferred (cw : Crossword) (d : Domains) (var u : Var)
    (kv ku : nat * Z) :
  select_key cw d var = Ret kv -> select_key cw d u = Ret ku ->
  (key_lt kv ku = true -> preferred true cw d var u) /\
  (key_lt ku kv = false -> preferred false cw d var u).
Proof.
  intros Kv Ku.
  destruct (select_key_inv cw d var kv Kv) as (ws & Gv & ->).
  destruct (select_key_inv cw d u ku Ku) as (wu & Gu & ->).
  split; intros L; exists ws, wu; (split; [assumption|]); (split; [assumption|]).
  - apply key_lt_iff in L. simpl in L. lia.
  - apply key_lt_false_iff in L. simpl in L. lia.
Qed.

(** X9. [select_unassigned_variable] picks by minimum remaining values, then
    by degree, then by position: the variable it returns is unassigned, it
    comes strictly before every unassigned variable that precedes it in the
    iteration order of the variables (smaller domain, or equal domain and
    more neighbors) and at least as early as every one that follows it. *)
Theorem select_minimum_remaining_values (cw : Crossword) (domains : Domains)
    (assignment : Assignment) (var : Var) :
  select_unassigned_variable cw domains assignment = Ret var ->
  exists pre post,
    unassigned cw assignment = pre ++ var :: post /\
    (forall u, In u pre -> preferred true cw domains var u) /\
    (forall u, In u post -> preferred false cw domains var u).
Proof.
  unfold select_unassigned_variable.
  destruct (unassigned cw assignment) as [|v r]; [discriminate|].
  destruct (select_key cw domains v) as [kv|e|] eqn:Kv; simpl; try discriminate.
  intros H. pose proof (min_loop_keys cw domains r v kv var H) as K.
  destruct (min_loop_first cw domains r v kv var H)
    as [[-> F]|(pre & post & kvar & E & Kvar & L1 & F1 & F2)].
  - exists [], r. split; [reflexivity|]. split; [intros u []|].
    intros u Hu. destruct (K u Hu) as [ku Ku].
    apply (key_lt_preferred cw domains v u kv ku Kv Ku). now apply (F u).
  - subst r. exists (v :: pre), post. split; [reflexivity|]. split.
    + intros u [E|Hu].
      * subst u. now apply (key_lt_preferred cw domains var v kvar kv Kvar Kv).
      * destruct (K u) as [ku Ku]; [apply in_or_app; now left|].
        apply (key_lt_preferred cw domains var u kvar ku Kvar Ku). now apply (F1 u).
    + intros u Hu.
      destruct (K u) as [ku Ku]; [apply in_or_app; right; now right|].
      apply (key_lt_preferred cw domains var u kvar ku Kvar Ku). now apply (F2 u).
Qed.

Lemma select_minimum_remaining_values_witness :
  let d := fst (ac3 Examples.cw_cat
                  (enforce_node_consistency (init_domains Examples.cw_cat)) None) in
  exists pre post,
    unassigned Examples.cw_cat [] = pre ++ Examples.B :: post /\
    (forall u, In u pre -> preferred true Examples.cw_cat d Examples.B u) /\
    (forall u, In u post -> preferred false Examples.cw_cat d Examples.B u).
Proof.
  intros d.
  apply (select_minimum_remaining_values Examples.cw_cat d [] Examples.B).
  vm_compute. reflexivity.
Defined.

(** ** The exceptions of the solver *)

Section Exceptions.
Context (P : exn -> Prop).

Lemma bind_raises_only {A B : Type} (m : outcome A) (k : A -> outcome B) :
  raises_only P m -> (forall a, raises_only P (k a)) -> raises_only P (bind m k).
Proof.
  intros Hm Hk e. destruct m as [a|e'|]; simpl; [apply Hk | | discriminate].
  intros H. injection H as <-. now apply Hm.
Qed.

Lemma of_option_raises_only {A : Type} (e : exn) (o : option A) :
  P e -> raises_only P (of_option e o).
Proof.
  intros He e'. destruct o; simpl; [discriminate|]. intros H. now injection H as <-.
Qed.

Lemma ret_raises_only {A : Type} (a : A) : raises_only P (Ret a).
Proof. intros e H. discriminate H. Qed.

Lemma raise_raises_only {A B : Type} (e : exn) :
  raises_only P (@Raise A e) -> raises_only P (@Raise B e).
Proof. intros H e' E. injection E as <-. now apply H. Qed.

Hypothesis key_error : P KeyError.
Hypothesis index_error : P IndexError.

Lemma has_overlap_raises_only (i j : nat) (w : word) (ys : list word) :
  raises_only P (has_overlap i j w ys).
Proof.
  induction ys as [|v r IH]; simpl; [apply ret_raises_only|].
  apply bind_raises_only.
  - unfold chars_agree.
    apply bind_raises_only; [now apply of_option_raises_only|]. intros a.
    apply bind_raises_only; [now apply of_option_raises_only|]. intros c.
    apply ret_raises_only.
  - intros [|]; [apply ret_raises_only | exact IH].
Qed.

Lemma revise_loop_raises_only (i j : nat) (x y : Var) (copy : list word) :
  forall (d : Domains) (revised : bool),
    raises_only P (snd (revise_loop i j x y copy d revised)).
Proof.
  induction copy as [|w rest IH]; intros d revised; simpl; [apply ret_raises_only|].
  destruct (dget y d) as [dy|]; [|intros e H; now injection H as <-].
  pose proof (has_overlap_raises_only i j w dy) as HO.
  destruct (has_overlap i j w dy) as [[|]|e|]; simpl.
  - apply IH.
  - destruct (dget x d) as [dx|]; [|intros e H; now injection H as <-].
    destruct (set_remove w dx); [apply IH | intros e H; now injection H as <-].
  - exact HO.
  - intros e H. discriminate H.
Qed.

Lemma revise_raises_only (cw : Crossword) (d : Domains) (x y : Var) :
  raises_only P (snd (revise cw d x y)).
Proof.
  unfold revise. destruct (overlap_of cw x y) as [[[i j]|]|]; simpl.
  - destruct (dget x d); [apply revise_loop_raises_only|].
    intros e H. now injection H as <-.
  - apply ret_raises_only.
  - intros e H. now injection H as <-.
Qed.

Lemma ac3_loop_raises_only (cw : Crossword) (fuel : nat) :
  forall (d : Domains) (arcs : list Arc),
    raises_only P (snd (ac3_loop fuel cw d arcs)).
Proof.
  induction fuel as [|fuel IH]; intros d arcs; simpl; [intros e H; discriminate H|].
  destruct arcs as [|[x y] rest]; [apply ret_raises_only|].
  pose proof (revise_raises_only cw d x y) as R.
  destruct (revise cw d x y) as [d1 o]. simpl in R.
  destruct o as [[|]|e|]; simpl; [| apply IH | exact R | intros e H; discriminate H].
  destruct (dget x d1) as [dx|]; [|intros e H; now injection H as <-].
  destruct (List.length dx =? 0); [apply ret_raises_only | apply IH].
Qed.

Hypothesis type_error : P TypeError.

Lemma consistent_raises_only (cw : Crossword) (a : Assignment) :
  raises_only P (consistent cw a).
Proof.
  assert (N : forall var w ns, raises_only P (consistent_neighbors cw a var w ns)).
  { intros var w. induction ns as [|n r IH]; simpl; [apply ret_raises_only|].
    destruct (amem n a); [|exact IH].
    destruct (overlap_of cw var n) as [[[i j]|]|];
      [| intros e H; now injection H as <- | intros e H; now injection H as <-].
    apply bind_raises_only; [now apply of_option_raises_only|]. intros c.
    apply bind_raises_only; [now apply of_option_raises_only|]. intros w'.
    apply bind_raises_only; [now apply of_option_raises_only|]. intros c'.
    destruct (Ascii.eqb c c'); [exact IH | apply ret_raises_only]. }
  unfold consistent. generalize a at 2 as items.
  induction items as [|[v w] r IH]; simpl; [apply ret_raises_only|].
  destruct (negb (String.length w =? var_length v)); [apply ret_raises_only|].
  destruct (1 <? count_occ string_dec (Dict.values a) w); [apply ret_raises_only|].
  apply bind_raises_only; [apply N|].
  intros [|]; [exact IH | apply ret_raises_only].
Qed.

Lemma select_raises_only (cw : Crossword) (d : Domains) (a : Assignment) :
  assignment_complete cw a = false ->
  raises_only P (select_unassigned_variable cw d a).
Proof.
  intros AC.
  assert (K : forall v, raises_only P (select_key cw d v)).
  { intros v. unfold select_key.
    apply bind_raises_only; [now apply of_option_raises_only|].
    intros ws. apply ret_raises_only. }
  assert (M : forall rest best k, raises_only P (min_loop cw d rest best k)).
  { induction rest as [|v r IH]; intros best k; simpl; [apply ret_raises_only|].
    apply bind_raises_only; [apply K|]. intros kv.
    destruct (key_lt kv k); apply IH. }
  unfold select_unassigned_variable.
  destruct (unassigned cw a) as [|v r] eqn:U.
  - exfalso. unfold assignment_complete in AC.
    assert (C : forallb (fun var => amem var a) (variables cw) = true).
    { apply forallb_forall. intros u Hu.
      destruct (amem u a) eqn:Mu; [reflexivity|]. exfalso.
      assert (Hin : In u (unassigned cw a)).
      { unfold unassigned. apply filter_In. split; [assumption|]. now rewrite Mu. }
      rewrite U in Hin. destruct Hin. }
    congruence.
  - apply bind_raises_only; [apply K | intros kv; apply M].
Qed.

Lemma order_domain_values_raises_only (cw : Crossword) (d : Domains) (var : Var)
    (a : Assignment) :
  raises_only P (order_domain_values cw d var a).
Proof.
  assert (L : forall w ns, raises_only P (lcv_sum d a w ns)).
  { intros w. induction ns as [|n r IH]; simpl; [apply ret_raises_only|].
    destruct (amem n a); [exact IH|].
    apply bind_raises_only; [now apply of_option_raises_only|]. intros dn.
    apply bind_raises_only; [exact IH | intros s; apply ret_raises_only]. }
  assert (B : forall ws h, raises_only P (build_heuristics cw d a var ws h)).
  { induction ws as [|w r IH]; intros h; simpl; [apply ret_raises_only|].
    apply bind_raises_only; [apply L | intros n; apply IH]. }
  unfold order_domain_values.
  apply bind_raises_only; [now apply of_option_raises_only|]. intros ws.
  apply bind_raises_only; [apply B | intros h; apply ret_raises_only].
Qed.

Lemma try_values_raises_only (cw : Crossword)
    (recurse : Assignment -> Assignment * outcome (option Assignment)) (var : Var) :
  (forall a, raises_only P (snd (recurse a))) ->
  forall (values : list word) (a : Assignment),
    raises_only P (snd (try_values cw recurse var values a)).
Proof.
  intros Hrec. induction values as [|value rest IH]; intros a; simpl;
    [apply ret_raises_only|].
  assert (U : forall a0, raises_only P
            (snd match adel var a0 with
                 | Some a' => try_values cw recurse var rest a'
                 | None => (a0, Raise KeyError)
                 end)).
  { intros a0. destruct (adel var a0); [apply IH|].
    intros e H. now injection H as <-. }
  pose proof (consistent_raises_only cw (aset var value a)) as C.
  destruct (consistent cw (aset var value a)) as [[|]|e|]; simpl;
    [| apply U | exact (raise_raises_only e C) | intros e H; discriminate H].
  pose proof (Hrec (aset var value a)) as R.
  destruct (recurse (aset var value a)) as [a2 o]. simpl in R.
  destruct o as [r|e|]; simpl; [| exact R | intros e H; discriminate H].
  destruct (truthy r); [apply ret_raises_only | apply U].
Qed.

Lemma backtrack_fuel_raises_only (cw : Crossword) (d : Domains) (fuel : nat) :
  forall a : Assignment, raises_only P (snd (backtrack_fuel fuel cw d a)).
Proof.
  induction fuel as [|fuel IH]; intros a; simpl; [intros e H; discriminate H|].
  destruct (assignment_complete cw a) eqn:AC; [apply ret_raises_only|].
  pose proof (select_raises_only cw d a AC) as Sel.
  destruct (select_unassigned_variable cw d a) as [var|e|]; simpl;
    [| exact (raise_raises_only e Sel) | intros e H; discriminate H].
  pose proof (order_domain_values_raises_only cw d var a) as O.
  destruct (order_domain_values cw d var a) as [values|e|]; simpl;
    [| exact (raise_raises_only e O) | intros e H; discriminate H].
  now apply try_values_raises_only.
Qed.
End Exceptions.

(** X10. The exceptions of the solver. [ac3] raises nothing but [KeyError]
    (an arc outside the overlap table, a variable without domain) and
    [IndexError] (a word too short for an overlap index); [backtrack] and
    [solve] raise nothing but these two and [TypeError] (an assigned neighbor
    whose overlap entry is [None]).  [select_unassigned_variable] raises
    [ValueError] exactly on a complete assignment, which [backtrack] never
    passes to it. *)
Theorem solver_exceptions (cw : Crossword) (domains : Domains) :
  (forall arcs : option (list Arc),
      raises_only (fun e => e = KeyError \/ e = IndexError)
                  (snd (ac3 cw domains arcs))) /\
  (forall a : Assignment,
      raises_only (fun e => e = KeyError \/ e = IndexError \/ e = TypeError)
                  (snd (backtrack cw domains a))) /\
  raises_only (fun e => e = KeyError \/ e = IndexError \/ e = TypeError)
              (solve cw) /\
  (forall a : Assignment,
      select_unassigned_variable cw domains a = Raise ValueError <->
      assignment_complete cw a = true).
Proof.
  split; [|split; [|split]].
  - intros arcs. unfold ac3. apply ac3_loop_raises_only; auto.
  - intros a. unfold backtrack. apply backtrack_fuel_raises_only; auto.
  - unfold solve.
    pose proof (ac3_loop_raises_only
                  (fun e => e = KeyError \/ e = IndexError \/ e = TypeError)
                  (or_introl eq_refl) (or_intror (or_introl eq_refl)) cw
                  (ac3_fuel cw (enforce_node_consistency (init_domains cw))
                            (initial_arcs cw None))
                  (enforce_node_consistency (init_domains cw))
                  (rev (initial_arcs cw None))) as A.
    unfold ac3. destruct (ac3_loop _ cw _ _) as [d2 o]. simpl in A.
    destruct o as [b|e|];
      [| exact (raise_raises_only _ e A) | intros e H; discriminate H].
    unfold backtrack. apply backtrack_fuel_raises_only; auto.
  - intros a. split.
    + intros H. destruct (assignment_complete cw a) eqn:AC; [reflexivity|].
      exfalso.
      pose proof (select_raises_only (fun e => e = KeyError) eq_refl cw domains a AC
                    ValueError H) as C.
      discriminate C.
    + intros AC. unfold select_unassigned_variable.
      assert (U : unassigned cw a = []).
      { unfold unassigned, assignment_complete in *.
        rewrite forallb_forall in AC.
        induction (variables cw) as [|u l IH]; [reflexivity|]. simpl.
        rewrite (AC u (or_introl eq_refl)). simpl.
        apply IH. intros x Hx. apply AC. now right. }
      now rewrite U.
Qed.

Example ac3_key_error :
  snd (ac3 Examples.cw_cat (init_domains Examples.cw_cat)
           (Some [(Examples.A, Examples.A)])) = Raise KeyError.
Proof. vm_compute. reflexivity. Qed.

(** Without node consistency a word that is too short stops the propagation. *)
Example ac3_index_error :
  snd (ac3 (make_crossword [Examples.A; Examples.B] ["CAT"; "A"]%string
                           Examples.crossing)
           (init_domains (make_crossword [Examples.A; Examples.B]
                                         ["CAT"; "A"]%string Examples.crossing))
           None) = Raise IndexError.
Proof. vm_compute. reflexivity. Qed.

(** ** The consistency checker, read both ways *)

Lemma distinct_count (a : Assignment) (w : word) :
  NoDup (Dict.values a) -> (1 <? count_occ string_dec (Dict.values a) w) = false.
Proof.
  intros ND. pose proof (proj1 (NoDup_count_occ string_dec (Dict.values a)) ND w).
  apply Nat.ltb_ge. assumption.
Qed.

Lemma consistent_accepts (cw : Crossword) (a : Assignment) :
  WellFormed cw -> NoDup (Dict.keys a) ->
  (forall v w, In (v, w) a -> In v (variables cw)) ->
  lengths_match a -> words_distinct a -> overlaps_agree cw a ->
  consistent cw a = Ret true.
Proof.
  intros W ND V L D A. unfold consistent.
  assert (H : incl a a) by apply incl_refl. revert H.
  generalize a at 1 4 as items.
  induction items as [|[v w] r IH]; intros I; simpl; [reflexivity|].
  assert (Hin : In (v, w) a) by (apply I; now left).
  rewrite (L v w Hin), Nat.eqb_refl. simpl.
  rewrite (distinct_count a w D).
  assert (Sv : aget v a = Some w) by now apply In_get_NoDup.
  assert (N : forall ns, incl ns (neighbors cw v) ->
                         consistent_neighbors cw a v w ns = Ret true).
  { induction ns as [|n ns IHn]; intros In'; simpl; [reflexivity|].
    assert (In'' : incl ns (neighbors cw v)) by (intros x Hx; apply In'; now right).
    unfold amem, Dict.mem. fold (aget n a).
    destruct (aget n a) as [wn|] eqn:G; [|now apply IHn].
    destruct (wf_neighbor_overlap cw v n W (V v w Hin) (In' n (or_introl eq_refl)))
      as (i & j & O & _).
    rewrite O.
    destruct (A v n i j w wn O Sv G) as (c & G1 & G2).
    rewrite G1. simpl. rewrite G2. simpl. rewrite Ascii.eqb_refl. now apply IHn. }
  rewrite (N _ (incl_refl _)). simpl.
  apply IH. intros x Hx. apply I. now right.
Qed.

(** X11. On a well-formed puzzle and a dictionary whose keys are variables,
    [consistent] returns true exactly when every word has the length of its
    slot, no word is held twice and overlapping slots agree on their shared
    cell; when the lengths are right it returns, true or false, without
    raising. *)
Theorem consistent_iff (cw : Crossword) (assignment : Assignment) :
  well_formed cw = true ->
  NoDup (Dict.keys assignment) ->
  (forall v w, In (v, w) assignment -> In v (variables cw)) ->
  (consistent cw assignment = Ret true <->
   lengths_match assignment /\ words_distinct assignment /\
   overlaps_agree cw assignment) /\
  (lengths_match assignment -> exists b, consistent cw assignment = Ret b).
Proof.
  intros W ND V. apply well_formed_spec in W. split; [split|].
  - now apply consistent_true_spec.
  - intros (L & D & A). now apply consistent_accepts.
  - intros L. now apply consistent_returns.
Qed.

Lemma consistent_iff_witness :
  let a := [(Examples.A, "CAT"%string); (Examples.B, "CAT"%string)] in
  (consistent Examples.cw_cat a = Ret true <->
   lengths_match a /\ words_distinct a /\ overlaps_agree Examples.cw_cat a) /\
  (lengths_match a -> exists b, consistent Examples.cw_cat a = Ret b).
Proof.
  intros a. apply (consistent_iff Examples.cw_cat a).
  - vm_compute. reflexivity.
  - simpl. nodup_list.
  - intros v w H. simpl in H. destruct H as [H|[H|[]]]; injection H as <- _;
      simpl; tauto.
Defined.

(** ** What the search returns *)

(** X12. [solve] decides the puzzle: on a well-formed puzzle it returns an
    assignment exactly when the puzzle has a solution, the assignment it
    returns is one (every variable once, with a word of the vocabulary that
    fits, all words distinct, crossings agreeing), and it returns [None]
    exactly when there is none. *)
Theorem solve_decides (cw : Crossword) :
  well_formed cw = true ->
  exists r : option Assignment,
    solve cw = Ret r /\
    (forall s, r = Some s -> solution cw s) /\
    (r = None <-> forall s, ~ solution cw s).
Proof.
  intros W. apply well_formed_spec in W.
  destruct (solve_returns cw W) as [r E]. exists r.
  split; [assumption|]. split.
  - intros s ->. now apply solve_returns_solution.
  - split.
    + intros -> s Sol. destruct (solve_finds cw s W Sol) as [s' F]. congruence.
    + intros N. destruct r as [s|]; [|reflexivity].
      exfalso. apply (N s). now apply solve_returns_solution.
Qed.

Lemma solve_decides_witness :
  exists r : option Assignment,
    solve Examples.cw_cat = Ret r /\
    (forall s, r = Some s -> solution Examples.cw_cat s) /\
    (r = None <-> forall s, ~ solution Examples.cw_cat s).
Proof.
  apply (solve_decides Examples.cw_cat). vm_compute. reflexivity.
Defined.

Lemma keys_set_incl {K V : Type} (eq_dec : forall a b : K, {a = b} + {a <> b})
    (k k0 : K) (v : V) (d : Dict.t K V) :
  In k (Dict.keys (Dict.set eq_dec k0 v d)) -> k = k0 \/ In k (Dict.keys d).
Proof.
  induction d as [|[k' v'] r IH]; simpl.
  - intros [<-|[]]. now left.
  - destruct (eq_dec k0 k') as [->|Hne]; simpl.
    + intros [<-|H]; [right; now left | right; now right].
    + intros [<-|H]; [right; now left|].
      destruct (IH H) as [->|H']; [now left | right; now right].
Qed.

Lemma build_heuristics_keys (cw : Crossword) (d : Domains) (a : Assignment)
    (var : Var) (ws : list word) :
  forall h h' : Dict.t word nat,
    build_heuristics cw d a var ws h = Ret h' ->
    forall k, In k (Dict.keys h') -> In k (Dict.keys h) \/ In k ws.
Proof.
  induction ws as [|w r IH]; intros h h'; simpl.
  - intros H. injection H as <-. auto.
  - destruct (lcv_sum d a w (neighbors cw var)) as [n|e|]; simpl; try discriminate.
    intros H k Hk. destruct (IH _ _ H k Hk) as [Hs|Hr]; [|right; now right].
    apply keys_set_incl in Hs. destruct Hs as [->|Hs]; [right; now left | now left].
Qed.

(** The candidates are words of the domain, whatever the store. *)
Lemma order_domain_values_incl (cw : Crossword) (d : Domains) (var : Var)
    (a : Assignment) (values : list word) :
  order_domain_values cw d var a = Ret values ->
  exists ws, dget var d = Some ws /\ incl values ws.
Proof.
  unfold order_domain_values.
  destruct (dget var d) as [ws|]; simpl; [|discriminate].
  destruct (build_heuristics cw d a var ws []) as [h|e|] eqn:B; simpl;
    try discriminate.
  intros H. injection H as <-. exists ws. split; [reflexivity|].
  intros w Hw.
  apply (Permutation_in _ (sorted_perm (heuristics_get h) (Dict.keys h))) in Hw.
  destruct (build_heuristics_keys cw d a var ws [] h B w Hw) as [[]|Hin].
  exact Hin.
Qed.

Lemma extends_refl (cw : Crossword) (d : Domains) (a : Assignment) :
  extends cw d a a.
Proof.
  exists []. split; [now rewrite app_nil_r|]. split; [constructor | intros v w []].
Qed.

Lemma extends_step (cw : Crossword) (d : Domains) (a s : Assignment)
    (var : Var) (value : word) (ws : list word) :
  In var (variables cw) -> ~ In var (Dict.keys a) ->
  dget var d = Some ws -> In value ws ->
  extends cw d (a ++ [(var, value)]) s -> extends cw d a s.
Proof.
  intros Hv Hf G Hw (added & -> & ND & F).
  exists ((var, value) :: added). split; [now rewrite <- app_assoc|].
  assert (K : forall v, In v (Dict.keys added) ->
                        ~ In v (Dict.keys (a ++ [(var, value)]))).
  { intros v Hin. unfold Dict.keys in Hin. apply in_map_iff in Hin.
    destruct Hin as ([v' w'] & E & Hin). simpl in E. subst v'.
    now destruct (F v w' Hin) as (_ & N & _). }
  split.
  - simpl. constructor; [|assumption].
    intros C. apply (K var C). unfold Dict.keys. rewrite map_app, in_app_iff.
    right. now left.
  - intros v w [E|Hin].
    + injection E as <- <-. eauto.
    + destruct (F v w Hin) as (H1 & H2 & H3). split; [assumption|].
      split; [|assumption].
      intros C. apply H2. unfold Dict.keys. rewrite map_app, in_app_iff. now left.
Qed.

Lemma try_values_extends (cw : Crossword) (d : Domains)
    (recurse : Assignment -> Assignment * outcome (option Assignment))
    (var : Var) (a : Assignment) (ws : list word) :
  restores recurse ->
  (forall a1 a' s, recurse a1 = (a', Ret (Some s)) -> extends cw d a1 s) ->
  In var (variables cw) -> ~ In var (Dict.keys a) ->
  dget var d = Some ws ->
  forall (values : list word) (a' s : Assignment),
    incl values ws ->
    try_values cw recurse var values a = (a', Ret (Some s)) ->
    extends cw d a s.
Proof.
  intros Hres Hrec Hv Hf G.
  induction values as [|value rest IH]; intros a' s I; simpl; [discriminate|].
  unfold aset, adel. rewrite (set_fresh Var_eq_dec var value a Hf).
  assert (U : Dict.del Var_eq_dec var (a ++ [(var, value)]) = Some a)
    by now apply del_last_fresh.
  assert (I' : incl rest ws) by (intros x Hx; apply I; now right).
  destruct (consistent cw (a ++ [(var, value)])) as [[|]|e|]; try discriminate.
  - destruct (recurse (a ++ [(var, value)])) as [a2 o] eqn:R.
    destruct o as [result|e|]; try discriminate.
    destruct (truthy result) eqn:T.
    + intros H. injection H as <- ->.
      apply (extends_step cw d a s var value ws Hv Hf G (I value (or_introl eq_refl))).
      exact (Hrec _ _ _ R).
    + specialize (Hres _ _ _ R). destruct result as [s'|].
      * destruct Hres as [-> Hlen]. rewrite length_app in Hlen. simpl in Hlen.
        destruct a2; [simpl in Hlen; lia | discriminate].
      * subst a2. rewrite U. now apply IH.
  - rewrite U. now apply IH.
Qed.

Lemma backtrack_fuel_extends (cw : Crossword) (d : Domains) (fuel : nat) :
  forall a a' s : Assignment,
    backtrack_fuel fuel cw d a = (a', Ret (Some s)) -> extends cw d a s.
Proof.
  induction fuel as [|fuel IH]; intros a a' s; simpl; [discriminate|].
  destruct (assignment_complete cw a).
  - intros H. injection H as <- <-. apply extends_refl.
  - destruct (select_unassigned_variable cw d a) as [var|e|] eqn:Sel; try discriminate.
    apply select_unassigned in Sel. destruct Sel as [Hv Hf].
    destruct (order_domain_values cw d var a) as [values|e|] eqn:O; try discriminate.
    destruct (order_domain_values_incl cw d var a values O) as (ws & G & I).
    intros H.
    eapply (try_values_extends cw d _ var a ws);
      [apply backtrack_fuel_restores | | exact Hv | exact Hf | exact G | exact I
       | exact H].
    intros a1 a1' s1 R. exact (IH _ _ _ R).
Qed.

(** X13. An assignment that [backtrack] returns is the dictionary it was given
    followed by new entries: the entries passed in are kept in place, and each
    new entry gives a variable of the puzzle that had no entry, once, a word
    of its domain; the result is complete, and it is the content of the
    dictionary when the call returns. *)
Theorem backtrack_extends_assignment (cw : Crossword) (domains : Domains)
    (assignment assignment' s : Assignment) :
  backtrack cw domains assignment = (assignment', Ret (Some s)) ->
  s = assignment' /\ extends cw domains assignment s /\
  assignment_complete cw s = true.
Proof.
  intros H. unfold backtrack in H.
  split; [|split].
  - now destruct (backtrack_fuel_restores cw domains _ _ _ _ H).
  - exact (backtrack_fuel_extends cw domains _ _ _ _ H).
  - revert H. generalize (S (List.length (variables cw))) as fuel.
    intros fuel. revert assignment assignment' s.
    induction fuel as [|fuel IH]; intros a a' s; simpl; [discriminate|].
    destruct (assignment_complete cw a) eqn:AC.
    + intros H. now injection H as <- <-.
    + destruct (select_unassigned_variable cw domains a) as [var|e|]; try discriminate.
      destruct (order_domain_values cw domains var a) as [values|e|]; try discriminate.
      generalize a. induction values as [|value rest IHv]; intros a0; simpl;
        [discriminate|].
      destruct (consistent cw (aset var value a0)) as [[|]|e|]; try discriminate.
      * destruct (backtrack_fuel fuel cw domains (aset var value a0)) as [a2 o] eqn:R.
        destruct o as [result|e|]; try discriminate.
        destruct (truthy result) eqn:T.
        -- intros H. injection H as <- ->. exact (IH _ _ _ R).
        -- destruct (adel var a2); [apply IHv | discriminate].
      * destruct (adel var (aset var value a0)); [apply IHv | discriminate].
Qed.

Lemma backtrack_extends_assignment_witness :
  let d := enforce_node_consistency (init_domains Examples.cw_cat) in
  let s := [(Examples.A, "CAT"%string); (Examples.B, "ARC"%string)] in
  s = s /\ extends Examples.cw_cat d [(Examples.A, "CAT"%string)] s /\
  assignment_complete Examples.cw_cat s = true.
Proof.
  intros d s.
  apply (backtrack_extends_assignment Examples.cw_cat d
           [(Examples.A, "CAT"%string)] s s).
  vm_compute. reflexivity.
Defined.

(** ** The depth of the search *)

Lemma try_values_more_fuel (cw : Crossword)
    (r1 r2 : Assignment -> Assignment * outcome (option Assignment)) (var : Var) :
  (forall a, snd (r1 a) <> Timeout -> r2 a = r1 a) ->
  forall (values : list word) (a : Assignment),
    snd (try_values cw r1 var values a) <> Timeout ->
    try_values cw r2 var values a = try_values cw r1 var values a.
Proof.
  intros Hr. induction values as [|value rest IH]; intros a; simpl; [reflexivity|].
  destruct (consistent cw (aset var value a)) as [[|]|e|]; try reflexivity.
  - destruct (r1 (aset var value a)) as [a2 o] eqn:R1.
    assert (E : snd (r1 (aset var value a)) <> Timeout ->
                r2 (aset var value a) = (a2, o))
      by (intros N; rewrite <- R1; now apply Hr).
    rewrite R1 in E. simpl in E.
    destruct o as [result|e|].
    + rewrite E by discriminate.
      destruct (truthy result); [reflexivity|].
      destruct (adel var a2); [apply IH | reflexivity].
    + rewrite E by discriminate. reflexivity.
    + simpl. intros C. congruence.
  - destruct (adel var (aset var value a)); [apply IH | reflexivity].
Qed.

Lemma backtrack_fuel_more_fuel (cw : Crossword) (d : Domains) (fuel : nat) :
  forall a : Assignment,
    snd (backtrack_fuel fuel cw d a) <> Timeout ->
    forall fuel', fuel <= fuel' ->
      backtrack_fuel fuel' cw d a = backtrack_fuel fuel cw d a.
Proof.
  induction fuel as [|fuel IH]; intros a NT fuel' Hle; simpl in *; [congruence|].
  destruct fuel' as [|fuel']; [lia|]. simpl.
  destruct (assignment_complete cw a); [reflexivity|].
  destruct (select_unassigned_variable cw d a) as [var|e|]; try reflexivity.
  destruct (order_domain_values cw d var a) as [values|e|]; try reflexivity.
  apply try_values_more_fuel; [|assumption].
  intros a1 N. apply IH; [assumption | lia].
Qed.

(** X14. The recursion of [backtrack] is as deep as the number of unassigned
    variables at most: on every puzzle, store and dictionary the call ends,
    returning or raising, and any bound on the depth above that number gives
    the same result. *)
Theorem backtrack_depth (cw : Crossword) (domains : Domains)
    (assignment : Assignment) (fuel : nat) :
  List.length (unassigned cw assignment) < fuel ->
  snd (backtrack_fuel fuel cw domains assignment) <> Timeout /\
  backtrack_fuel fuel cw domains assignment = backtrack cw domains assignment.
Proof.
  intros Hf.
  pose proof (backtrack_fuel_terminates cw domains fuel assignment Hf) as T.
  split; [exact T|].
  unfold backtrack.
  pose proof (unassigned_length cw assignment) as L.
  destruct (Nat.le_ge_cases fuel (S (List.length (variables cw)))) as [Hle|Hge].
  - symmetry. now apply backtrack_fuel_more_fuel.
  - apply backtrack_fuel_more_fuel; [|assumption].
    apply backtrack_fuel_terminates. lia.
Qed.

Lemma backtrack_depth_witness :
  let d := enforce_node_consistency (init_domains Examples.cw_cat) in
  snd (backtrack_fuel 2 Examples.cw_cat d [(Examples.A, "CAT"%string)]) <> Timeout /\
  backtrack_fuel 2 Examples.cw_cat d [(Examples.A, "CAT"%string)]
  = backtrack Examples.cw_cat d [(Examples.A, "CAT"%string)].
Proof.
  intros d.
  apply (backtrack_depth Examples.cw_cat d [(Examples.A, "CAT"%string)] 2).
  vm_compute. lia.
Defined.

(** ** The grid of letters *)

Lemma list_update_length {A : Type} (n : nat) (x : A) (l : list A) :
  List.length (list_update n x l) = List.length l.
Proof.
  revert n. induction l as [|a l IH]; intros [|n]; simpl; auto.
Qed.

Lemma nth_error_list_update {A : Type} (n m : nat) (x : A) (l : list A) :
  n < List.length l ->
  nth_error (list_update n x l) m = if n =? m then Some x else nth_error l m.
Proof.
  revert n m. induction l as [|a l IH]; intros n m H; simpl in H; [lia|].
  destruct n as [|n]; destruct m as [|m]; simpl; try reflexivity.
  apply IH. lia.
Qed.

Lemma In_list_update {A : Type} (n : nat) (x y : A) (l : list A) :
  In y (list_update n x l) -> y = x \/ In y l.
Proof.
  revert n. induction l as [|a l IH]; intros [|n]; simpl; try tauto.
  - intros [<-|H]; auto.
  - intros [<-|H]; auto. destruct (IH n H); auto.
Qed.

Lemma empty_grid_shaped (height width : nat) :
  shaped height width (empty_grid height width).
Proof.
  unfold empty_grid. split; [apply repeat_length|].
  intros row H. apply repeat_spec in H. subst row. apply repeat_length.
Qed.

Lemma empty_grid_get (height width i j : nat) :
  i < height -> j < width -> grid_get (empty_grid height width) i j = Some None.
Proof.
  intros Hi Hj. unfold grid_get, empty_grid.
  rewrite nth_error_repeat by assumption. now apply nth_error_repeat.
Qed.

(** [letters[i][j] = c] on a grid: inside the grid it writes the cell and
    nothing else, outside it raises. *)
Lemma grid_set_spec (height width i j : nat) (c : ascii) (g : Grid) :
  shaped height width g ->
  (i < height /\ j < width ->
   exists g', grid_set i j c g = Ret g' /\ shaped height width g' /\
     forall i' j', grid_get g' i' j'
                   = (if (i =? i') && (j =? j') then Some (Some c)
                      else grid_get g i' j')) /\
  (~ (i < height /\ j < width) -> grid_set i j c g = Raise IndexError).
Proof.
  intros [Hl Hr]. unfold grid_set. split.
  - intros [Hi Hj]. rewrite <- Hl in Hi.
    destruct (nth_error g i) as [row|] eqn:N;
      [|apply nth_error_None in N; lia].
    assert (Hrow : List.length row = width) by (apply Hr; eapply nth_error_In; eassumption).
    assert (J : (j <? List.length row) = true) by (apply Nat.ltb_lt; lia).
    rewrite J. eexists. split; [reflexivity|]. split.
    + split; [rewrite list_update_length; exact Hl|].
      intros r Hin. apply In_list_update in Hin. destruct Hin as [->|Hin].
      * now rewrite list_update_length.
      * now apply Hr.
    + intros i' j'. unfold grid_get. rewrite nth_error_list_update by assumption.
      destruct (Nat.eqb_spec i i') as [<-|Hne]; simpl.
      * rewrite nth_error_list_update by lia. rewrite N.
        destruct (j =? j'); reflexivity.
      * reflexivity.
  - intros H. destruct (nth_error g i) as [row|] eqn:N; [|reflexivity].
    assert (Hrow : List.length row = width) by (apply Hr; eapply nth_error_In; eassumption).
    assert (Hi : i < height).
    { rewrite <- Hl. apply nth_error_Some. congruence. }
    destruct (Nat.ltb_spec j (List.length row)) as [Hj|Hj]; [|reflexivity].
    exfalso. apply H. split; [assumption | lia].
Qed.

Lemma get_Some_lt (k : nat) (w : string) (c : ascii) :
  String.get k w = Some c -> k < String.length w.
Proof.
  revert k. induction w as [|a w IH]; intros k; simpl; [discriminate|].
  destruct k as [|k]; [lia|]. intros H. apply IH in H. lia.
Qed.

Lemma place_letters_writes (variable : Var) (w : word) (ks : list nat) :
  (forall k, In k ks -> k < String.length w) ->
  forall g, place_letters variable w ks g
            = apply_writes (word_writes variable w ks) g.
Proof.
  induction ks as [|k r IH]; intros Hk g; [reflexivity|].
  destruct (get_in_range k w (Hk k (or_introl eq_refl))) as [c Gc].
  unfold word_writes. cbn [place_letters flat_map]. rewrite Gc.
  destruct (cell_of variable k) as [i j].
  cbn [app apply_writes of_option bind].
  destruct (grid_set i j c g) as [g'|e|]; cbn [bind]; try reflexivity.
  apply IH. intros k' Hk'. apply Hk. now right.
Qed.

Lemma apply_writes_app (w1 w2 : list (nat * nat * ascii)) :
  forall g, apply_writes (w1 ++ w2) g
            = bind (apply_writes w1 g) (apply_writes w2).
Proof.
  induction w1 as [|[[i j] c] r IH]; intros g; simpl; [reflexivity|].
  destruct (grid_set i j c g) as [g'|e|]; simpl; try reflexivity. apply IH.
Qed.

Lemma letter_grid_items_writes (items : list (Var * word)) :
  forall g, letter_grid_items items g = apply_writes (writes_of items) g.
Proof.
  induction items as [|[v w] r IH]; intros g; simpl; [reflexivity|].
  unfold writes_of. simpl. rewrite apply_writes_app.
  rewrite place_letters_writes by (intros k Hk; apply in_seq in Hk; lia).
  destruct (apply_writes _ g) as [g'|e|]; simpl; try reflexivity. apply IH.
Qed.

Lemma In_writes_of (a : Assignment) (cell : nat * nat) (c : ascii) :
  In (cell, c) (writes_of a) <->
  exists v w k, In (v, w) a /\ String.get k w = Some c /\ cell_of v k = cell.
Proof.
  unfold writes_of, word_writes. rewrite in_flat_map. split.
  - intros ([v w] & Hin & H). simpl in H. apply in_flat_map in H.
    destruct H as (k & _ & H). destruct (String.get k w) as [c'|] eqn:G; [|destruct H].
    destruct H as [E|[]]. injection E as <- <-. exists v, w, k. auto.
  - intros (v & w & k & Hin & G & E). exists (v, w). split; [assumption|]. simpl.
    apply in_flat_map. exists k. split.
    + apply in_seq. apply get_Some_lt in G. lia.
    + rewrite G, E. now left.
Qed.

(** A sequence of writes inside the grid succeeds; a cell that no write
    touches keeps its content, a cell that is written holds the character
    written there when all writes to it agree. *)
Lemma apply_writes_in_grid (height width : nat) (ws : list (nat * nat * ascii)) :
  forall g, shaped height width g ->
    (forall cell c, In (cell, c) ws -> in_grid height width cell) ->
    exists g', apply_writes ws g = Ret g' /\ shaped height width g' /\
      forall i j,
        (forall c, ~ In ((i, j), c) ws) /\ grid_get g' i j = grid_get g i j \/
        exists c, In ((i, j), c) ws /\
          ((forall c', In ((i, j), c') ws -> c' = c) ->
           grid_get g' i j = Some (Some c)).
Proof.
  induction ws as [|[[i0 j0] c0] r IH]; intros g Sh Hin; simpl.
  - exists g. split; [reflexivity|]. split; [assumption|].
    intros i j. left. split; [intros c []|reflexivity].
  - destruct (Hin (i0, j0) c0 (or_introl eq_refl)) as [Hi Hj]. simpl in Hi, Hj.
    destruct (proj1 (grid_set_spec height width i0 j0 c0 g Sh) (conj Hi Hj))
      as (g1 & E1 & Sh1 & G1).
    rewrite E1. simpl.
    destruct (IH g1 Sh1 (fun cell c H => Hin cell c (or_intror H)))
      as (g' & E' & Sh' & G').
    exists g'. split; [assumption|]. split; [assumption|].
    intros i j. destruct (G' i j) as [[No Eq]|(c & Hc & Ag)].
    + rewrite G1 in Eq.
      destruct ((i0 =? i) && (j0 =? j)) eqn:B.
      * apply andb_true_iff in B. destruct B as [B1 B2].
        apply Nat.eqb_eq in B1, B2. subst i0 j0.
        right. exists c0. split; [now left|]. intros _. exact Eq.
      * left. split; [|exact Eq].
        intros c [E|H]; [|now apply (No c)].
        injection E as -> -> _. rewrite !Nat.eqb_refl in B. discriminate.
    + right. exists c. split; [now right|].
      intros U. apply Ag. intros c' H. apply U. now right.
Qed.

(** The first write outside the grid raises [IndexError]. *)
Lemma apply_writes_outside (height width : nat) (ws : list (nat * nat * ascii)) :
  forall g, shaped height width g ->
    (exists cell c, In (cell, c) ws /\ ~ in_grid height width cell) ->
    apply_writes ws g = Raise IndexError.
Proof.
  induction ws as [|[[i0 j0] c0] r IH]; intros g Sh (cell & c & Hin & Out);
    [destruct Hin|]. simpl.
  destruct (Nat.ltb_spec i0 height) as [Hi|Hi];
    [destruct (Nat.ltb_spec j0 width) as [Hj|Hj]|].
  - destruct (proj1 (grid_set_spec height width i0 j0 c0 g Sh) (conj Hi Hj))
      as (g1 & E1 & Sh1 & _).
    rewrite E1. simpl. apply IH; [assumption|].
    destruct Hin as [E|Hin]; [|eauto].
    injection E as <- _. exfalso. apply Out. split; assumption.
  - rewrite (proj2 (grid_set_spec height width i0 j0 c0 g Sh)); [reflexivity|].
    intros [_ C]. lia.
  - rewrite (proj2 (grid_set_spec height width i0 j0 c0 g Sh)); [reflexivity|].
    intros [C _]. lia.
Qed.

(** X15. [letter_grid] places the letters. When every letter of the
    assignment falls inside the grid, the call returns a grid of [height]
    rows of [width] cells; a cell that no word covers is [None]; and when the
    words that cross a cell agree on its letter, the cell of the [k]-th letter
    of every word holds that letter. *)
Theorem letter_grid_places_letters (height width : nat) (assignment : Assignment) :
  (forall v w k, In (v, w) assignment -> k < String.length w ->
                 in_grid height width (cell_of v k)) ->
  exists g,
    letter_grid height width assignment = Ret g /\
    shaped height width g /\
    (forall i j, i < height -> j < width ->
       (forall v w k, In (v, w) assignment -> k < String.length w ->
                      cell_of v k <> (i, j)) ->
       grid_get g i j = Some None) /\
    ((forall v1 w1 k1 c1 v2 w2 k2 c2,
         In (v1, w1) assignment -> In (v2, w2) assignment ->
         String.get k1 w1 = Some c1 -> String.get k2 w2 = Some c2 ->
         cell_of v1 k1 = cell_of v2 k2 -> c1 = c2) ->
     forall v w k c, In (v, w) assignment -> String.get k w = Some c ->
       grid_get g (fst (cell_of v k)) (snd (cell_of v k)) = Some (Some c)).
Proof.
  intros InG. unfold letter_grid. rewrite letter_grid_items_writes.
  destruct (apply_writes_in_grid height width (writes_of assignment)
              (empty_grid height width) (empty_grid_shaped height width))
    as (g & E & Sh & G).
  { intros cell c H. apply In_writes_of in H.
    destruct H as (v & w & k & Hin & Gk & <-).
    apply (InG v w k Hin). now apply get_Some_lt in Gk. }
  exists g. split; [assumption|]. split; [assumption|]. split.
  - intros i j Hi Hj No. destruct (G i j) as [[_ Eq]|(c & Hc & _)].
    + rewrite Eq. now apply empty_grid_get.
    + exfalso. apply In_writes_of in Hc.
      destruct Hc as (v & w & k & Hin & Gk & Ec).
      apply (No v w k Hin); [now apply get_Some_lt in Gk | assumption].
  - intros Agree v w k c Hin Gk.
    destruct (cell_of v k) as [i j] eqn:Ec. simpl.
    assert (Hw : In ((i, j), c) (writes_of assignment)).
    { apply In_writes_of. exists v, w, k. auto. }
    destruct (G i j) as [[No _]|(c0 & Hc0 & Ag)]; [exfalso; now apply (No c)|].
    assert (U : forall c', In ((i, j), c') (writes_of assignment) -> c' = c).
    { intros c' H'. apply In_writes_of in H'.
      destruct H' as (v' & w' & k' & Hin' & Gk' & Ec').
      apply (Agree v' w' k' c' v w k c Hin' Hin Gk' Gk). congruence. }
    rewrite (U c0 Hc0) in Ag. apply Ag. exact U.
Qed.

Lemma letter_grid_places_letters_witness :
  let a := [(Examples.B, "ARC"%string); (Examples.A, "CAT"%string)] in
  exists g,
    letter_grid 3 3 a = Ret g /\
    shaped 3 3 g /\
    (forall i j, i < 3 -> j < 3 ->
       (forall v w k, In (v, w) a -> k < String.length w -> cell_of v k <> (i, j)) ->
       grid_get g i j = Some None) /\
    ((forall v1 w1 k1 c1 v2 w2 k2 c2,
         In (v1, w1) a -> In (v2, w2) a ->
         String.get k1 w1 = Some c1 -> String.get k2 w2 = Some c2 ->
         cell_of v1 k1 = cell_of v2 k2 -> c1 = c2) ->
     forall v w k c, In (v, w) a -> String.get k w = Some c ->
       grid_get g (fst (cell_of v k)) (snd (cell_of v k)) = Some (Some c)).
Proof.
  intros a. apply (letter_grid_places_letters 3 3 a).
  intros v w k H Hk. simpl in H.
  destruct H as [H|[H|[]]]; injection H as <- <-; simpl in Hk;
    unfold in_grid, cell_of; simpl; lia.
Defined.

(** X16. A letter outside the grid makes [letter_grid] raise [IndexError]:
    a word that runs past the last row or the last column of the grid is not
    cut, and no grid is returned. *)
Theorem letter_grid_index_error (height width : nat) (assignment : Assignment)
    (v : Var) (w : word) (k : nat) :
  In (v, w) assignment -> k < String.length w ->
  ~ in_grid height width (cell_of v k) ->
  letter_grid height width assignment = Raise IndexError.
Proof.
  intros Hin Hk Out. unfold letter_grid. rewrite letter_grid_items_writes.
  apply (apply_writes_outside height width); [apply empty_grid_shaped|].
  destruct (get_in_range k w Hk) as [c Gc].
  exists (cell_of v k), c. split; [|assumption].
  apply In_writes_of. exists v, w, k. auto.
Qed.

Lemma letter_grid_index_error_witness :
  letter_grid 3 2 [(Examples.A, "CAT"%string)] = Raise IndexError.
Proof.
  apply (letter_grid_index_error 3 2 [(Examples.A, "CAT"%string)]
           Examples.A "CAT"%string 2).
  - now left.
  - simpl. lia.
  - unfold in_grid. simpl. lia.
Defined.

Example letter_grid_cat :
  letter_grid 3 3 [(Examples.B, "ARC"%string); (Examples.A, "CAT"%string)]
  = Ret [[Some "C"%char; Some "A"%char; Some "T"%char];
         [None; Some "R"%char; None];
         [None; Some "C"%char; None]].
Proof. vm_compute. reflexivity. Qed.

(** ** The store during propagation *)

Lemma ac3_loop_node_consistent (cw : Crossword) (fuel : nat) :
  forall (d : Domains) (arcs : list Arc),
    node_consistent cw d -> node_consistent cw (fst (ac3_loop fuel cw d arcs)).
Proof.
  induction fuel as [|fuel IH]; intros d arcs NC; simpl; [assumption|].
  destruct arcs as [|[x y] rest]; [assumption|].
  pose proof (revise_node_consistent cw d x y NC) as NC1.
  destruct (revise cw d x y) as [d1 o]. simpl in NC1.
  destruct o as [[|]|e|]; simpl; try assumption.
  - destruct (dget x d1) as [dx|]; [|assumption].
    destruct (List.length dx =? 0); [assumption | now apply IH].
  - now apply IH.
Qed.

(** X17. Propagation keeps the store in shape: when the store holds one
    domain per variable, each a set of words of the vocabulary that have the
    length of the slot, it still does after [ac3], for every seed and however
    the call ends; the store that [solve] propagates and then searches is of
    this kind. *)
Theorem ac3_keeps_node_consistency (cw : Crossword) :
  NoDup (variables cw) -> NoDup (words cw) ->
  node_consistent cw (enforce_node_consistency (init_domains cw)) /\
  forall (domains : Domains) (arcs : option (list Arc)),
    node_consistent cw domains ->
    node_consistent cw (fst (ac3 cw domains arcs)).
Proof.
  intros NDv NDw. split.
  - assert (K : Dict.keys (init_domains cw) = variables cw).
    { unfold Dict.keys, init_domains. rewrite map_map. simpl. apply map_id. }
    rewrite enforce_node_consistency_map by (now rewrite K).
    split.
    + unfold Dict.keys. rewrite map_map. simpl. exact K.
    + intros v ws G. apply get_In in G. apply in_map_iff in G.
      destruct G as ([v0 ws0] & E & Hin). simpl in E. injection E as -> <-.
      unfold init_domains in Hin. apply in_map_iff in Hin.
      destruct Hin as (v1 & E & _). injection E as -> <-.
      split; [now apply NoDup_filter|].
      intros w Hw. apply filter_In in Hw. destruct Hw as [Hw L].
      apply Nat.eqb_eq in L. auto.
  - intros domains arcs NC. unfold ac3. now apply ac3_loop_node_consistent.
Qed.

Lemma ac3_keeps_node_consistency_witness :
  node_consistent Examples.cw_cat
    (enforce_node_consistency (init_domains Examples.cw_cat)) /\
  forall (domains : Domains) (arcs : option (list Arc)),
    node_consistent Examples.cw_cat domains ->
    node_consistent Examples.cw_cat (fst (ac3 Examples.cw_cat domains arcs)).
Proof.
  apply (ac3_keeps_node_consistency Examples.cw_cat); simpl; nodup_list.
Defined.

(** X18. The search is complete from any point: on a well-formed puzzle and a
    node-consistent store, when the dictionary given to [backtrack] is part
    of a solution whose words are all in their domains, [backtrack] returns
    an assignment. *)
Theorem backtrack_finds_extension (cw : Crossword) (domains : Domains)
    (assignment s : Assignment) :
  well_formed cw = true -> node_consistent cw domains ->
  solution cw s -> within domains s ->
  NoDup (Dict.keys assignment) -> incl assignment s ->
  exists assignment' s',
    backtrack cw domains assignment = (assignment', Ret (Some s')).
Proof.
  intros W NC Sol Wi ND I. apply well_formed_spec in W.
  apply (backtrack_fuel_finds cw domains s W NC Sol Wi); [|assumption|].
  - split; [assumption|]. intros v w Hin.
    pose proof Sol as (_ & _ & V & _).
    split; [exact (proj1 (V v w (I _ Hin))) | exact (Wi v w (I _ Hin))].
  - pose proof (unassigned_length cw assignment). lia.
Qed.

Lemma backtrack_finds_extension_witness :
  exists assignment' s',
    backtrack Examples.cw_cat
      (enforce_node_consistency (init_domains Examples.cw_cat))
      [(Examples.A, "CAR"%string)]
    = (assignment', Ret (Some s')).
Proof.
  assert (W : well_formed Examples.cw_cat = true) by (vm_compute; reflexivity).
  assert (Sol : solution Examples.cw_cat
                  [(Examples.B, "ARC"%string); (Examples.A, "CAR"%string)]).
  { apply (solution_same_puzzle Examples.cw_cat' Examples.cw_cat).
    - split; [|split]; [intros v; reflexivity | intros w; simpl; tauto
                        | intros x y; reflexivity].
    - apply solve_returns_solution;
        [apply well_formed_spec; vm_compute; reflexivity | vm_compute; reflexivity]. }
  apply (backtrack_finds_extension Examples.cw_cat
           (enforce_node_consistency (init_domains Examples.cw_cat))
           [(Examples.A, "CAR"%string)]
           [(Examples.B, "ARC"%string); (Examples.A, "CAR"%string)] W).
  - apply init_node_consistent. now apply well_formed_spec.
  - exact Sol.
  - now apply solution_within_init; [apply well_formed_spec|].
  - simpl. nodup_list.
  - intros e [<-|[]]. simpl. tauto.
Defined.
